(** * Player Isolation: board, flood-fill scorer, mirror strategy and
      negamax search of [game.cc], embedded in Rocq.

    The C++ [int]s and [char]s are modelled as [Z]: every value the
    properties below speak about stays far from the limits of its type
    ([depth_count] is a statistic that nothing reads).  The 49-cell arrays
    ([Board::board], the local [steps] of [DijkstraScorer::dijkstra]) are
    [list Z], read and written through bounds-checked accessors: an access
    outside the array is undefined behaviour in C++ and is [None] here.
    Unbounded loops ([while (true)]) and the recursion of
    [Negamax::negamax] carry a fuel argument; running out of fuel is [None]
    as well, and the theorems below show that neither happens on boards
    whose sentinel ring is intact.  The text [printBoard] and
    [printPossibleMoves] write to [cout] is modelled as a string; the
    match driver ([play_match], [main]) is modelled without its output;
    the [DEBUG] macro expands to nothing and is left out. *)

From Stdlib Require Import ZArith Lia List Bool.
From stdpp Require Import base option list strings.
Import ListNotations.

Local Open Scope Z_scope.

(** ** Constants and helper macros *)

Definition BORDER : Z := 5.
Definition EMPTY : Z := 0.
Definition P1 : Z := 1.
Definition P2 : Z := 2.

Definition LOSS_VALUE : Z := -1000.
Definition WIN_VALUE : Z := 1000.
Definition INF : Z := 1000000.
Definition MOVES : list Z := [1; -1; 7; -7; 6; -6; 8; -8].
Definition SCORE_PER_CELL : Z := 16.

Definition OPPONENT (p : Z) : Z := if p =? P1 then P2 else P1.
(** C++ integer division and remainder truncate towards zero. *)
Definition POS_TO_X (pos : Z) : Z := Z.quot (pos - 8) 7.
Definition POS_TO_Y (pos : Z) : Z := Z.rem (pos - 8) 7.
Definition XY_TO_POS (x y : Z) : Z := x * 7 + y + 8.

(** ** Arrays of 49 cells *)

Definition CELLS : nat := 49.

(** [a[i]] as an rvalue. *)
Definition rd (a : list Z) (i : Z) : option Z :=
  if (0 <=? i) && (i <? Z.of_nat (length a)) then a !! Z.to_nat i else None.

(** [a[i] = v]. *)
Definition wr (a : list Z) (i v : Z) : option (list Z) :=
  if (0 <=? i) && (i <? Z.of_nat (length a)) then Some (<[Z.to_nat i := v]> a)
  else None.

(** ** class Board *)

Record Board : Type := mkBoard {
  board : list Z;
  p1 : Z;
  p2 : Z
}.

(** The first loop of the constructor: four sentinel writes per [i]. *)
Fixpoint init_border (rows : list Z) (a : list Z) : option (list Z) :=
  match rows with
  | [] => Some a
  | i :: rest =>
      a ← wr a (i * 7 + 6) BORDER;
      a ← wr a (6 * 7 + i) BORDER;
      a ← wr a (i * 7 + 0) BORDER;
      a ← wr a (0 * 7 + i) BORDER;
      init_border rest a
  end.

Fixpoint init_row (i : Z) (js : list Z) (a : list Z) : option (list Z) :=
  match js with
  | [] => Some a
  | j :: rest => a ← wr a (i * 7 + j) EMPTY; init_row i rest a
  end.

Fixpoint init_inner (rows : list Z) (a : list Z) : option (list Z) :=
  match rows with
  | [] => Some a
  | i :: rest => a ← init_row i [1; 2; 3; 4; 5] a; init_inner rest a
  end.

(** [Board::Board()], run on the uninitialised member array [mem]. *)
Definition Board_ctor (mem : list Z) : option Board :=
  a ← init_border [0; 1; 2; 3; 4; 5; 6] mem;
  a ← init_inner [1; 2; 3; 4; 5] a;
  Some (mkBoard a 0 0).

(** The board every constructor call produces (see [Board_ctor_any]). *)
Definition fresh_cells : list Z :=
  [5;5;5;5;5;5;5;
   5;0;0;0;0;0;5;
   5;0;0;0;0;0;5;
   5;0;0;0;0;0;5;
   5;0;0;0;0;0;5;
   5;0;0;0;0;0;5;
   5;5;5;5;5;5;5].

Definition fresh_board : Board := mkBoard fresh_cells 0 0.

(** [Board::isLegal] *)
Definition isLegal (b : Board) (x y : Z) : option bool :=
  c ← rd (board b) (x * 7 + y + 8); Some (c =? EMPTY).

(** [Board::play] *)
Definition play (b : Board) (x y player : Z) : option Board :=
  let pos := x * 7 + y + 8 in
  a ← wr (board b) pos player;
  if player =? P1 then Some (mkBoard a pos (p2 b))
  else Some (mkBoard a (p1 b) pos).

(** Short-circuit [||] over reads that may fail. *)
Definition or_else (x : option bool) (y : option bool) : option bool :=
  match x with
  | Some true => Some true
  | Some false => y
  | None => None
  end.

Definition is_zero (a : list Z) (i : Z) : option bool :=
  c ← rd a i; Some (c =? 0).

(** [Board::hasLost] *)
Definition hasLost (b : Board) (i : Z) : option bool :=
  if i =? 0 then Some false
  else
    let a := board b in
    e ← or_else (is_zero a (i + 1)) (or_else (is_zero a (i - 1))
        (or_else (is_zero a (i + 7)) (or_else (is_zero a (i - 7))
        (or_else (is_zero a (i + 6)) (or_else (is_zero a (i - 6))
        (or_else (is_zero a (i + 8)) (is_zero a (i - 8))))))));
    Some (negb e).

(** ** class Mirror *)

(** [Mirror::getMove]; the assignment to the [board] member has no effect
    on the result. *)
Definition Mirror_getMove (b : Board) (player max_depth : Z) : Z :=
  let pp := if player =? P1 then p2 b else p1 b in
  let px := POS_TO_X pp in
  let py := POS_TO_Y pp in
  let x := 4 - px in
  let y := 4 - py in
  XY_TO_POS x y.

(** ** class DijkstraScorer *)

(** State of the flood fill: the queue, the [steps] array and the two
    running totals. *)
Record Flood : Type := mkFlood {
  fq : list Z;
  fsteps : list Z;
  total_cells : Z;
  total_steps : Z
}.

(** Fuel of one ray walk: a ray that stays inside the array visits fewer
    than 49 cells. *)
Definition RAY_FUEL : nat := 49.

(** The inner [while (true)] of [dijkstra]: walk from [p] by [move]. *)
Fixpoint flood_ray (fuel : nat) (b : Board) (move step p : Z)
    (q steps : list Z) : option (list Z * list Z) :=
  match fuel with
  | O => None
  | S n =>
      let p := p + move in
      cell ← rd (board b) p;
      if negb (cell =? EMPTY) then Some (q, steps)
      else
        s ← rd steps p;
        if negb (s =? -1) then Some (q, steps)
        else
          steps ← wr steps p step;
          flood_ray n b move step p (q ++ [p]) steps
  end.

(** The [for] loop over the eight directions. *)
Fixpoint flood_dirs (b : Board) (step pos : Z) (moves : list Z)
    (q steps : list Z) : option (list Z * list Z) :=
  match moves with
  | [] => Some (q, steps)
  | move :: rest =>
      '(q, steps) ← flood_ray RAY_FUEL b move step pos q steps;
      flood_dirs b step pos rest q steps
  end.

(** The outer [while (!q.empty())]. *)
Fixpoint flood_loop (fuel : nat) (b : Board) (f : Flood) : option Flood :=
  match fq f with
  | [] => Some f
  | pos :: q =>
      match fuel with
      | O => None
      | S n =>
          s ← rd (fsteps f) pos;
          let ts := total_steps f + s in
          let tc := total_cells f + 1 in
          let step := s + 1 in
          '(q, steps) ← flood_dirs b step pos MOVES q (fsteps f);
          flood_loop n b (mkFlood q steps tc ts)
      end
  end.

(** Every cell enters the queue at most once, so 49 pops (and one more
    test of the loop condition) are enough. *)
Definition FLOOD_FUEL : nat := 50.

(** The flood fill up to the end of its loop. *)
Definition flood (b : Board) (player : Z) : option Flood :=
  let steps := replicate CELLS (-1) in
  let pos := if player =? P1 then p1 b else p2 b in
  steps ← wr steps pos 0;
  flood_loop FLOOD_FUEL b (mkFlood [pos] steps 0 0).

(** [DijkstraScorer::dijkstra] *)
Definition dijkstra (b : Board) (player : Z) : option Z :=
  f ← flood b player;
  Some (total_cells f * SCORE_PER_CELL - total_steps f).

(** [DijkstraScorer::getScore]; the left operand of [-] is evaluated
    first here, and neither call writes to the board. *)
Definition getScore (b : Board) (player : Z) : option Z :=
  x ← dijkstra b player;
  y ← dijkstra b (OPPONENT player);
  Some (x - y).

(** ** class Scorer, class Negamax *)

(** The abstract [Scorer] interface with its one virtual method. *)
Class Scorer : Type := { Scorer_getScore : Board → Z → option Z }.

Definition DijkstraScorer : Scorer := {| Scorer_getScore := getScore |}.

(** What a [negamax] call can change: the cells of the shared board and
    the [depth_count] statistic of the [Negamax] object. *)
Record Search : Type := mkSearch {
  sboard : Board;
  depth_count : Z
}.

Definition set_cells (s : Search) (a : list Z) : Search :=
  mkSearch (mkBoard a (p1 (sboard s)) (p2 (sboard s))) (depth_count s).

(** How the move loops of [negamax] end: they run to completion
    ([Continue]) or leave the function on a cutoff ([Return]).
    [best_move] is [None] for a [NULL] pointer and the pointed-to [int]
    otherwise. *)
Inductive Flow : Type :=
  | Continue (s : Search) (alpha best_score : Z) (best_move : option Z)
  | Return (s : Search) (best_score : Z) (best_move : option Z).

Definition NegamaxFn : Type :=
  Search → Z → Z → Z → Z → Z → option Z → option (Z * Search * option Z).

Section Negamax.
Context {scorer : Scorer}.
Variable max_depth : Z.

(** The [while (true)] over one ray; [rec] is the recursive call. *)
Fixpoint negamax_ray (rec : NegamaxFn) (fuel : nat) (s : Search)
    (player pp_pos depth move pos alpha beta best_score : Z)
    (best_move : option Z) : option Flow :=
  match fuel with
  | O => None
  | S n =>
      let pos := pos + move in
      cell ← rd (board (sboard s)) pos;
      if negb (cell =? EMPTY) then
        Some (Continue s alpha best_score best_move)
      else
        a ← wr (board (sboard s)) pos player;
        '(r, s, _) ← rec (set_cells s a) pp_pos pos (depth + 1)
                          (- beta) (- alpha) None;
        let score := -1 * r in
        a ← wr (board (sboard s)) pos 0;
        let s := set_cells s a in
        let '(best_score, best_move) :=
          if score >? best_score
          then (score, match best_move with
                       | Some _ => Some pos
                       | None => None
                       end)
          else (best_score, best_move) in
        let alpha := if alpha >=? score then alpha else score in
        if alpha >=? beta then Some (Return s best_score best_move)
        else negamax_ray rec n s player pp_pos depth move pos
                         alpha beta best_score best_move
  end.

(** The [for] loop over the eight directions. *)
Fixpoint negamax_dirs (rec : NegamaxFn) (s : Search)
    (player pp_pos depth ap_pos : Z) (moves : list Z)
    (alpha beta best_score : Z) (best_move : option Z) : option Flow :=
  match moves with
  | [] => Some (Continue s alpha best_score best_move)
  | move :: rest =>
      out ← negamax_ray rec RAY_FUEL s player pp_pos depth move ap_pos
                        alpha beta best_score best_move;
      match out with
      | Continue s alpha best_score best_move =>
          negamax_dirs rec s player pp_pos depth ap_pos rest
                       alpha beta best_score best_move
      | Return _ _ _ => Some out
      end
  end.

(** [Negamax::negamax]; returns the value, the state left behind and
    the contents of [*best_move]. *)
Fixpoint negamax (fuel : nat) (s : Search)
    (ap_pos pp_pos depth alpha beta : Z) (best_move : option Z)
    : option (Z * Search * option Z) :=
  match fuel with
  | O => None
  | S n =>
      lost ← hasLost (sboard s) ap_pos;
      if (lost : bool) then Some (LOSS_VALUE + depth, s, best_move)
      else
        player ← rd (board (sboard s)) ap_pos;
        if depth =? max_depth then
          let s := mkSearch (sboard s) (depth_count s + 1) in
          score ← Scorer_getScore (sboard s) player;
          Some (score, s, best_move)
        else
          out ← negamax_dirs (negamax n) s player pp_pos depth ap_pos
                             MOVES alpha beta (- INF) best_move;
          match out with
          | Continue s _ best_score best_move
          | Return s best_score best_move =>
              Some (best_score, s, best_move)
          end
  end.

(** Reference search, after the specification's "exhaustive unpruned
    search of identical depth": the same negamax recursion without the
    alpha-beta window and without the cutoff test, so every destination of
    every ray is tried and the best negated value is kept.  It works on
    board values, so nothing has to be undone. *)
Fixpoint exhaustive_ray (rec : Board → Z → Z → Z → option Z) (fuel : nat)
    (b : Board) (player pp_pos depth move pos best_score : Z) : option Z :=
  match fuel with
  | O => None
  | S n =>
      let pos := pos + move in
      cell ← rd (board b) pos;
      if negb (cell =? EMPTY) then Some best_score
      else
        a ← wr (board b) pos player;
        r ← rec (mkBoard a (p1 b) (p2 b)) pp_pos pos (depth + 1);
        exhaustive_ray rec n b player pp_pos depth move pos
                       (Z.max best_score (- r))
  end.

Fixpoint exhaustive_dirs (rec : Board → Z → Z → Z → option Z) (b : Board)
    (player pp_pos depth ap_pos : Z) (moves : list Z) (best_score : Z)
    : option Z :=
  match moves with
  | [] => Some best_score
  | move :: rest =>
      best_score ← exhaustive_ray rec RAY_FUEL b player pp_pos depth move
                                  ap_pos best_score;
      exhaustive_dirs rec b player pp_pos depth ap_pos rest best_score
  end.

Fixpoint exhaustive (fuel : nat) (b : Board) (ap_pos pp_pos depth : Z)
    : option Z :=
  match fuel with
  | O => None
  | S n =>
      lost ← hasLost b ap_pos;
      if (lost : bool) then Some (LOSS_VALUE + depth)
      else
        player ← rd (board b) ap_pos;
        if depth =? max_depth then Scorer_getScore b player
        else exhaustive_dirs (exhaustive n) b player pp_pos depth ap_pos
                             MOVES (- INF)
  end.

End Negamax.

(** [Negamax::getMove]; returns the move and the state left behind. *)
Definition getMove {scorer : Scorer} (fuel : nat) (b : Board)
    (player max_depth : Z) : option (Z * Search) :=
  let ap_pos := if player =? P1 then p1 b else p2 b in
  let pp_pos := if player =? P1 then p2 b else p1 b in
  '(_, s, move) ← negamax max_depth fuel (mkSearch b 0) ap_pos pp_pos 1
                          (- INF) INF (Some 0);
  move ← move;
  Some (move, s).

(** The value the root call of [getMove] computes. *)
Definition root_value {scorer : Scorer} (fuel : nat) (b : Board)
    (player max_depth : Z) : option Z :=
  let ap_pos := if player =? P1 then p1 b else p2 b in
  let pp_pos := if player =? P1 then p2 b else p1 b in
  '(v, _, _) ← negamax max_depth fuel (mkSearch b 0) ap_pos pp_pos 1
                          (- INF) INF (Some 0);
  Some v.

(** ** Well-formed boards *)

(** The 24 sentinel positions: rows and columns 0 and 6. *)
Definition on_ring (i : Z) : bool :=
  (i <? 7) || (41 <? i) || (i mod 7 =? 0) || (i mod 7 =? 6).

(** The 25 inner positions. *)
Definition playable (pos : Z) : bool :=
  (0 <=? pos) && (pos <? 49) && negb (on_ring pos).

Definition positions : list Z := map Z.of_nat (seq 0 CELLS).

Definition sentinel_ok (a : list Z) (i : Z) : bool :=
  if on_ring i then
    match rd a i with Some c => c =? BORDER | None => false end
  else true.

(** 49 cells, and the sentinel ring holds [BORDER]. *)
Definition wf_board (b : Board) : bool :=
  (length (board b) =? CELLS)%nat && forallb (sentinel_ok (board b)) positions.

Definition token_pos (b : Board) (player : Z) : Z :=
  if player =? P1 then p1 b else p2 b.

(** [player]'s token is on the board: its stored position is an inner
    cell, and that cell carries the player's mark. *)
Definition placed (b : Board) (player : Z) : bool :=
  playable (token_pos b player) &&
  match rd (board b) (token_pos b player) with
  | Some c => c =? player
  | None => false
  end.

Definition both_placed (b : Board) : bool :=
  wf_board b && placed b P1 && placed b P2.

(** Number of elements of [l] that satisfy [f]. *)
Fixpoint count_if (f : Z → bool) (l : list Z) : nat :=
  match l with
  | [] => O
  | x :: l => if f x then S (count_if f l) else count_if f l
  end.

Definition is_empty_cell (a : list Z) (i : Z) : bool :=
  match rd a i with Some c => c =? EMPTY | None => false end.

(** Number of Empty cells of the board. *)
Definition empties (a : list Z) : nat := count_if (is_empty_cell a) positions.

(** Steps from [p] in direction [move] to the sentinel ring. *)
Fixpoint ring_dist (fuel : nat) (move p : Z) : nat :=
  match fuel with
  | O => O
  | S n => if on_ring (p + move) then 1%nat
           else S (ring_dist n move (p + move))
  end.

Definition geom_ok (p m : Z) : bool :=
  (0 <=? p + m) && (p + m <? 49) &&
  (on_ring (p + m) ||
   (playable (p + m) && (ring_dist 7 m (p + m) <? ring_dist 7 m p)%nat)).

(** Cells the flood fill can still discover: Empty and without a distance. *)
Definition is_unseen (a steps : list Z) (i : Z) : bool :=
  is_empty_cell a i &&
  match rd steps i with Some s => s =? -1 | None => false end.

Definition unseen (a steps : list Z) : nat :=
  count_if (is_unseen a steps) positions.

(** Invariant of the flood-fill queue after [c] pops: queued cells are
    inner cells, and the [j]-th of them has a distance of at most [c + j],
    its rank in the order of discovery. *)
Definition queue_ok (c : Z) (q steps : list Z) : Prop :=
  length steps = CELLS ∧
  ∀ (j : nat) (p : Z), q !! j = Some p →
    playable p = true ∧ ∃ s, rd steps p = Some s ∧ 0 ≤ s ≤ c + Z.of_nat j.

(** Distances already assigned in [steps] are still there in [steps']. *)
Definition steps_final (steps steps' : list Z) : Prop :=
  ∀ x s, rd steps x = Some s → s ≠ -1 → rd steps' x = Some s.

(** ** Values of the search *)

(** The value the root call of [getMove] would get from the unpruned
    search. *)
Definition exhaustive_value {scorer : Scorer} (fuel : nat) (b : Board)
    (player max_depth : Z) : option Z :=
  let ap_pos := if player =? P1 then p1 b else p2 b in
  let pp_pos := if player =? P1 then p2 b else p1 b in
  exhaustive max_depth fuel b ap_pos pp_pos 1.

(** Range of the values of leaves, hence of all nodes with a move. *)
Definition ok_val (v : Z) : Prop := -1000 ≤ v ≤ 1000.

(** Range of a running best score: still the initial [-INF], or a value. *)
Definition ok_best (m : Z) : Prop := m = - INF ∨ ok_val m.

(** What a fail-soft alpha-beta result [r] says about the true value [v]:
    exact inside the window, a bound outside. *)
Definition failsoft (alpha beta v r : Z) : Prop :=
  (r ≤ alpha → v ≤ r) ∧ (beta ≤ r → r ≤ v) ∧ (alpha < r < beta → v = r).

(** Invariant of the move loops of [negamax], entered with window
    [(alpha0, beta)]: [best] is the pruned running best, [m] the unpruned
    one over the same moves. *)
Definition loop_inv (alpha0 beta alpha best m : Z) : Prop :=
  alpha = Z.max alpha0 best ∧ alpha < beta ∧
  (best ≤ alpha0 → m ≤ best) ∧ (alpha0 < best → m = best).

(** A token position inside a search: an inner cell that is not Empty. *)
Definition token_at (a : list Z) (pos : Z) : Prop :=
  playable pos = true ∧ ∃ c, rd a pos = Some c ∧ c ≠ EMPTY.

(** What the unpruned search needs from its recursive calls [rec]: on
    boards with at most [e] Empty cells they return a value in range. *)
Definition node_ok (rec : Board → Z → Z → Z → option Z) (e : nat) : Prop :=
  ∀ b ap pp depth,
    wf_board b = true → playable (p1 b) = true → playable (p2 b) = true →
    token_at (board b) ap → token_at (board b) pp →
    (empties (board b) ≤ e)%nat →
    1 ≤ depth → depth + Z.of_nat (empties (board b)) ≤ 1000 →
    ∃ v, rec b ap pp depth = Some v ∧ ok_val v.

(** What the move loops of [negamax] guarantee when the unpruned loops
    over the same moves end with best score [m']: the board is as it was,
    and either the loop invariant holds or the cutoff value is a lower
    bound of [m']. *)
Definition flow_ok (b : Board) (alpha0 beta m' : Z) (bm : option Z)
    (out : Flow) : Prop :=
  match out with
  | Continue s' alpha' best' bm' =>
      sboard s' = b ∧ loop_inv alpha0 beta alpha' best' m' ∧
      (is_Some bm → is_Some bm')
  | Return s' r bm' =>
      sboard s' = b ∧ beta ≤ r ∧ r ≤ m' ∧ (is_Some bm → is_Some bm')
  end.

(** The pruned search [nrec] follows the unpruned search [erec]. *)
Definition rec_sound (erec : Board → Z → Z → Z → option Z)
    (nrec : NegamaxFn) : Prop :=
  ∀ s ap pp depth alpha beta bm v,
    - INF ≤ alpha → alpha < beta → beta ≤ INF →
    erec (sboard s) ap pp depth = Some v →
    ∃ r s' bm', nrec s ap pp depth alpha beta bm = Some (r, s', bm') ∧
      sboard s' = sboard s ∧ failsoft alpha beta v r ∧
      (is_Some bm → is_Some bm').

(** ** Ray moves (move generation) *)

(** The Empty cells met walking from [p] by [move], up to the first
    non-Empty cell. *)
Fixpoint ray_cells (fuel : nat) (a : list Z) (move p : Z) : list Z :=
  match fuel with
  | O => []
  | S n =>
      let p := p + move in
      match rd a p with
      | Some c => if c =? EMPTY then p :: ray_cells n a move p else []
      | None => []
      end
  end.

(** The destinations of one ray move from [p]. *)
Definition destinations (a : list Z) (p : Z) : list Z :=
  flat_map (λ move, ray_cells RAY_FUEL a move p) MOVES.

(** [ray_path a n p q]: [q] is reached from [p] by [n] ray moves. *)
Inductive ray_path (a : list Z) : nat → Z → Z → Prop :=
  | ray_path_O p : ray_path a 0 p p
  | ray_path_S n p q r :
      ray_path a n p q → r ∈ destinations a q → ray_path a (S n) p r.

(** ** Sequences of [play] calls *)

(** A call [play(x, y, player)]. *)
Definition PlayCall : Type := (Z * Z * Z)%type.

Fixpoint run_plays (b : Board) (calls : list PlayCall) : option Board :=
  match calls with
  | [] => Some b
  | (x, y, player) :: rest => b ← play b x y player; run_plays b rest
  end.

(** Every call is made for P1 or P2 on a cell that [isLegal] reports
    Empty at that moment. *)
Fixpoint legal_plays (b : Board) (calls : list PlayCall) : bool :=
  match calls with
  | [] => true
  | (x, y, player) :: rest =>
      ((player =? P1) || (player =? P2)) &&
      match isLegal b x y, play b x y player with
      | Some true, Some b' => legal_plays b' rest
      | _, _ => false
      end
  end.

Definition has_mark (a : list Z) (player i : Z) : bool :=
  match rd a i with Some c => c =? player | None => false end.

(** Number of cells that carry [player]'s ownership mark. *)
Definition marks (a : list Z) (player : Z) : nat :=
  count_if (has_mark a player) positions.

(** Number of calls made for [player]. *)
Definition plays_of (player : Z) (calls : list PlayCall) : nat :=
  length (filter (λ c : PlayCall, c.2 = player) calls).

(** The cell [x*7+y+8] of the latest call made for [player], [cur] when
    no call is made for [player]. *)
Fixpoint last_play (player : Z) (calls : list PlayCall) (cur : Z) : Z :=
  match calls with
  | [] => cur
  | (x, y, who) :: rest =>
      last_play player rest (if who =? player then x * 7 + y + 8 else cur)
  end.

(** The invariant as the specification words it: any cell carrying a
    player's mark is that player's stored position (so there is at most
    one such cell). *)
Definition one_mark_per_player (b : Board) : Prop :=
  ∀ player, player = P1 ∨ player = P2 →
    ∀ i, rd (board b) i = Some player → i = token_pos b player.

(** ** Sample boards *)

(** The first board [main] builds: [play(0,0,P1)], then [play(0,1,P2)]. *)
Definition board_opening : Board :=
  mkBoard
    [5;5;5;5;5;5;5;
     5;1;2;0;0;0;5;
     5;0;0;0;0;0;5;
     5;0;0;0;0;0;5;
     5;0;0;0;0;0;5;
     5;0;0;0;0;0;5;
     5;5;5;5;5;5;5] 8 9.

(** A late position: P1 on cell 32, P2 on cell 25. *)
Definition board_endgame : Board :=
  mkBoard
    [5;5;5;5;5;5;5;
     5;1;2;1;0;0;5;
     5;2;2;1;0;0;5;
     5;2;1;1;2;0;5;
     5;2;1;1;1;0;5;
     5;0;0;2;0;0;5;
     5;5;5;5;5;5;5] 32 25.

(** Both tokens walled in: P1 on cell 8, P2 on cell 9. *)
Definition board_isolated : Board :=
  mkBoard
    [5;5;5;5;5;5;5;
     5;1;2;2;0;0;5;
     5;1;1;2;0;0;5;
     5;0;0;0;0;0;5;
     5;0;0;0;0;0;5;
     5;0;0;0;0;0;5;
     5;5;5;5;5;5;5] 8 9.

(** P1 walled in on cell 8 by its own trail; P2 has not played. *)
Definition board_walled_alone : Board :=
  mkBoard
    [5;5;5;5;5;5;5;
     5;1;1;0;0;0;5;
     5;1;1;0;0;0;5;
     5;0;0;0;0;0;5;
     5;0;0;0;0;0;5;
     5;0;0;0;0;0;5;
     5;5;5;5;5;5;5] 8 0.

(** [on_ray a move o p]: walking from [o] by [move] reaches [p] through
    Empty cells only ([p] included). *)
Inductive on_ray (a : list Z) (move : Z) : Z → Z → Prop :=
  | on_ray_here o :
      rd a (o + move) = Some EMPTY → on_ray a move o (o + move)
  | on_ray_next o p :
      rd a (o + move) = Some EMPTY → on_ray a move (o + move) p →
      on_ray a move o p.

(** A cell has been given a distance by the flood fill. *)
Definition seenb (steps : list Z) (i : Z) : bool :=
  match rd steps i with Some s => negb (s =? -1) | None => false end.

(** The distance of a cell that has one, 0 otherwise. *)
Definition stepval (steps : list Z) (i : Z) : Z :=
  match rd steps i with Some s => if s =? -1 then 0 else s | None => 0 end.

Fixpoint sum_over (f : Z → Z) (l : list Z) : Z :=
  match l with
  | [] => 0
  | x :: l => f x + sum_over f l
  end.

(** Number of cells with a distance, and the sum of these distances. *)
Definition seen_count (steps : list Z) : Z :=
  Z.of_nat (count_if (seenb steps) positions).

Definition steps_total (steps : list Z) : Z :=
  sum_over (stepval steps) positions.

(** What one ray walk, or the eight walks from one cell, add to the flood
    fill: the cells [new] are appended to the queue; each of them
    satisfies [R], had no distance and now has [step]; nothing else
    changes. *)
Definition flood_adds (R : Z → Prop) (step : Z) (q steps q' steps' new : list Z)
    : Prop :=
  q' = q ++ new ∧ length steps' = CELLS ∧ NoDup new ∧
  (∀ x, x ∈ new → R x ∧ rd steps x = Some (-1) ∧ rd steps' x = Some step) ∧
  (∀ x, x ∉ new → rd steps' x = rd steps x) ∧
  seen_count steps' = seen_count steps + Z.of_nat (length new) ∧
  steps_total steps' = steps_total steps + step * Z.of_nat (length new).

(** Invariant of the flood fill from [start] on the cells [a]. *)
Definition flood_inv (a : list Z) (start : Z) (f : Flood) : Prop :=
  length (fsteps f) = CELLS ∧
  (∀ p s, rd (fsteps f) p = Some s → s ≠ -1 →
     0 ≤ s ∧ playable p = true ∧ ray_path a (Z.to_nat s) start p) ∧
  (∀ p, seenb (fsteps f) p = true → p ∉ fq f →
     ∀ move, move ∈ MOVES →
       ∃ c, rd a (p + move) = Some c ∧
            (c = EMPTY → seenb (fsteps f) (p + move) = true)) ∧
  NoDup (fq f) ∧
  (∀ p, p ∈ fq f → seenb (fsteps f) p = true) ∧
  seenb (fsteps f) start = true ∧
  total_cells f + Z.of_nat (length (fq f)) = seen_count (fsteps f) ∧
  total_steps f + sum_over (stepval (fsteps f)) (fq f) = steps_total (fsteps f).

(** What a cell contributes to the result of [dijkstra]. *)
Definition cell_score (steps : list Z) (i : Z) : Z :=
  if seenb steps i then SCORE_PER_CELL - stepval steps i else 0.

(** Invariant of the move loops of the root call of [negamax] (window
    [(-INF, INF)], [*best_move] initially [bm0]): either no move has been
    tried yet, or [best] is the unpruned value of the move stored in
    [*best_move], which is a destination from [ap], and the unpruned
    running best [m] equals [best]. *)
Definition root_inv (erec : Board → Z → Z → Z → option Z) (b : Board)
    (player ap pp depth : Z) (bm0 : option Z) (best m : Z) (bm : option Z)
    : Prop :=
  (best = - INF ∧ m = - INF ∧ bm = bm0) ∨
  (ok_val best ∧ m = best ∧
   ∃ pos a vc, bm = Some pos ∧ pos ∈ destinations (board b) ap ∧
     wr (board b) pos player = Some a ∧
     erec (mkBoard a (p1 b) (p2 b)) pp pos (depth + 1) = Some vc ∧
     best = - vc).

(** The mark of the player [getMove] moves for. *)
Definition mover (player : Z) : Z := if player =? P1 then P1 else P2.

(** ** The match driver *)

(** How a match ends: the player who cannot move, the final board and the
    number of moves played ([count]). *)
Definition Outcome : Type := (Z * Board * Z)%type.

(** The loop of [play_match], without its output.  Both strategy objects
    of the source, [negamax] and [mirror], are [Negamax] instances built
    by the default constructor, hence with the Dijkstra scorer; both
    branches search to depth 25.  [fuel] bounds the number of turns and
    [search_fuel] is the fuel of each search. *)
Fixpoint play_match_loop (fuel search_fuel : nat) (player : Z) (b : Board)
    (count : Z) : option Outcome :=
  match fuel with
  | O => None
  | S n =>
      let ap_pos := if player =? P1 then p1 b else p2 b in
      lost ← hasLost b ap_pos;
      if (lost : bool) then Some (player, b, count)
      else
        '(best_move, s) ←
          (if Z.rem count 2 =? 0
           then @getMove DijkstraScorer search_fuel b player 25
           else @getMove DijkstraScorer search_fuel b player 25);
        let b := sboard s in
        let count := count + 1 in
        let x := POS_TO_X best_move in
        let y := POS_TO_Y best_move in
        b ← play b x y player;
        play_match_loop n search_fuel (OPPONENT player) b count
  end.

(** [play_match] *)
Definition play_match (fuel search_fuel : nat) (player : Z) (b : Board)
    : option Outcome :=
  play_match_loop fuel search_fuel player b 0.

(** The body of the loops of [main] for one [(i, j)]. *)
Definition main_match (fuel search_fuel : nat) (mem : list Z) (i j : Z)
    : option Outcome :=
  b ← Board_ctor mem;
  b ← play b 0 0 P1;
  b ← play b i j P2;
  play_match fuel search_fuel P1 b.

(** The inner and the outer loop of [main], collecting the outcomes. *)
Fixpoint main_cols (fuel search_fuel : nat) (mem : list Z) (i : Z)
    (js : list Z) : option (list Outcome) :=
  match js with
  | [] => Some []
  | j :: js =>
      if (i =? 0) && (j =? 0) then main_cols fuel search_fuel mem i js
      else
        r ← main_match fuel search_fuel mem i j;
        rs ← main_cols fuel search_fuel mem i js;
        Some (r :: rs)
  end.

Fixpoint main_rows (fuel search_fuel : nat) (mem : list Z) (rows : list Z)
    : option (list Outcome) :=
  match rows with
  | [] => Some []
  | i :: rows =>
      rs ← main_cols fuel search_fuel mem i [0; 1; 2; 3; 4];
      rest ← main_rows fuel search_fuel mem rows;
      Some (rs ++ rest)
  end.

(** [main]: the outcomes of its matches and its return value. *)
Definition main (fuel search_fuel : nat) (mem : list Z)
    : option (list Outcome * Z) :=
  rs ← main_rows fuel search_fuel mem [0; 1; 2; 3; 4];
  Some (rs, 0).

(** A match ended properly: the loser is P1 or P2, is walled in on the
    final board, and at most [limit] moves were played. *)
Definition match_over (limit : Z) (r : Outcome) : Prop :=
  (r.1.1 = P1 ∨ r.1.1 = P2) ∧
  hasLost r.1.2 (token_pos r.1.2 r.1.1) = Some true ∧
  0 ≤ r.2 ≤ limit ∧
  Z.of_nat (empties (board r.1.2)) + r.2 = limit.

(** ** Printing *)

(** The text written to [cout] is modelled as a [string]; [endl] is the
    newline character.  The macro [PLAYER] yields a [char], here the
    one-character string that printing it produces. *)
Definition PLAYER (p : Z) : string := if p =? P1 then "1" else "2".

Definition endl : string :=
  String (Ascii.Ascii false true false true false false false false) "".

(** What [printBoard] writes for the cell [pos] holding [cell]. *)
Definition board_cell_text (b : Board) (pos cell : Z) : string :=
  if cell =? 0 then "  | "
  else if (p1 b =? pos) || (p2 b =? pos) then (PLAYER cell ++ " | ")%string
  else "X | ".

(** What [printPossibleMoves] writes for the cell [pos] of its marked
    copy. *)
Definition moves_cell_text (b : Board) (pos cell : Z) : string :=
  if cell =? 0 then "  | "
  else if (p1 b =? pos) || (p2 b =? pos) then (PLAYER cell ++ " | ")%string
  else if cell =? 3 then "* | "
  else "X | ".

(** The inner and the outer printing loop, shared by both functions. *)
Fixpoint print_row (text : Z → Z → string) (a : list Z) (i : Z) (js : list Z)
    : option string :=
  match js with
  | [] => Some ""%string
  | j :: js =>
      cell ← rd a (i * 7 + j);
      rest ← print_row text a i js;
      Some (text (i * 7 + j) cell ++ rest)%string
  end.

Fixpoint print_rows (text : Z → Z → string) (a : list Z) (rows : list Z)
    : option string :=
  match rows with
  | [] => Some ""%string
  | i :: rows =>
      r ← print_row text a i [1; 2; 3; 4; 5];
      rest ← print_rows text a rows;
      Some ("| " ++ r ++ endl ++ rest)%string
  end.

(** [Board::printBoard] *)
Definition printBoard (b : Board) : option string :=
  print_rows (board_cell_text b) (board b) [1; 2; 3; 4; 5].

(** The copy loop of [printPossibleMoves]: [brd[i] = board[i]]. *)
Fixpoint copy_cells (a : list Z) (idx : list Z) : option (list Z) :=
  match idx with
  | [] => Some []
  | i :: idx => c ← rd a i; rest ← copy_cells a idx; Some (c :: rest)
  end.

(** Its marking loops: every Empty cell of a ray becomes 3. *)
Fixpoint mark_ray (fuel : nat) (brd : list Z) (move pos : Z)
    : option (list Z) :=
  match fuel with
  | O => None
  | S n =>
      let pos := pos + move in
      cell ← rd brd pos;
      if negb (cell =? EMPTY) then Some brd
      else brd ← wr brd pos 3; mark_ray n brd move pos
  end.

Fixpoint mark_dirs (brd : list Z) (ap_pos : Z) (moves : list Z)
    {struct moves} : option (list Z) :=
  match moves with
  | [] => Some brd
  | move :: rest =>
      brd ← mark_ray RAY_FUEL brd move ap_pos; mark_dirs brd ap_pos rest
  end.

(** The copy of the board with the possible moves marked. *)
Definition marked_cells (b : Board) (player : Z) : option (list Z) :=
  let ap_pos := if player =? P1 then p1 b else p2 b in
  brd ← copy_cells (board b) positions;
  mark_dirs brd ap_pos MOVES.

(** [Board::printPossibleMoves] *)
Definition printPossibleMoves (b : Board) (player : Z) : option string :=
  brd ← marked_cells b player;
  print_rows (moves_cell_text b) brd [1; 2; 3; 4; 5].

(** The grid text with [text pos] written for each inner cell. *)
Definition render_row (text : Z → string) (i : Z) (js : list Z) : string :=
  foldr (λ j acc, (text (i * 7 + j) ++ acc)%string) ""%string js.

Definition render_rows (text : Z → string) (rows : list Z) : string :=
  foldr (λ i acc,
           ("| " ++ render_row text i [1; 2; 3; 4; 5] ++ endl ++ acc)%string)
        ""%string rows.

Definition render (text : Z → string) : string :=
  render_rows text [1; 2; 3; 4; 5].

(** The value of a cell, 0 outside the array. *)
Definition cell_of (a : list Z) (pos : Z) : Z := default 0 (rd a pos).

(** The cells of the ray from [p] by [move] as far as the sentinel ring,
    the first ring cell included. *)
Fixpoint ray_span (fuel : nat) (move p : Z) : list Z :=
  match fuel with
  | O => []
  | S n => (p + move) ::
           (if on_ring (p + move) then [] else ray_span n move (p + move))
  end.

(** The destinations along the directions [dirs] only. *)
Definition dests_of (a : list Z) (p : Z) (dirs : list Z) : list Z :=
  flat_map (λ move, ray_cells RAY_FUEL a move p) dirs.

Definition spans_disjoint (p m d : Z) : bool :=
  (m =? d) ||
  forallb (λ x, negb (existsb (Z.eqb x) (ray_span 7 d p))) (ray_span 7 m p).

(** * Properties *)

Lemma RAY_FUEL_eq : RAY_FUEL = 49%nat.
Proof. reflexivity. Qed.

Lemma FLOOD_FUEL_eq : FLOOD_FUEL = 50%nat.
Proof. reflexivity. Qed.

Lemma MOVES_eq : MOVES = [1; -1; 7; -7; 6; -6; 8; -8].
Proof. reflexivity. Qed.

Opaque RAY_FUEL FLOOD_FUEL MOVES.
Arguments rd : simpl never.
Arguments wr : simpl never.
Arguments on_ring : simpl never.
Arguments playable : simpl never.

(** ** Array accessors *)

Lemma rd_Some_range a i v : rd a i = Some v → 0 ≤ i < Z.of_nat (length a).
Proof.
  unfold rd. destruct (0 <=? i) eqn:H0; destruct (i <? _) eqn:H1; simpl;
    try discriminate. lia.
Qed.

Lemma rd_in_range a i :
  0 ≤ i < Z.of_nat (length a) → ∃ v, rd a i = Some v.
Proof.
  intros H. unfold rd.
  destruct (0 <=? i) eqn:H0; [|lia]. destruct (i <? _) eqn:H1; [|lia]. simpl.
  destruct (a !! Z.to_nat i) eqn:E; eauto.
  apply lookup_ge_None in E. lia.
Qed.

Lemma wr_in_range a i v :
  0 ≤ i < Z.of_nat (length a) → wr a i v = Some (<[Z.to_nat i := v]> a).
Proof.
  intros H. unfold wr.
  destruct (0 <=? i) eqn:H0; [|lia]. destruct (i <? _) eqn:H1; [|lia]. done.
Qed.

Lemma wr_Some a i v a' :
  wr a i v = Some a' →
  0 ≤ i < Z.of_nat (length a) ∧ a' = <[Z.to_nat i := v]> a.
Proof.
  unfold wr. destruct (0 <=? i) eqn:H0; destruct (i <? _) eqn:H1; simpl;
    try discriminate. intros [= <-]. split; [lia | done].
Qed.

Lemma wr_length a i v a' : wr a i v = Some a' → length a' = length a.
Proof. intros [_ ->]%wr_Some. apply length_insert. Qed.

Lemma rd_wr_eq a i v a' : wr a i v = Some a' → rd a' i = Some v.
Proof.
  intros [Hr ->]%wr_Some. unfold rd. rewrite length_insert.
  destruct (0 <=? i) eqn:H0; [|lia]. destruct (i <? _) eqn:H1; [|lia]. simpl.
  apply list_lookup_insert_eq. lia.
Qed.

Lemma rd_wr_ne a i v a' j : wr a i v = Some a' → i ≠ j → rd a' j = rd a j.
Proof.
  intros [Hr ->]%wr_Some Hne. unfold rd. rewrite length_insert.
  destruct ((0 <=? j) && _) eqn:E; [|done].
  apply andb_prop in E as [?%Z.leb_le ?%Z.ltb_lt].
  apply list_lookup_insert_ne. lia.
Qed.

(** Writing back the value a cell held undoes an intermediate write. *)
Lemma wr_undo a i v w a1 a2 :
  rd a i = Some w → wr a i v = Some a1 → wr a1 i w = Some a2 → a2 = a.
Proof.
  intros Hrd [Hr ->]%wr_Some [_ ->]%wr_Some.
  rewrite list_insert_insert_eq. apply list_insert_id.
  unfold rd in Hrd. destruct ((0 <=? i) && _); [done | discriminate].
Qed.

(** ** Counting *)

Lemma count_if_le f g l :
  (∀ x, x ∈ l → f x = true → g x = true) →
  (count_if f l ≤ count_if g l)%nat.
Proof.
  induction l as [|x l IH]; intros H; simpl; [lia|].
  assert (count_if f l ≤ count_if g l)%nat
    by (apply IH; intros; apply H; [by right | done]).
  destruct (f x) eqn:Ef.
  - rewrite (H x); [lia | by left | done].
  - destruct (g x); lia.
Qed.

Lemma count_if_ext f g l :
  (∀ x, x ∈ l → g x = f x) → count_if f l = count_if g l.
Proof.
  induction l as [|x l IH]; intros H; simpl; [done|].
  rewrite (H x) by (by left). rewrite IH; [done|].
  intros y Hy. apply H. by right.
Qed.

Lemma count_if_flip f g l p :
  NoDup l → p ∈ l → f p = true → g p = false →
  (∀ x, x ≠ p → g x = f x) →
  count_if f l = S (count_if g l).
Proof.
  intros Hnd Hin Hf Hg Hoth.
  induction l as [|x l IH]; [by apply elem_of_nil in Hin|].
  apply NoDup_cons in Hnd as [Hx Hnd]. simpl.
  destruct (decide (x = p)) as [->|Hne].
  - rewrite Hf, Hg. f_equal. apply count_if_ext.
    intros y Hy. apply Hoth. intros ->. done.
  - apply elem_of_cons in Hin as [->|Hin]; [done|].
    rewrite (Hoth x) by done. rewrite (IH Hnd Hin). by destruct (f x).
Qed.

Lemma positions_NoDup : NoDup positions.
Proof.
  unfold positions. apply NoDup_fmap_2; [|apply NoDup_seq].
  intros x y. lia.
Qed.

Lemma elem_of_positions i : i ∈ positions ↔ 0 ≤ i < 49.
Proof.
  unfold positions. rewrite list_elem_of_fmap. split.
  - intros (n & -> & Hn%elem_of_seq). unfold CELLS in Hn. lia.
  - intros H. exists (Z.to_nat i). split; [lia|].
    apply elem_of_seq. unfold CELLS. lia.
Qed.

(** ** Geometry of the sentinel ring *)

Lemma playable_range p : playable p = true → 8 ≤ p ≤ 40 ∧ on_ring p = false.
Proof.
  unfold playable. intros H.
  apply andb_prop in H as [H Hr]. apply andb_prop in H as [H0 H1].
  apply negb_true_iff in Hr. split; [|done].
  unfold on_ring in Hr.
  apply orb_false_elim in Hr as [Hr Hd]. apply orb_false_elim in Hr as [Hr Hm].
  apply orb_false_elim in Hr as [Ha Hb].
  assert (p ≠ 7) by (intros ->; discriminate Hm).
  assert (p ≠ 41) by (intros ->; discriminate Hd). lia.
Qed.

Lemma geom_all :
  forallb (λ p, if playable p then forallb (geom_ok p) MOVES else true)
          positions = true.
Proof. vm_compute. reflexivity. Qed.

(** One step from an inner cell stays inside the array, and either lands
    on the ring or gets closer to it. *)
Lemma ray_step p m :
  playable p = true → m ∈ MOVES →
  0 ≤ p + m < 49 ∧
  (on_ring (p + m) = true ∨
   (playable (p + m) = true ∧
    (ring_dist 7 m (p + m) < ring_dist 7 m p)%nat)).
Proof.
  intros Hp Hm.
  pose proof geom_all as H. rewrite forallb_forall in H.
  assert (Hin : In p positions).
  { apply list_elem_of_In, elem_of_positions.
    apply playable_range in Hp. lia. }
  specialize (H p Hin). rewrite Hp in H.
  rewrite forallb_forall in H.
  apply list_elem_of_In in Hm. specialize (H m Hm). unfold geom_ok in H.
  apply andb_prop in H as [H1 H2]. apply andb_prop in H1 as [H0 H1].
  split; [lia|].
  apply orb_prop in H2 as [H2|H2]; [by left|right].
  apply andb_prop in H2 as [H2 H3]. split; [done|].
  apply Nat.ltb_lt in H3. done.
Qed.

Lemma ring_dist_le n m p : (ring_dist n m p ≤ n)%nat.
Proof.
  revert p. induction n as [|n IH]; intros p; simpl; [lia|].
  destruct (on_ring (p + m)); [lia|]. specialize (IH (p + m)). lia.
Qed.

(** ** Well-formed boards *)

Lemma wf_length b : wf_board b = true → length (board b) = 49%nat.
Proof.
  unfold wf_board. intros [H _]%andb_prop. by apply Nat.eqb_eq in H.
Qed.

Lemma wf_ring b i :
  wf_board b = true → 0 ≤ i < 49 → on_ring i = true →
  rd (board b) i = Some BORDER.
Proof.
  unfold wf_board. intros [_ H]%andb_prop Hi Hr.
  rewrite forallb_forall in H.
  specialize (H i). unfold sentinel_ok in H. rewrite Hr in H.
  destruct (rd (board b) i) as [c|].
  - f_equal. apply Z.eqb_eq, H, list_elem_of_In, elem_of_positions, Hi.
  - discriminate H. apply list_elem_of_In, elem_of_positions, Hi.
Qed.

Lemma wf_intro a x y :
  length a = 49%nat →
  (∀ i, 0 ≤ i < 49 → on_ring i = true → rd a i = Some BORDER) →
  wf_board (mkBoard a x y) = true.
Proof.
  intros Hl H. unfold wf_board. cbn [board]. rewrite Hl.
  apply andb_true_intro. split; [done|].
  apply forallb_forall. intros i Hi%list_elem_of_In%elem_of_positions.
  unfold sentinel_ok. destruct (on_ring i) eqn:E; [|done].
  rewrite (H i Hi E). done.
Qed.

Lemma wf_rd b i :
  wf_board b = true → 0 ≤ i < 49 → ∃ c, rd (board b) i = Some c.
Proof.
  intros Hwf Hi. apply rd_in_range. rewrite (wf_length b Hwf). lia.
Qed.

(** An Empty cell of a well-formed board is an inner cell. *)
Lemma wf_empty_playable b i :
  wf_board b = true → rd (board b) i = Some EMPTY → playable i = true.
Proof.
  intros Hwf Hrd. pose proof (rd_Some_range _ _ _ Hrd) as Hi.
  rewrite (wf_length b Hwf) in Hi. unfold playable.
  destruct (on_ring i) eqn:E.
  - rewrite (wf_ring b i Hwf) in Hrd by (done || lia). discriminate.
  - rewrite andb_true_r. apply andb_true_intro.
    split; [apply Z.leb_le|apply Z.ltb_lt]; lia.
Qed.

(** Writing to an inner cell keeps the board well formed. *)
Lemma wf_wr b i v a :
  wf_board b = true → playable i = true → wr (board b) i v = Some a →
  wf_board (mkBoard a (p1 b) (p2 b)) = true.
Proof.
  intros Hwf Hp Hwr. apply wf_intro.
  - rewrite (wr_length _ _ _ _ Hwr). by apply wf_length.
  - intros j Hj Hr. rewrite (rd_wr_ne _ _ _ _ j Hwr).
    + by apply wf_ring.
    + intros ->. apply playable_range in Hp as [_ Hp]. congruence.
Qed.

Lemma playable_wr b i v :
  wf_board b = true → playable i = true →
  ∃ a, wr (board b) i v = Some a.
Proof.
  intros Hwf [Hp _]%playable_range. eexists. apply wr_in_range.
  rewrite (wf_length b Hwf). lia.
Qed.

(** ** The flood fill terminates, and its totals are bounded *)

Lemma ring_dist_pos m p :
  playable p = true → m ∈ MOVES → (1 ≤ ring_dist 7 m p)%nat.
Proof.
  intros Hp Hm. destruct (ray_step p m Hp Hm) as [_ [H|[_ H]]]; [|lia].
  change (ring_dist 7 m p) with
    (if on_ring (p + m) then 1%nat else S (ring_dist 6 m (p + m))).
  rewrite H. lia.
Qed.

Lemma queue_ok_push c q steps p step steps' :
  queue_ok c q steps → playable p = true → 0 ≤ step ≤ c →
  wr steps p step = Some steps' →
  queue_ok c (q ++ [p]) steps'.
Proof.
  intros [Hl Hq] Hp Hstep Hwr. split.
  - rewrite (wr_length _ _ _ _ Hwr). done.
  - intros j x Hj.
    destruct (decide (x = p)) as [->|Hne].
    + split; [done|]. exists step. split; [by eapply rd_wr_eq | lia].
    + assert (Hj' : q !! j = Some x).
      { apply lookup_app_Some in Hj as [Hj|[_ Hj]]; [done|].
        apply list_lookup_singleton_Some in Hj as [_ ?]. congruence. }
      destruct (Hq j x Hj') as (Hx & s & Hs & Hb).
      split; [done|]. exists s. split; [|done].
      rewrite (rd_wr_ne _ _ _ _ x Hwr); [done | congruence].
Qed.

Lemma unseen_wr a steps p step steps' :
  rd a p = Some EMPTY → rd steps p = Some (-1) → step ≠ -1 →
  wr steps p step = Some steps' → length steps = CELLS →
  unseen a steps = S (unseen a steps').
Proof.
  intros Hc Hs Hstep Hwr Hl. unfold unseen.
  apply (count_if_flip _ _ _ p).
  - apply positions_NoDup.
  - apply elem_of_positions. apply rd_Some_range in Hs.
    rewrite Hl in Hs. unfold CELLS in Hs. lia.
  - unfold is_unseen, is_empty_cell. rewrite Hc, Hs. done.
  - unfold is_unseen. rewrite (rd_wr_eq _ _ _ _ Hwr).
    apply andb_false_intro2. apply Z.eqb_neq. done.
  - intros x Hx. unfold is_unseen.
    rewrite (rd_wr_ne _ _ _ _ x Hwr) by congruence. done.
Qed.

Lemma steps_final_refl steps : steps_final steps steps.
Proof. by intros x s. Qed.

Lemma steps_final_trans s1 s2 s3 :
  steps_final s1 s2 → steps_final s2 s3 → steps_final s1 s3.
Proof. intros H1 H2 x s Hx Hne. apply H2; [|done]. by apply H1. Qed.

Section FloodInvariant.
Variable b : Board.
Hypothesis Hwf : wf_board b = true.

Lemma flood_ray_ok (c step move : Z) :
  move ∈ MOVES → 0 ≤ step ≤ c →
  ∀ (n : nat) (p : Z) (q steps : list Z),
    playable p = true → (ring_dist 7 move p ≤ n)%nat → queue_ok c q steps →
    ∃ q' steps',
      flood_ray n b move step p q steps = Some (q', steps') ∧
      queue_ok c q' steps' ∧
      (length q' + unseen (board b) steps' =
       length q + unseen (board b) steps)%nat ∧
      (length q ≤ length q')%nat ∧ steps_final steps steps'.
Proof.
  intros Hm Hstep n. induction n as [|n IH]; intros p q steps Hp Hd Hq.
  - pose proof (ring_dist_pos move p Hp Hm). lia.
  - simpl.
    destruct (ray_step p move Hp Hm) as [Hr Hnext].
    destruct (wf_rd b (p + move) Hwf Hr) as [cell Hcell].
    rewrite Hcell. simpl.
    destruct (cell =? EMPTY) eqn:Ecell; simpl.
    2: { exists q, steps. repeat (split; [done|]). apply steps_final_refl. }
    apply Z.eqb_eq in Ecell. subst cell.
    pose proof (wf_empty_playable b _ Hwf Hcell) as Hp'.
    destruct Hnext as [Hring|[_ Hlt]].
    { apply playable_range in Hp' as [_ ?]. congruence. }
    destruct Hq as [Hl Hq].
    destruct (rd_in_range steps (p + move)) as [s Hs].
    { rewrite Hl. unfold CELLS. lia. }
    rewrite Hs. simpl.
    destruct (s =? -1) eqn:Es; simpl.
    2: { exists q, steps. repeat (split; [done|]). apply steps_final_refl. }
    apply Z.eqb_eq in Es. subst s.
    rewrite (wr_in_range steps (p + move) step)
      by (rewrite Hl; unfold CELLS; lia).
    simpl.
    assert (Hwr : wr steps (p + move) step =
                  Some (<[Z.to_nat (p + move):=step]> steps))
      by (apply wr_in_range; rewrite Hl; unfold CELLS; lia).
    destruct (IH (p + move) (q ++ [p + move])
                (<[Z.to_nat (p + move):=step]> steps))
      as (q' & steps' & Hrun & Hq' & Hcnt & Hlen & Hfin).
    + done.
    + lia.
    + by eapply queue_ok_push.
    + exists q', steps'. split; [done|]. split; [done|].
      rewrite (unseen_wr (board b) steps (p + move) step _ Hcell Hs)
        by (done || lia).
      rewrite length_app in Hcnt, Hlen. simpl in Hcnt, Hlen.
      split; [lia|]. split; [lia|].
      intros x s Hx Hne. apply Hfin; [|done].
      rewrite (rd_wr_ne _ _ _ _ x Hwr); [done|].
      intros Heq. rewrite Heq in Hs. congruence.
Qed.

Lemma flood_dirs_ok (c step pos : Z) :
  0 ≤ step ≤ c → playable pos = true →
  ∀ (moves : list Z) (q steps : list Z),
    moves ⊆ MOVES → queue_ok c q steps →
    ∃ q' steps',
      flood_dirs b step pos moves q steps = Some (q', steps') ∧
      queue_ok c q' steps' ∧
      (length q' + unseen (board b) steps' =
       length q + unseen (board b) steps)%nat ∧
      (length q ≤ length q')%nat ∧ steps_final steps steps'.
Proof.
  intros Hstep Hp moves.
  induction moves as [|m moves IH]; intros q steps Hsub Hq; simpl.
  - exists q, steps. repeat (split; [done|]). apply steps_final_refl.
  - destruct (flood_ray_ok c step m) with (n := RAY_FUEL) (p := pos)
      (q := q) (steps := steps)
      as (q1 & steps1 & Hrun & Hq1 & Hc1 & Hl1 & Hf1); try done.
    { apply Hsub. by left. }
    { pose proof (ring_dist_le 7 m pos). rewrite RAY_FUEL_eq. lia. }
    rewrite Hrun. simpl.
    destruct (IH q1 steps1)
      as (q2 & steps2 & Hrun2 & Hq2 & Hc2 & Hl2 & Hf2).
    { intros x Hx. apply Hsub. by right. }
    { done. }
    exists q2, steps2. split; [done|]. split; [done|].
    split; [lia|]. split; [lia|]. by eapply steps_final_trans.
Qed.

Lemma flood_loop_ok :
  ∀ (n : nat) (f : Flood),
    queue_ok (total_cells f) (fq f) (fsteps f) →
    0 ≤ total_cells f → 0 ≤ total_steps f →
    2 * total_steps f ≤ total_cells f * (total_cells f - 1) →
    (length (fq f) + unseen (board b) (fsteps f) < n)%nat →
    ∃ f', flood_loop n b f = Some f' ∧ fq f' = [] ∧
      total_cells f + Z.of_nat (length (fq f)) ≤ total_cells f' ∧
      total_cells f' + Z.of_nat (unseen (board b) (fsteps f')) =
        total_cells f + Z.of_nat (length (fq f))
        + Z.of_nat (unseen (board b) (fsteps f)) ∧
      0 ≤ total_steps f' ∧
      2 * total_steps f' ≤ total_cells f' * (total_cells f' - 1) ∧
      steps_final (fsteps f) (fsteps f').
Proof.
  induction n as [|n IH]; intros [q steps tc ts]; simpl;
    intros Hq Htc Hts Hsum Hfuel; [lia|].
  destruct q as [|pos q]; simpl.
  { eexists. split; [done|]. simpl. split; [done|].
    repeat (split; [lia|]). apply steps_final_refl. }
  destruct Hq as [Hl Hq].
  destruct (Hq 0%nat pos eq_refl) as (Hp & s & Hs & Hsb).
  rewrite Hs. simpl.
  destruct (flood_dirs_ok (tc + 1) (s + 1) pos) with (moves := MOVES)
    (q := q) (steps := steps)
    as (q' & steps' & Hrun & Hq' & Hcnt & Hlen & Hfin); try done.
  { lia. }
  { split; [done|]. intros j x Hj.
    destruct (Hq (S j) x Hj) as (Hx & sx & Hsx & Hbx).
    split; [done|]. exists sx. split; [done|]. lia. }
  rewrite Hrun. simpl.
  destruct (IH (mkFlood q' steps' (tc + 1) (ts + s)))
    as (f' & Hf' & Hq0 & Hge & Heq & Hts' & Hsum' & Hfin'); simpl.
  { done. }
  { lia. }
  { lia. }
  { nia. }
  { simpl in Hfuel. lia. }
  exists f'. split; [done|]. split; [done|].
  simpl in Hge, Heq, Hfin'. repeat (split; [lia|]).
  by eapply steps_final_trans.
Qed.

End FloodInvariant.

Lemma unseen_le_25 b steps :
  wf_board b = true → (unseen (board b) steps ≤ 25)%nat.
Proof.
  intros Hwf. unfold unseen.
  change 25%nat with (count_if playable positions).
  apply count_if_le. intros x _ Hx.
  unfold is_unseen, is_empty_cell in Hx. apply andb_prop in Hx as [Hx _].
  destruct (rd (board b) x) as [c|] eqn:E; [|done].
  apply Z.eqb_eq in Hx. subst c. by eapply wf_empty_playable.
Qed.

(** On a well-formed board with the token on an inner cell the flood fill
    returns, having counted between 1 and 26 cells. *)
Lemma flood_total b player :
  wf_board b = true → playable (token_pos b player) = true →
  ∃ f, flood b player = Some f ∧ fq f = [] ∧
    1 ≤ total_cells f ≤ 26 ∧ 0 ≤ total_steps f ∧
    2 * total_steps f ≤ total_cells f * (total_cells f - 1) ∧
    rd (fsteps f) (token_pos b player) = Some 0.
Proof.
  intros Hwf Hp. unfold flood. fold (token_pos b player).
  pose proof (playable_range _ Hp) as [Hr _].
  set (pos := token_pos b player) in *.
  assert (Hwr : wr (replicate CELLS (-1)) pos 0 =
                Some (<[Z.to_nat pos:=0]> (replicate CELLS (-1)))).
  { apply wr_in_range. rewrite length_replicate. unfold CELLS. lia. }
  rewrite Hwr. simpl.
  set (steps := <[Z.to_nat pos:=0]> (replicate CELLS (-1))).
  pose proof (unseen_le_25 b steps Hwf) as Hu.
  destruct (flood_loop_ok b Hwf FLOOD_FUEL (mkFlood [pos] steps 0 0))
    as (f & Hf & Hq & Hge & Heq & Hts & Hsum & Hfin); simpl; try lia.
  - split.
    + unfold steps. rewrite length_insert, length_replicate. done.
    + intros j x Hj. apply list_lookup_singleton_Some in Hj as [-> <-].
      split; [done|]. exists 0. split; [|lia].
      by eapply rd_wr_eq.
  - rewrite FLOOD_FUEL_eq. lia.
  - exists f. simpl in Hge, Heq, Hfin. split; [done|]. split; [done|].
    repeat (split; [lia|]).
    apply Hfin; [|done]. by eapply rd_wr_eq.
Qed.

Lemma dijkstra_bounds b player :
  wf_board b = true → playable (token_pos b player) = true →
  ∃ v, dijkstra b player = Some v ∧ 16 ≤ v ≤ 416.
Proof.
  intros Hwf Hp.
  destruct (flood_total b player Hwf Hp)
    as (f & Hf & _ & Hc & Hts & Hsum & _).
  unfold dijkstra. rewrite Hf. simpl. eexists. split; [done|].
  unfold SCORE_PER_CELL. nia.
Qed.

(** ** Board::hasLost *)

Lemma is_zero_rd a i c : rd a i = Some c → is_zero a i = Some (c =? 0).
Proof. intros H. unfold is_zero. rewrite H. done. Qed.

(** With all eight neighbours inside the array, [hasLost] is the negated
    disjunction of the eight emptiness tests. *)
Lemma hasLost_eval b i c1 c2 c3 c4 c5 c6 c7 c8 :
  i ≠ 0 →
  rd (board b) (i + 1) = Some c1 → rd (board b) (i - 1) = Some c2 →
  rd (board b) (i + 7) = Some c3 → rd (board b) (i - 7) = Some c4 →
  rd (board b) (i + 6) = Some c5 → rd (board b) (i - 6) = Some c6 →
  rd (board b) (i + 8) = Some c7 → rd (board b) (i - 8) = Some c8 →
  hasLost b i =
    Some (negb ((c1 =? 0) || ((c2 =? 0) || ((c3 =? 0) || ((c4 =? 0) ||
               ((c5 =? 0) || ((c6 =? 0) || ((c7 =? 0) || (c8 =? 0))))))))).
Proof.
  intros Hi H1 H2 H3 H4 H5 H6 H7 H8. unfold hasLost.
  apply Z.eqb_neq in Hi. rewrite Hi.
  rewrite (is_zero_rd _ _ _ H1), (is_zero_rd _ _ _ H2),
    (is_zero_rd _ _ _ H3), (is_zero_rd _ _ _ H4), (is_zero_rd _ _ _ H5),
    (is_zero_rd _ _ _ H6), (is_zero_rd _ _ _ H7), (is_zero_rd _ _ _ H8).
  destruct (c1 =? 0), (c2 =? 0), (c3 =? 0), (c4 =? 0),
    (c5 =? 0), (c6 =? 0), (c7 =? 0), (c8 =? 0); reflexivity.
Qed.

Lemma neighbours_readable b pos :
  length (board b) = CELLS → playable pos = true →
  ∀ d, d ∈ MOVES → ∃ c, rd (board b) (pos + d) = Some c.
Proof.
  intros Hl Hp d Hd. destruct (ray_step pos d Hp Hd) as [Hr _].
  apply rd_in_range. rewrite Hl. unfold CELLS. lia.
Qed.

Ltac in_moves := rewrite MOVES_eq; repeat (first [by left | right]).

Ltac neighbour H d c Hc :=
  let Hin := fresh in
  assert (Hin : d ∈ MOVES) by in_moves;
  destruct (H d Hin) as [c Hc]; clear Hin.

Lemma hasLost_playable b pos :
  length (board b) = CELLS → playable pos = true →
  ∃ r, hasLost b pos = Some r ∧
    (r = true ↔
     ∀ d, d ∈ MOVES → ∃ c, rd (board b) (pos + d) = Some c ∧ c ≠ EMPTY).
Proof.
  intros Hl Hp. pose proof (neighbours_readable b pos Hl Hp) as Hn.
  neighbour Hn 1 c1 H1. neighbour Hn (-1) c2 H2.
  neighbour Hn 7 c3 H3. neighbour Hn (-7) c4 H4.
  neighbour Hn 6 c5 H5. neighbour Hn (-6) c6 H6.
  neighbour Hn 8 c7 H7. neighbour Hn (-8) c8 H8.
  apply playable_range in Hp as [Hr _].
  eexists. split.
  { apply (hasLost_eval b pos c1 c2 c3 c4 c5 c6 c7 c8); try done; lia. }
  rewrite negb_true_iff. repeat rewrite orb_false_iff.
  repeat rewrite Z.eqb_neq. unfold EMPTY. split.
  - intros (?&?&?&?&?&?&?&?) d Hd. rewrite MOVES_eq in Hd.
    repeat (apply elem_of_cons in Hd as [->|Hd]; [eauto|]).
    by apply elem_of_nil in Hd.
  - intros H.
    assert (Hc : ∀ d c, d ∈ MOVES → rd (board b) (pos + d) = Some c → c ≠ 0).
    { intros d c Hd Hc. destruct (H d Hd) as (c' & Hc' & Hne). congruence. }
    repeat split;
      [ apply (Hc 1) | apply (Hc (-1)) | apply (Hc 7) | apply (Hc (-7))
      | apply (Hc 6) | apply (Hc (-6)) | apply (Hc 8) | apply (Hc (-8)) ];
      solve [ in_moves | done ].
Qed.

(** C6. On a 49-cell board and for every playable position [pos],
    [hasLost pos] returns true exactly when the eight neighbours of [pos]
    (linear offsets +1, -1, +7, -7, +6, -6, +8, -8) are all non-Empty; and
    [hasLost 0] is false. *)
Theorem hasLost_spec b pos :
  length (board b) = CELLS → playable pos = true →
  (∃ r, hasLost b pos = Some r ∧
     (r = true ↔
      ∀ d, d ∈ [1; -1; 7; -7; 6; -6; 8; -8] →
           ∃ c, rd (board b) (pos + d) = Some c ∧ c ≠ EMPTY)) ∧
  hasLost b 0 = Some false.
Proof.
  intros Hl Hp. split; [|done].
  rewrite <- MOVES_eq. by apply hasLost_playable.
Qed.

Lemma hasLost_spec_witness :
  (∃ r, hasLost board_isolated 8 = Some r ∧
     (r = true ↔
      ∀ d, d ∈ [1; -1; 7; -7; 6; -6; 8; -8] →
           ∃ c, rd (board board_isolated) (8 + d) = Some c ∧ c ≠ EMPTY)) ∧
  hasLost board_isolated 0 = Some false.
Proof. apply (hasLost_spec board_isolated 8); reflexivity. Defined.

(** ** Mirror::getMove *)

(** C8. When the opponent's token is on the inner cell [(x, y)],
    [Mirror::getMove] returns the linear index of the cell [(4 - x, 4 - y)],
    whatever [max_depth] is and whatever the cells of the board hold. *)
Theorem Mirror_getMove_reflects b player max_depth x y :
  player = P1 ∨ player = P2 →
  0 ≤ x ≤ 4 → 0 ≤ y ≤ 4 →
  token_pos b (OPPONENT player) = XY_TO_POS x y →
  Mirror_getMove b player max_depth = XY_TO_POS (4 - x) (4 - y) ∧
  (∀ d cells, Mirror_getMove (mkBoard cells (p1 b) (p2 b)) player d =
              Mirror_getMove b player max_depth).
Proof.
  intros Hpl Hx Hy Hpos. split; [|done].
  unfold Mirror_getMove.
  assert (Hpp : (if player =? P1 then p2 b else p1 b) = XY_TO_POS x y).
  { rewrite <- Hpos. unfold token_pos, OPPONENT.
    destruct Hpl as [-> | ->]; reflexivity. }
  rewrite Hpp. unfold POS_TO_X, POS_TO_Y, XY_TO_POS.
  replace (x * 7 + y + 8 - 8) with (y + x * 7) by lia.
  rewrite Z.quot_div_nonneg, Z.rem_mod_nonneg by lia.
  rewrite Z.div_add, Z.mod_add by lia.
  rewrite Z.div_small, Z.mod_small by lia. done.
Qed.

Lemma Mirror_getMove_reflects_witness :
  Mirror_getMove board_opening P1 25 = XY_TO_POS (4 - 0) (4 - 1) ∧
  (∀ d cells,
     Mirror_getMove (mkBoard cells (p1 board_opening) (p2 board_opening)) P1 d
     = Mirror_getMove board_opening P1 25).
Proof.
  apply (Mirror_getMove_reflects board_opening P1 25 0 1);
    [by left | lia | lia | reflexivity].
Defined.

(** ** DijkstraScorer *)

Lemma getScore_total b player :
  wf_board b = true → playable (token_pos b player) = true →
  playable (token_pos b (OPPONENT player)) = true →
  ∃ x y, dijkstra b player = Some x ∧ dijkstra b (OPPONENT player) = Some y ∧
    getScore b player = Some (x - y) ∧ 16 ≤ x ≤ 416 ∧ 16 ≤ y ≤ 416.
Proof.
  intros Hwf Hp Ho.
  destruct (dijkstra_bounds b player Hwf Hp) as (x & Hx & Hbx).
  destruct (dijkstra_bounds b _ Hwf Ho) as (y & Hy & Hby).
  exists x, y. unfold getScore. rewrite Hx, Hy. done.
Qed.

Lemma both_placed_inv b :
  both_placed b = true →
  wf_board b = true ∧
  playable (p1 b) = true ∧ rd (board b) (p1 b) = Some P1 ∧
  playable (p2 b) = true ∧ rd (board b) (p2 b) = Some P2.
Proof.
  unfold both_placed, placed, token_pos. simpl.
  intros [[Hwf [H1 H1']%andb_prop]%andb_prop [H2 H2']%andb_prop]%andb_prop.
  destruct (rd (board b) (p1 b)) as [c1|]; [|done].
  destruct (rd (board b) (p2 b)) as [c2|]; [|done].
  apply Z.eqb_eq in H1', H2'. subst. done.
Qed.

(** C5. On every board with both players placed, the score of P1 is the
    negation of the score of P2 (and both are computed). *)
Theorem getScore_zero_sum b :
  both_placed b = true →
  ∃ v, getScore b P1 = Some v ∧ getScore b P2 = Some (- v).
Proof.
  intros (Hwf & Hp1 & _ & Hp2 & _)%both_placed_inv.
  destruct (getScore_total b P1 Hwf Hp1 Hp2) as (x & y & Hx & Hy & Hs & _).
  exists (x - y). split; [done|].
  unfold getScore. change (OPPONENT P2) with P1.
  change (OPPONENT P1) with P2 in Hy. rewrite Hy, Hx. simpl.
  f_equal. lia.
Qed.

Lemma getScore_zero_sum_witness :
  ∃ v, getScore board_opening P1 = Some v ∧
       getScore board_opening P2 = Some (- v).
Proof. apply (getScore_zero_sum board_opening). reflexivity. Defined.

Lemma flood_ray_blocked n b move step p q steps c :
  rd (board b) (p + move) = Some c → c ≠ EMPTY →
  flood_ray (S n) b move step p q steps = Some (q, steps).
Proof.
  intros Hc Hne. simpl. rewrite Hc. simpl.
  apply Z.eqb_neq in Hne. rewrite Hne. done.
Qed.

Lemma flood_dirs_blocked b step pos moves q steps :
  (∀ d, d ∈ moves → ∃ c, rd (board b) (pos + d) = Some c ∧ c ≠ EMPTY) →
  flood_dirs b step pos moves q steps = Some (q, steps).
Proof.
  induction moves as [|m moves IH]; intros H; simpl; [done|].
  destruct (H m) as (c & Hc & Hne); [by left|].
  rewrite RAY_FUEL_eq, (flood_ray_blocked _ _ _ _ _ _ _ c Hc Hne). simpl.
  apply IH. intros d Hd. apply H. by right.
Qed.

Lemma flood_loop_pop n b pos q steps tc ts :
  flood_loop (S n) b (mkFlood (pos :: q) steps tc ts) =
  s ← rd steps pos;
  '(q, steps) ← flood_dirs b (s + 1) pos MOVES q steps;
  flood_loop n b (mkFlood q steps (tc + 1) (ts + s)).
Proof. reflexivity. Qed.

Lemma flood_loop_done n b steps tc ts :
  flood_loop n b (mkFlood [] steps tc ts) = Some (mkFlood [] steps tc ts).
Proof. by destruct n. Qed.

(** A walled-in token: the flood fill pops the start cell and stops. *)
Lemma dijkstra_isolated b player :
  wf_board b = true → playable (token_pos b player) = true →
  hasLost b (token_pos b player) = Some true →
  dijkstra b player = Some SCORE_PER_CELL.
Proof.
  intros Hwf Hp Hlost.
  destruct (hasLost_playable b (token_pos b player)) as (r & Hr & Hiff);
    [by apply wf_length | done |].
  rewrite Hlost in Hr. injection Hr as <-.
  destruct Hiff as [Hall _]. specialize (Hall eq_refl).
  unfold dijkstra, flood. fold (token_pos b player).
  pose proof (playable_range _ Hp) as [Hrange _].
  set (pos := token_pos b player) in *.
  assert (Hwr : wr (replicate CELLS (-1)) pos 0 =
                Some (<[Z.to_nat pos:=0]> (replicate CELLS (-1)))).
  { apply wr_in_range. rewrite length_replicate. unfold CELLS. lia. }
  rewrite Hwr, FLOOD_FUEL_eq. cbn [mbind option_bind].
  rewrite flood_loop_pop, (rd_wr_eq _ _ _ _ Hwr). cbn [mbind option_bind].
  rewrite flood_dirs_blocked by done. cbn [mbind option_bind].
  rewrite flood_loop_done. done.
Qed.

Lemma placed_inv b player :
  placed b player = true →
  playable (token_pos b player) = true ∧
  rd (board b) (token_pos b player) = Some player.
Proof.
  unfold placed. intros [Hp Hc]%andb_prop. split; [done|].
  destruct (rd (board b) (token_pos b player)) as [c|]; [|done].
  apply Z.eqb_eq in Hc. by subst.
Qed.

(** C10. On a well-formed board with [player] placed, the flood fill
    gives the player's own cell distance 0 and counts it, so [dijkstra]
    returns at least [SCORE_PER_CELL]; it returns exactly
    [SCORE_PER_CELL] = 16 when the token has no Empty neighbour, and the
    score between two such walled-in players is 0. *)
Theorem dijkstra_counts_start b player :
  wf_board b = true → placed b player = true →
  (∃ f, flood b player = Some f ∧
        rd (fsteps f) (token_pos b player) = Some 0 ∧ 1 ≤ total_cells f) ∧
  (∃ v, dijkstra b player = Some v ∧ SCORE_PER_CELL ≤ v) ∧
  (hasLost b (token_pos b player) = Some true →
   dijkstra b player = Some 16 ∧
   (placed b (OPPONENT player) = true →
    hasLost b (token_pos b (OPPONENT player)) = Some true →
    getScore b player = Some 0)).
Proof.
  intros Hwf [Hp _]%placed_inv. split; [|split].
  - destruct (flood_total b player Hwf Hp) as (f & Hf & _ & Hc & _ & _ & H0).
    exists f. split; [done|]. split; [done|lia].
  - destruct (dijkstra_bounds b player Hwf Hp) as (v & Hv & Hb).
    exists v. split; [done|]. unfold SCORE_PER_CELL. lia.
  - intros Hlost. pose proof (dijkstra_isolated b player Hwf Hp Hlost) as Hd.
    split; [done|]. intros [Hp' _]%placed_inv Hlost'.
    unfold getScore.
    rewrite Hd, (dijkstra_isolated b _ Hwf Hp' Hlost'). done.
Qed.

Lemma dijkstra_counts_start_witness :
  (∃ f, flood board_isolated P1 = Some f ∧
        rd (fsteps f) (token_pos board_isolated P1) = Some 0 ∧
        1 ≤ total_cells f) ∧
  (∃ v, dijkstra board_isolated P1 = Some v ∧ SCORE_PER_CELL ≤ v) ∧
  (hasLost board_isolated (token_pos board_isolated P1) = Some true →
   dijkstra board_isolated P1 = Some 16 ∧
   (placed board_isolated (OPPONENT P1) = true →
    hasLost board_isolated (token_pos board_isolated (OPPONENT P1))
      = Some true →
    getScore board_isolated P1 = Some 0)).
Proof. apply (dijkstra_counts_start board_isolated P1); reflexivity. Defined.

(** ** Board::Board and Board::play *)

(** The constructor overwrites all 49 cells: its result does not depend
    on what the array held before. *)
Lemma Board_ctor_any mem :
  length mem = CELLS → Board_ctor mem = Some fresh_board.
Proof.
  intros Hl. unfold CELLS in Hl.
  do 49 (destruct mem as [|? mem]; [discriminate Hl|]).
  destruct mem; [reflexivity | discriminate Hl].
Qed.

Lemma fresh_board_wf : wf_board fresh_board = true.
Proof. reflexivity. Qed.

Lemma isLegal_true b x y :
  isLegal b x y = Some true → rd (board b) (x * 7 + y + 8) = Some EMPTY.
Proof.
  unfold isLegal. destruct (rd (board b) (x * 7 + y + 8)) as [c|]; [|done].
  simpl. intros [= H%Z.eqb_eq]. by subst.
Qed.

Lemma token_pos_play_same a u v pos player :
  player = P1 ∨ player = P2 →
  token_pos (if player =? P1 then mkBoard a pos v else mkBoard a u pos) player
  = pos.
Proof. by intros [-> | ->]. Qed.

Lemma token_pos_play_other a u v pos player other :
  player = P1 ∨ player = P2 → other = P1 ∨ other = P2 → other ≠ player →
  token_pos (if player =? P1 then mkBoard a pos v else mkBoard a u pos) other
  = token_pos (mkBoard a u v) other.
Proof. by intros [-> | ->] [-> | ->]. Qed.

Lemma board_play_cells a a' u v pos player :
  board (if player =? P1 then mkBoard a pos v else mkBoard a u pos) = a' →
  a = a'.
Proof. by destruct (player =? P1). Qed.

(** One legal call: the mark count of the mover grows by one, the other
    count is unchanged. *)
Lemma marks_play a pos player a' who :
  length a = CELLS → rd a pos = Some EMPTY → player ≠ EMPTY → who ≠ EMPTY →
  wr a pos player = Some a' →
  marks a' who = (marks a who + (if decide (who = player) then 1 else 0))%nat.
Proof.
  intros Hl Hrd Hne Hwho Hwr. unfold marks.
  assert (Hpos : pos ∈ positions).
  { apply elem_of_positions. apply rd_Some_range in Hrd.
    rewrite Hl in Hrd. unfold CELLS in Hrd. lia. }
  destruct (decide (who = player)) as [->|Hw].
  - rewrite (count_if_flip (has_mark a' player) (has_mark a player)
               positions pos); [lia | apply positions_NoDup | done | | |].
    + unfold has_mark. rewrite (rd_wr_eq _ _ _ _ Hwr). apply Z.eqb_refl.
    + unfold has_mark. rewrite Hrd. apply Z.eqb_neq. unfold EMPTY in *. lia.
    + intros x Hx. unfold has_mark.
      rewrite (rd_wr_ne _ _ _ _ x Hwr) by congruence. done.
  - rewrite Nat.add_0_r. apply count_if_ext. intros x _. unfold has_mark.
    destruct (decide (x = pos)) as [->|Hx].
    + rewrite Hrd, (rd_wr_eq _ _ _ _ Hwr).
      transitivity false; [apply Z.eqb_neq | symmetry; apply Z.eqb_neq];
        unfold EMPTY in *; lia.
    + rewrite (rd_wr_ne _ _ _ _ x Hwr) by congruence. done.
Qed.

Lemma plays_of_cons who x y player rest :
  plays_of who ((x, y, player) :: rest) =
  ((if decide (who = player) then 1 else 0) + plays_of who rest)%nat.
Proof.
  unfold plays_of. rewrite filter_cons. simpl.
  destruct (decide (player = who)) as [->|Hne].
  - rewrite decide_True by done. done.
  - rewrite decide_False by congruence. done.
Qed.

Lemma run_plays_trail calls :
  ∀ b, wf_board b = true → legal_plays b calls = true →
  ∃ b', run_plays b calls = Some b' ∧ wf_board b' = true ∧
    ∀ who, who = P1 ∨ who = P2 →
      marks (board b') who = (marks (board b) who + plays_of who calls)%nat ∧
      (plays_of who calls = 0%nat → token_pos b' who = token_pos b who) ∧
      (plays_of who calls ≠ 0%nat ∨
       rd (board b) (token_pos b who) = Some who →
       rd (board b') (token_pos b' who) = Some who).
Proof.
  induction calls as [|[[x y] player] rest IH]; intros b Hwf Hlegal.
  - exists b. split; [done|]. split; [done|]. intros who _.
    unfold plays_of. simpl. split; [lia|]. split; [done|].
    intros [?|?]; done.
  - simpl in Hlegal. apply andb_prop in Hlegal as [Hpl Hlegal].
    assert (Hplayer : player = P1 ∨ player = P2).
    { apply orb_prop in Hpl as [?%Z.eqb_eq|?%Z.eqb_eq]; auto. }
    destruct (isLegal b x y) as [[|]|] eqn:Hleg; try done.
    destruct (play b x y player) as [b1|] eqn:Hplay; [|done].
    apply isLegal_true in Hleg.
    pose proof (wf_empty_playable b _ Hwf Hleg) as Hplayable.
    unfold play in Hplay.
    destruct (wr (board b) (x * 7 + y + 8) player) as [a|] eqn:Hwr; [|done].
    simpl in Hplay.
    set (pos := x * 7 + y + 8) in *.
    assert (Hb1 : b1 = if player =? P1 then mkBoard a pos (p2 b)
                       else mkBoard a (p1 b) pos)
      by (destruct (player =? P1); congruence).
    assert (Hcells : board b1 = a) by (rewrite Hb1; by destruct (player =? P1)).
    assert (Hwf1 : wf_board b1 = true).
    { pose proof (wf_wr b pos player a Hwf Hplayable Hwr) as H.
      unfold wf_board in *. rewrite Hcells. exact H. }
    destruct (IH b1 Hwf1 Hlegal) as (b' & Hrun & Hwf' & Hall).
    exists b'. split.
    { simpl. unfold play. fold pos. rewrite Hwr. simpl.
      destruct (player =? P1); simpl; rewrite <- Hb1; done. }
    split; [done|]. intros who Hwho.
    destruct (Hall who Hwho) as (Hm & Ht & Hr).
    rewrite plays_of_cons.
    assert (Hne : player ≠ EMPTY)
      by (destruct Hplayer as [-> | ->]; done).
    assert (Hne' : who ≠ EMPTY)
      by (destruct Hwho as [-> | ->]; done).
    pose proof (marks_play (board b) pos player a who
                  (wf_length b Hwf) Hleg Hne Hne' Hwr) as Hmarks.
    rewrite Hcells in Hm. split; [lia|].
    destruct (decide (who = player)) as [->|Hother].
    + split; [simpl; lia|]. intros _. apply Hr. right.
      rewrite Hcells, Hb1, token_pos_play_same by done.
      by eapply rd_wr_eq.
    + assert (Htok : token_pos b1 who = token_pos b who).
      { rewrite Hb1, token_pos_play_other by done. by destruct b. }
      split.
      * simpl. intros H0. rewrite Ht by done. done.
      * simpl. intros [Hn|Hold]; [by apply Hr; left|].
        apply Hr. right. rewrite Htok, Hcells.
        rewrite (rd_wr_ne _ _ _ _ (token_pos b who) Hwr); [done|].
        intros Heq. rewrite <- Heq, Hleg in Hold.
        destruct Hwho as [-> | ->]; done.
Qed.

Lemma fresh_marks who :
  who = P1 ∨ who = P2 → marks (board fresh_board) who = 0%nat.
Proof. by intros [-> | ->]. Qed.

(** Each call for P1 or P2 that [play] accepts stores its cell as the
    position of the player it is made for and leaves the other player's
    position alone. *)
Lemma run_plays_position calls :
  ∀ b b', legal_plays b calls = true → run_plays b calls = Some b' →
    ∀ who, who = P1 ∨ who = P2 →
      token_pos b' who = last_play who calls (token_pos b who).
Proof.
  induction calls as [|[[x y] player] rest IH]; intros b b' Hlegal Hrun who Hwho.
  - simpl in Hrun. injection Hrun as <-. done.
  - simpl in Hlegal. apply andb_prop in Hlegal as [Hpl Hlegal].
    assert (Hplayer : player = P1 ∨ player = P2).
    { apply orb_prop in Hpl as [?%Z.eqb_eq|?%Z.eqb_eq]; auto. }
    destruct (isLegal b x y) as [[|]|]; try done.
    simpl in Hrun.
    destruct (play b x y player) as [b1|] eqn:Hplay; [|done].
    cbn [mbind option_bind] in Hrun.
    rewrite (IH b1 b' Hlegal Hrun who Hwho). cbn [last_play]. f_equal.
    unfold play in Hplay.
    destruct (wr (board b) (x * 7 + y + 8) player) as [a|]; [|done].
    simpl in Hplay.
    assert (Hb1 : b1 = if player =? P1 then mkBoard a (x * 7 + y + 8) (p2 b)
                       else mkBoard a (p1 b) (x * 7 + y + 8))
      by (destruct (player =? P1); congruence).
    rewrite Hb1.
    destruct (Z.eqb_spec player who) as [->|Hne].
    + by apply token_pos_play_same.
    + rewrite token_pos_play_other by (done || congruence).
      by destruct Hwho as [-> | ->].
Qed.

(** C3, as amended.  After any sequence of [play] calls on a fresh board,
    each made for P1 or P2 on a cell that was Empty at that moment: the
    number of cells carrying a player's mark equals the number of calls
    made for that player (earlier cells keep the mark); the stored
    position of a player is the cell of the latest call made for that
    player, and 0 for a player who has not played; once the player has
    played, the cell at the stored position carries that player's mark. *)
Theorem play_leaves_trail mem b0 calls :
  length mem = CELLS → Board_ctor mem = Some b0 →
  legal_plays b0 calls = true →
  ∃ b, run_plays b0 calls = Some b ∧
    ∀ who, who = P1 ∨ who = P2 →
      marks (board b) who = plays_of who calls ∧
      token_pos b who = last_play who calls 0 ∧
      (plays_of who calls = 0%nat → token_pos b who = 0) ∧
      (plays_of who calls ≠ 0%nat →
       rd (board b) (token_pos b who) = Some who).
Proof.
  intros Hl Hctor Hlegal. rewrite (Board_ctor_any mem Hl) in Hctor.
  injection Hctor as <-.
  destruct (run_plays_trail calls fresh_board fresh_board_wf Hlegal)
    as (b & Hrun & _ & Hall).
  exists b. split; [done|]. intros who Hwho.
  destruct (Hall who Hwho) as (Hm & Ht & Hr).
  rewrite (fresh_marks who Hwho) in Hm. split; [lia|]. split.
  { rewrite (run_plays_position calls fresh_board b Hlegal Hrun who Hwho).
    by destruct Hwho as [-> | ->]. }
  split.
  - intros H0. rewrite (Ht H0). by destruct Hwho as [-> | ->].
  - intros Hn. apply Hr. by left.
Qed.

Lemma play_leaves_trail_witness :
  ∃ b, run_plays fresh_board [(0, 0, P1); (0, 1, P2); (1, 0, P1)] = Some b ∧
    ∀ who, who = P1 ∨ who = P2 →
      marks (board b) who
        = plays_of who [(0, 0, P1); (0, 1, P2); (1, 0, P1)] ∧
      token_pos b who
        = last_play who [(0, 0, P1); (0, 1, P2); (1, 0, P1)] 0 ∧
      (plays_of who [(0, 0, P1); (0, 1, P2); (1, 0, P1)] = 0%nat →
       token_pos b who = 0) ∧
      (plays_of who [(0, 0, P1); (0, 1, P2); (1, 0, P1)] ≠ 0%nat →
       rd (board b) (token_pos b who) = Some who).
Proof.
  apply (play_leaves_trail (replicate CELLS 0) fresh_board
           [(0, 0, P1); (0, 1, P2); (1, 0, P1)]); reflexivity.
Defined.

(** C3 as stated fails: after P1's second move two cells carry P1's mark,
    and the older one (cell 8) is not P1's stored position (cell 15). *)
Lemma one_mark_per_player_counterexample :
  ∃ b, legal_plays fresh_board [(0, 0, P1); (0, 1, P2); (1, 0, P1)] = true ∧
       run_plays fresh_board [(0, 0, P1); (0, 1, P2); (1, 0, P1)] = Some b ∧
       ¬ one_mark_per_player b.
Proof.
  eexists. split; [reflexivity|]. split; [reflexivity|].
  intros H. specialize (H P1 (or_introl eq_refl) 8 eq_refl). discriminate H.
Qed.

(** ** The unpruned search returns, with a value in range *)

Lemma hasLost_false_move b pos :
  length (board b) = CELLS → playable pos = true →
  hasLost b pos = Some false →
  ∃ m, m ∈ MOVES ∧ rd (board b) (pos + m) = Some EMPTY.
Proof.
  intros Hl Hp Hlost. pose proof (neighbours_readable b pos Hl Hp) as Hn.
  neighbour Hn 1 c1 H1. neighbour Hn (-1) c2 H2.
  neighbour Hn 7 c3 H3. neighbour Hn (-7) c4 H4.
  neighbour Hn 6 c5 H5. neighbour Hn (-6) c6 H6.
  neighbour Hn 8 c7 H7. neighbour Hn (-8) c8 H8.
  pose proof (playable_range _ Hp) as [Hr _].
  rewrite (hasLost_eval b pos c1 c2 c3 c4 c5 c6 c7 c8) in Hlost
    by (done || lia).
  injection Hlost as Hlost. apply negb_false_iff in Hlost.
  repeat (apply orb_prop in Hlost as [Hlost|Hlost];
          [apply Z.eqb_eq in Hlost; subst; eexists; split; [|eassumption];
           in_moves|]).
  apply Z.eqb_eq in Hlost. subst. eexists. split; [|eassumption]. in_moves.
Qed.

Lemma empties_wr a pos v a' :
  length a = CELLS → rd a pos = Some EMPTY → v ≠ EMPTY →
  wr a pos v = Some a' → empties a = S (empties a').
Proof.
  intros Hl Hrd Hv Hwr. unfold empties.
  apply (count_if_flip _ _ _ pos).
  - apply positions_NoDup.
  - apply elem_of_positions. apply rd_Some_range in Hrd.
    rewrite Hl in Hrd. unfold CELLS in Hrd. lia.
  - unfold is_empty_cell. rewrite Hrd. done.
  - unfold is_empty_cell. rewrite (rd_wr_eq _ _ _ _ Hwr).
    by apply Z.eqb_neq.
  - intros x Hx. unfold is_empty_cell.
    rewrite (rd_wr_ne _ _ _ _ x Hwr) by congruence. done.
Qed.

Lemma count_if_pos f l x : x ∈ l → f x = true → (1 ≤ count_if f l)%nat.
Proof.
  induction l as [|y l IH]; intros Hin Hf; [by apply elem_of_nil in Hin|].
  simpl. apply elem_of_cons in Hin as [<-|Hin].
  - rewrite Hf. lia.
  - specialize (IH Hin Hf). destruct (f y); lia.
Qed.

Lemma empties_pos a pos :
  length a = CELLS → rd a pos = Some EMPTY → (1 ≤ empties a)%nat.
Proof.
  intros Hl Hrd. unfold empties. apply (count_if_pos _ _ pos).
  - apply elem_of_positions. apply rd_Some_range in Hrd.
    rewrite Hl in Hrd. unfold CELLS in Hrd. lia.
  - unfold is_empty_cell. rewrite Hrd. done.
Qed.

Lemma exhaustive_ray_S {scorer : Scorer} rec n b player pp depth move pos m :
  exhaustive_ray rec (S n) b player pp depth move pos m =
  cell ← rd (board b) (pos + move);
  if negb (cell =? EMPTY) then Some m
  else
    a ← wr (board b) (pos + move) player;
    r ← rec (mkBoard a (p1 b) (p2 b)) pp (pos + move) (depth + 1);
    exhaustive_ray rec n b player pp depth move (pos + move) (Z.max m (- r)).
Proof. reflexivity. Qed.

Lemma exhaustive_S {scorer : Scorer} md n b ap pp depth :
  exhaustive md (S n) b ap pp depth =
  lost ← hasLost b ap;
  if (lost : bool) then Some (LOSS_VALUE + depth)
  else
    player ← rd (board b) ap;
    if depth =? md then Scorer_getScore b player
    else exhaustive_dirs (exhaustive md n) b player pp depth ap MOVES (- INF).
Proof. reflexivity. Qed.

Lemma token_at_wr_same a pos v a' :
  playable pos = true → v ≠ EMPTY → wr a pos v = Some a' → token_at a' pos.
Proof.
  intros Hp Hv Hwr. split; [done|]. exists v. split; [|done].
  by eapply rd_wr_eq.
Qed.

Lemma token_at_wr_other a pos v a' x :
  token_at a x → rd a pos = Some EMPTY → wr a pos v = Some a' →
  token_at a' x.
Proof.
  intros (Hp & c & Hc & Hne) Hrd Hwr. split; [done|]. exists c. split; [|done].
  rewrite (rd_wr_ne _ _ _ _ x Hwr); [done|]. intros ->. congruence.
Qed.

Section ExhaustiveTotal.
Context {scorer : Scorer}.
Variable max_depth : Z.

(** The scorer returns on well-formed boards with both tokens on inner
    cells, with a value in the range of leaf values. *)
Hypothesis scorer_ok : ∀ b player,
  wf_board b = true → playable (p1 b) = true → playable (p2 b) = true →
  ∃ v, Scorer_getScore b player = Some v ∧ ok_val v.

Section Loops.
Variable rec : Board → Z → Z → Z → option Z.
Variable b : Board.
Variables player pp depth : Z.
Hypothesis Hwf : wf_board b = true.
Hypothesis Hp1 : playable (p1 b) = true.
Hypothesis Hp2 : playable (p2 b) = true.
Hypothesis Hplayer : player ≠ EMPTY.
Hypothesis Hpp : token_at (board b) pp.
Hypothesis Hdepth : 1 ≤ depth.
Hypothesis Hbudget : depth + Z.of_nat (empties (board b)) ≤ 1000.
Hypothesis Hrec : ∀ e, empties (board b) = S e → node_ok rec e.

Lemma exhaustive_ray_total move :
  move ∈ MOVES →
  ∀ (n : nat) (pos m : Z),
    playable pos = true → (ring_dist 7 move pos ≤ n)%nat → ok_best m →
    ∃ m', exhaustive_ray rec n b player pp depth move pos m = Some m' ∧
      ok_best m' ∧ (ok_val m → ok_val m') ∧
      (rd (board b) (pos + move) = Some EMPTY → ok_val m').
Proof.
  intros Hm n. induction n as [|n IH]; intros pos m Hpos Hd Hok.
  { pose proof (ring_dist_pos move pos Hpos Hm). lia. }
  rewrite exhaustive_ray_S.
  destruct (ray_step pos move Hpos Hm) as [Hr Hnext].
  destruct (wf_rd b (pos + move) Hwf Hr) as [cell Hcell].
  rewrite Hcell. cbn [mbind option_bind].
  destruct (cell =? EMPTY) eqn:Ecell; cbn [negb].
  2: { exists m. split; [done|]. split; [done|]. split; [done|].
       intros [= ->]. done. }
  apply Z.eqb_eq in Ecell. subst cell.
  pose proof (wf_empty_playable b _ Hwf Hcell) as Hpos'.
  destruct Hnext as [Hring|[_ Hlt]].
  { apply playable_range in Hpos' as [_ ?]. congruence. }
  destruct (playable_wr b (pos + move) player Hwf Hpos') as [a Hwr].
  rewrite Hwr. cbn [mbind option_bind].
  pose proof (empties_wr _ _ _ _ (wf_length b Hwf) Hcell Hplayer Hwr)
    as Hemp.
  destruct (Hrec _ Hemp (mkBoard a (p1 b) (p2 b)) pp (pos + move)
              (depth + 1)) as (vc & Hvc & Hokc); cbn [board p1 p2];
    try done; try lia.
  { by eapply wf_wr. }
  { by eapply token_at_wr_other. }
  { by eapply token_at_wr_same. }
  rewrite Hvc. cbn [mbind option_bind].
  assert (Hok1 : ok_val (Z.max m (- vc))).
  { unfold ok_best, ok_val, INF in *. lia. }
  destruct (IH (pos + move) (Z.max m (- vc)))
    as (m' & Hrun & Hb' & Hv' & _); [done | lia | by right |].
  exists m'. split; [done|]. split; [done|]. auto.
Qed.

Lemma exhaustive_dirs_total ap :
  playable ap = true →
  ∀ (moves : list Z) (m : Z),
    moves ⊆ MOVES → ok_best m →
    ∃ m', exhaustive_dirs rec b player pp depth ap moves m = Some m' ∧
      ok_best m' ∧ (ok_val m → ok_val m') ∧
      ((∃ d, d ∈ moves ∧ rd (board b) (ap + d) = Some EMPTY) →
       ok_val m').
Proof.
  intros Hap moves.
  induction moves as [|d moves IH]; intros m Hsub Hok;
    cbn [exhaustive_dirs].
  { exists m. split; [done|]. split; [done|]. split; [done|].
    intros (d & Hd%elem_of_nil & _). done. }
  destruct (exhaustive_ray_total d) with (n := RAY_FUEL) (pos := ap)
    (m := m) as (m1 & Hrun & Hb1 & Hv1 & He1); try done.
  { apply Hsub. by left. }
  { pose proof (ring_dist_le 7 d ap). rewrite RAY_FUEL_eq. lia. }
  rewrite Hrun. cbn [mbind option_bind].
  destruct (IH m1) as (m2 & Hrun2 & Hb2 & Hv2 & He2); [|done|].
  { intros x Hx. apply Hsub. by right. }
  exists m2. split; [done|]. split; [done|]. split; [auto|].
  intros (x & Hx & Hempty). apply elem_of_cons in Hx as [->|Hx].
  - auto.
  - apply He2. eauto.
Qed.

End Loops.

Lemma node_ok_le rec e e' : (e' ≤ e)%nat → node_ok rec e → node_ok rec e'.
Proof.
  intros Hle H b ap pp depth ? ? ? ? ? He ? ?. apply H; try done. lia.
Qed.

Lemma exhaustive_total (fuel : nat) :
  node_ok (exhaustive max_depth (S fuel)) fuel.
Proof.
  induction fuel as [|fuel IH];
    intros b ap pp depth Hwf Hp1 Hp2 Hap Hpp He Hdepth Hbudget;
    rewrite exhaustive_S;
    destruct Hap as (Hap & player & Hplayer & Hne);
    destruct (hasLost_playable b ap (wf_length b Hwf) Hap)
      as (lost & Hl & _);
    rewrite Hl; cbn [mbind option_bind];
    (destruct lost;
     [eexists; split; [done|]; unfold ok_val, LOSS_VALUE; lia|]);
    rewrite Hplayer; cbn [mbind option_bind];
    (destruct (depth =? max_depth); [by apply scorer_ok|]);
    destruct (hasLost_false_move b ap (wf_length b Hwf) Hap Hl)
      as (d & Hd & Hempty).
  - (* no fuel left below: the board has no Empty cell, yet [d] leads
       to one *)
    pose proof (empties_pos _ _ (wf_length b Hwf) Hempty). lia.
  - destruct (exhaustive_dirs_total (exhaustive max_depth (S fuel)) b
                player pp depth Hwf Hp1 Hp2 Hne Hpp Hdepth Hbudget)
      with (ap := ap) (moves := MOVES) (m := - INF)
      as (m' & Hrun & _ & _ & Hv); try done.
    + intros e Hemp. apply (node_ok_le _ fuel); [lia | done].
    + by left.
    + exists m'. split; [done|]. apply Hv. eauto.
Qed.

End ExhaustiveTotal.

(** ** The pruned search follows the unpruned one *)

(** One iteration of the ray loop, with the update of [best_score] and of
    [*best_move] written as two conditionals. *)
Lemma negamax_ray_S {scorer : Scorer} rec n s player pp depth move pos
    alpha beta best bm :
  negamax_ray rec (S n) s player pp depth move pos alpha beta best bm =
  cell ← rd (board (sboard s)) (pos + move);
  if negb (cell =? EMPTY) then Some (Continue s alpha best bm)
  else
    a ← wr (board (sboard s)) (pos + move) player;
    '(r, s, _) ← rec (set_cells s a) pp (pos + move) (depth + 1)
                      (- beta) (- alpha) None;
    a ← wr (board (sboard s)) (pos + move) 0;
    let score := -1 * r in
    let s := set_cells s a in
    let best' := if score >? best then score else best in
    let bm' := if score >? best
               then match bm with
                    | Some _ => Some (pos + move)
                    | None => None
                    end
               else bm in
    let alpha' := if alpha >=? score then alpha else score in
    if alpha' >=? beta then Some (Return s best' bm')
    else negamax_ray rec n s player pp depth move (pos + move)
                     alpha' beta best' bm'.
Proof.
  cbn [negamax_ray].
  destruct (rd (board (sboard s)) (pos + move)) as [cell|]; [|done].
  cbn [mbind option_bind]. destruct (negb (cell =? EMPTY)); [done|].
  destruct (wr (board (sboard s)) (pos + move) player) as [a|]; [|done].
  cbn [mbind option_bind].
  destruct (rec _ pp (pos + move) (depth + 1) (- beta) (- alpha) None)
    as [[[r s2] bm2]|]; [|done].
  cbn [mbind option_bind].
  destruct (wr (board (sboard s2)) (pos + move) 0) as [a2|]; [|done].
  cbn [mbind option_bind]. cbn zeta.
  destruct (-1 * r >? best); done.
Qed.

(** The arithmetic of one iteration: from the invariant and the fail-soft
    result [r] of the child searched with window [(-beta, -alpha)], either
    a cutoff whose value bounds the unpruned best from below, or the
    invariant again. *)
Lemma loop_step alpha0 beta alpha best m vc r :
  loop_inv alpha0 beta alpha best m →
  failsoft (- beta) (- alpha) vc r →
  let score := -1 * r in
  let best' := if score >? best then score else best in
  let alpha' := if alpha >=? score then alpha else score in
  if alpha' >=? beta then beta ≤ best' ∧ best' ≤ Z.max m (- vc)
  else loop_inv alpha0 beta alpha' best' (Z.max m (- vc)).
Proof.
  intros (Ha & Hab & Hlo & Hhi) (Hf1 & Hf2 & Hf3). cbn zeta.
  rewrite Z.gtb_ltb, !Z.geb_leb.
  destruct (Z.ltb_spec best (-1 * r)); destruct (Z.leb_spec (-1 * r) alpha);
    match goal with
    | |- context [?x <=? ?y] => destruct (Z.leb_spec x y)
    end; unfold loop_inv; lia.
Qed.

Lemma negamax_S {scorer : Scorer} md n s ap pp depth alpha beta bm :
  negamax md (S n) s ap pp depth alpha beta bm =
  lost ← hasLost (sboard s) ap;
  if (lost : bool) then Some (LOSS_VALUE + depth, s, bm)
  else
    player ← rd (board (sboard s)) ap;
    if depth =? md then
      let s := mkSearch (sboard s) (depth_count s + 1) in
      score ← Scorer_getScore (sboard s) player;
      Some (score, s, bm)
    else
      out ← negamax_dirs (negamax md n) s player pp depth ap MOVES
                         alpha beta (- INF) bm;
      match out with
      | Continue s _ best bm | Return s best bm => Some (best, s, bm)
      end.
Proof. reflexivity. Qed.

Lemma exhaustive_ray_mono {scorer : Scorer} rec b player pp depth move :
  ∀ n pos m m',
    exhaustive_ray rec n b player pp depth move pos m = Some m' → m ≤ m'.
Proof.
  induction n as [|n IH]; intros pos m m' H; [done|].
  rewrite exhaustive_ray_S in H.
  destruct (rd (board b) (pos + move)) as [cell|]; [|done].
  cbn [mbind option_bind] in H.
  destruct (negb (cell =? EMPTY)); [injection H as <-; lia|].
  destruct (wr (board b) (pos + move) player) as [a|]; [|done].
  cbn [mbind option_bind] in H.
  destruct (rec _ pp (pos + move) (depth + 1)) as [r|]; [|done].
  cbn [mbind option_bind] in H. apply IH in H. lia.
Qed.

Lemma exhaustive_dirs_mono {scorer : Scorer} rec b player pp depth ap :
  ∀ moves m m',
    exhaustive_dirs rec b player pp depth ap moves m = Some m' → m ≤ m'.
Proof.
  induction moves as [|d moves IH]; intros m m' H; cbn [exhaustive_dirs] in H.
  - injection H as <-. lia.
  - destruct (exhaustive_ray rec RAY_FUEL b player pp depth d ap m)
      as [m1|] eqn:E; [|done].
    cbn [mbind option_bind] in H.
    apply exhaustive_ray_mono in E. apply IH in H. lia.
Qed.

Lemma flow_ok_return_le b alpha0 beta m m' bm s r bm' :
  flow_ok b alpha0 beta m bm (Return s r bm') → m ≤ m' →
  flow_ok b alpha0 beta m' bm (Return s r bm').
Proof. simpl. intros (? & ? & ? & ?) ?. repeat split; try done. lia. Qed.

Lemma set_cells_restore s a :
  a = board (sboard s) → sboard (set_cells s a) = sboard s.
Proof. intros ->. unfold set_cells. destruct s as [[? ? ?] ?]. done. Qed.

Section AlphaBeta.
Context {scorer : Scorer}.
Variable max_depth : Z.

Section Loops.
Variable erec : Board → Z → Z → Z → option Z.
Variable nrec : NegamaxFn.
Hypothesis Hrec : rec_sound erec nrec.
Variables player pp depth alpha0 beta : Z.
Hypothesis Halpha0 : - INF ≤ alpha0.
Hypothesis Hbeta : beta ≤ INF.

Lemma negamax_ray_sound move :
  ∀ (n : nat) (s : Search) (pos alpha best m : Z) (bm : option Z) m',
    loop_inv alpha0 beta alpha best m →
    exhaustive_ray erec n (sboard s) player pp depth move pos m
      = Some m' →
    ∃ out,
      negamax_ray nrec n s player pp depth move pos alpha beta best bm
        = Some out ∧
      flow_ok (sboard s) alpha0 beta m' bm out.
Proof.
  induction n as [|n IH]; intros s pos alpha best m bm m' Hinv Hex;
    [done|].
  rewrite exhaustive_ray_S in Hex. rewrite negamax_ray_S.
  destruct (rd (board (sboard s)) (pos + move)) as [cell|] eqn:Hcell;
    [|done].
  cbn [mbind option_bind] in Hex |- *.
  destruct (cell =? EMPTY) eqn:Ecell; cbn [negb] in Hex |- *.
  2: { injection Hex as <-. eexists. split; [done|]. simpl. done. }
  apply Z.eqb_eq in Ecell. subst cell.
  destruct (wr (board (sboard s)) (pos + move) player) as [a|] eqn:Hwr;
    [|done].
  cbn [mbind option_bind] in Hex |- *.
  destruct (erec _ pp (pos + move) (depth + 1)) as [vc|] eqn:Hvc; [|done].
  cbn [mbind option_bind] in Hex.
  destruct (Hrec (set_cells s a) pp (pos + move) (depth + 1)
              (- beta) (- alpha) None vc)
    as (r & s2 & bm2 & Hn & Hb2 & Hfs & _);
    [unfold loop_inv in Hinv; lia .. | exact Hvc |].
  rewrite Hn. cbn [mbind option_bind].
  assert (Hcells2 : board (sboard s2) = a) by (rewrite Hb2; done).
  rewrite Hcells2.
  destruct (wr a (pos + move) 0) as [a2|] eqn:Hwr2.
  2: { pose proof (wr_Some _ _ _ _ Hwr) as [Hr _].
       pose proof (wr_length _ _ _ _ Hwr) as Hl.
       rewrite (wr_in_range a (pos + move) 0) in Hwr2; [done|].
       rewrite Hl. exact Hr. }
  cbn [mbind option_bind].
  pose proof (wr_undo _ _ _ _ _ _ Hcell Hwr Hwr2) as Ha2. subst a2.
  assert (Hs3 : sboard (set_cells s2 (board (sboard s))) = sboard s).
  { unfold set_cells. rewrite Hb2. simpl. by destruct (sboard s). }
  pose proof (exhaustive_ray_mono _ _ _ _ _ _ _ _ _ _ Hex) as Hmono.
  pose proof (loop_step alpha0 beta alpha best m vc r Hinv Hfs) as Hstep.
  cbn zeta in Hstep |- *.
  set (best' := if -1 * r >? best then -1 * r else best) in *.
  set (alpha' := if alpha >=? -1 * r then alpha else -1 * r) in *.
  set (bm' := if -1 * r >? best then _ else bm).
  assert (Hbm : is_Some bm → is_Some bm').
  { unfold bm'. destruct (-1 * r >? best); [|done]. by intros [? ->]. }
  destruct (alpha' >=? beta).
  + eexists. split; [done|]. simpl.
    split; [done|]. split; [lia|]. split; [lia|done].
  + destruct (IH (set_cells s2 (board (sboard s))) (pos + move)
                alpha' best' (Z.max m (- vc)) bm' m')
      as (out & Hout & Hok); [done | by rewrite Hs3 |].
    exists out. split; [done|]. rewrite Hs3 in Hok.
    destruct out; simpl in Hok |- *.
    * destruct Hok as (? & ? & ?). split; [done|]. split; [done|]. auto.
    * destruct Hok as (? & ? & ? & ?).
      split; [done|]. split; [done|]. split; [done|]. auto.
Qed.

Lemma negamax_dirs_sound ap :
  ∀ (moves : list Z) (s : Search) (alpha best m : Z) (bm : option Z) m',
    loop_inv alpha0 beta alpha best m →
    exhaustive_dirs erec (sboard s) player pp depth ap moves m
      = Some m' →
    ∃ out,
      negamax_dirs nrec s player pp depth ap moves alpha beta best bm
        = Some out ∧
      flow_ok (sboard s) alpha0 beta m' bm out.
Proof.
  induction moves as [|d moves IH]; intros s alpha best m bm m' Hinv Hex;
    cbn [exhaustive_dirs negamax_dirs] in Hex |- *.
  { injection Hex as <-. eexists. split; [done|]. simpl. done. }
  destruct (exhaustive_ray erec RAY_FUEL (sboard s) player pp depth d ap m)
    as [m1|] eqn:Hray; [|done].
  cbn [mbind option_bind] in Hex.
  destruct (negamax_ray_sound d RAY_FUEL s ap alpha best m bm m1 Hinv Hray)
    as (out & Hout & Hok).
  rewrite Hout. cbn [mbind option_bind].
  destruct out as [s1 alpha1 best1 bm1 | s1 r bm1].
  - simpl in Hok. destruct Hok as (Hb1 & Hinv1 & Hbm1).
    rewrite <- Hb1 in Hex.
    destruct (IH s1 alpha1 best1 m1 bm1 m' Hinv1 Hex) as (out & Hout2 & Hok2).
    exists out. split; [done|]. rewrite Hb1 in Hok2.
    destruct out; simpl in Hok2 |- *.
    + destruct Hok2 as (? & ? & ?). split; [done|]. split; [done|]. auto.
    + destruct Hok2 as (? & ? & ? & ?).
      split; [done|]. split; [done|]. split; [done|]. auto.
  - eexists. split; [done|].
    apply (flow_ok_return_le _ _ _ m1); [done|].
    by eapply exhaustive_dirs_mono.
Qed.

End Loops.

(** The pruned search returns whenever the unpruned one does, leaves
    the board as it found it, and its result is the fail-soft image of
    the unpruned value. *)
Lemma negamax_sound (fuel : nat) :
  rec_sound (exhaustive max_depth fuel) (negamax max_depth fuel).
Proof.
  induction fuel as [|fuel IH];
    intros s ap pp depth alpha beta bm v Ha Hab Hb Hex; [done|].
  rewrite exhaustive_S in Hex. rewrite negamax_S.
  destruct (hasLost (sboard s) ap) as [lost|]; [|done].
  cbn [mbind option_bind] in Hex |- *.
  destruct lost.
  { injection Hex as <-. eexists _, _, _. split; [done|].
    split; [done|]. split; [|done]. unfold failsoft. lia. }
  destruct (rd (board (sboard s)) ap) as [player|]; [|done].
  cbn [mbind option_bind] in Hex |- *.
  destruct (depth =? max_depth).
  { cbn zeta. cbn [sboard]. rewrite Hex. cbn [mbind option_bind].
    eexists _, _, _. split; [done|].
    split; [done|]. split; [|done]. unfold failsoft. lia. }
  destruct (negamax_dirs_sound _ _ IH player pp depth alpha beta Ha Hb ap
              MOVES s alpha (- INF) (- INF) bm v)
    as (out & Hout & Hok); [unfold loop_inv; lia | done |].
  rewrite Hout. cbn [mbind option_bind].
  destruct out as [s1 alpha1 best1 bm1 | s1 r bm1]; simpl in Hok.
  - destruct Hok as (Hb1 & Hinv & Hbm).
    eexists _, _, _. split; [done|]. split; [done|]. split; [|done].
    unfold failsoft, loop_inv in *. lia.
  - destruct Hok as (Hb1 & Hr1 & Hr2 & Hbm).
    eexists _, _, _. split; [done|]. split; [done|]. split; [|done].
    unfold failsoft. lia.
Qed.

End AlphaBeta.

(** ** The search of [getMove] with the Dijkstra scorer *)

Lemma DijkstraScorer_ok b player :
  wf_board b = true → playable (p1 b) = true → playable (p2 b) = true →
  ∃ v, @Scorer_getScore DijkstraScorer b player = Some v ∧ ok_val v.
Proof.
  intros Hwf H1 H2.
  assert (Ht : ∀ who, playable (token_pos b who) = true).
  { intros who. unfold token_pos. by destruct (who =? P1). }
  destruct (getScore_total b player Hwf (Ht _) (Ht _))
    as (x & y & _ & _ & Hs & Hx & Hy).
  exists (x - y). split; [done|]. unfold ok_val. lia.
Qed.

Lemma count_if_length f l : (count_if f l ≤ length l)%nat.
Proof. induction l as [|x l IH]; simpl; [lia|]. destruct (f x); lia. Qed.

Lemma empties_le_49 a : (empties a ≤ 49)%nat.
Proof. unfold empties. apply (count_if_length _ positions). Qed.

(** With both players placed and more fuel than Empty cells, the root
    call of [getMove] and the unpruned search both return, with the same
    value, and the root call leaves the board as it found it. *)
Lemma root_search b player max_depth fuel :
  both_placed b = true → (empties (board b) < fuel)%nat →
  ∃ v s move,
    @exhaustive DijkstraScorer max_depth fuel b
      (if player =? P1 then p1 b else p2 b)
      (if player =? P1 then p2 b else p1 b) 1 = Some v ∧
    @negamax DijkstraScorer max_depth fuel (mkSearch b 0)
      (if player =? P1 then p1 b else p2 b)
      (if player =? P1 then p2 b else p1 b) 1 (- INF) INF (Some 0)
      = Some (v, s, Some move) ∧
    sboard s = b.
Proof.
  intros (Hwf & Hp1 & Hc1 & Hp2 & Hc2)%both_placed_inv Hfuel.
  destruct fuel as [|fuel]; [lia|].
  assert (Ht1 : token_at (board b) (p1 b)) by (split; [done|]; by exists P1).
  assert (Ht2 : token_at (board b) (p2 b)) by (split; [done|]; by exists P2).
  pose proof (empties_le_49 (board b)) as H49.
  destruct (@exhaustive_total DijkstraScorer max_depth DijkstraScorer_ok fuel
              b (if player =? P1 then p1 b else p2 b)
              (if player =? P1 then p2 b else p1 b) 1)
    as (v & Hv & Hok); try done; try lia; try (by destruct (player =? P1)).
  destruct (@negamax_sound DijkstraScorer max_depth (S fuel) (mkSearch b 0)
              (if player =? P1 then p1 b else p2 b)
              (if player =? P1 then p2 b else p1 b) 1 (- INF) INF (Some 0) v)
    as (r & s & bm & Hn & Hb & (Hf1 & Hf2 & Hf3) & Hbm);
    [lia | done | lia | exact Hv |].
  destruct Hbm as [move ->]; [done|].
  assert (v = r) by (unfold ok_val, INF in *; lia). subst r.
  exists v, s, move. done.
Qed.

(** C1. For every board with both players placed and every [max_depth]
    (in particular every [max_depth >= 1]), given more fuel than the board
    has Empty cells, the value computed at the root by [negamax] with
    alpha-beta pruning and the full window [(-INF, INF)] equals the value
    of the exhaustive unpruned search of the same depth on the same
    board. *)
Theorem alphabeta_root_value b player max_depth fuel :
  both_placed b = true → 1 ≤ max_depth → (empties (board b) < fuel)%nat →
  ∃ v, @root_value DijkstraScorer fuel b player max_depth = Some v ∧
       @exhaustive_value DijkstraScorer fuel b player max_depth = Some v.
Proof.
  intros Hb _ Hfuel.
  destruct (root_search b player max_depth fuel Hb Hfuel)
    as (v & s & move & Hex & Hn & _).
  exists v. unfold root_value, exhaustive_value. rewrite Hn. done.
Qed.

Lemma alphabeta_root_value_witness :
  ∃ v, @root_value DijkstraScorer 50 board_endgame P1 3 = Some v ∧
       @exhaustive_value DijkstraScorer 50 board_endgame P1 3 = Some v.
Proof.
  apply (alphabeta_root_value board_endgame P1 3 50);
    [reflexivity | lia | vm_compute; lia].
Defined.

(** C4. For every board with both players placed and every [max_depth]
    (in particular every [max_depth >= 1]), given more fuel than the board
    has Empty cells, [getMove] returns, and the board it leaves behind
    (the 49 cells and both stored positions) is the board it was called
    on. *)
Theorem getMove_restores_board b player max_depth fuel :
  both_placed b = true → 1 ≤ max_depth → (empties (board b) < fuel)%nat →
  ∃ move s, @getMove DijkstraScorer fuel b player max_depth = Some (move, s) ∧
    sboard s = b ∧
    board (sboard s) = board b ∧ p1 (sboard s) = p1 b ∧ p2 (sboard s) = p2 b.
Proof.
  intros Hb _ Hfuel.
  destruct (root_search b player max_depth fuel Hb Hfuel)
    as (v & s & move & _ & Hn & Hs).
  exists move, s. unfold getMove. rewrite Hn. cbn [mbind option_bind].
  rewrite Hs. done.
Qed.

Lemma getMove_restores_board_witness :
  ∃ move s,
    @getMove DijkstraScorer 50 board_endgame P1 3 = Some (move, s) ∧
    sboard s = board_endgame ∧
    board (sboard s) = board board_endgame ∧
    p1 (sboard s) = p1 board_endgame ∧ p2 (sboard s) = p2 board_endgame.
Proof.
  apply (getMove_restores_board board_endgame P1 3 50);
    [reflexivity | lia | vm_compute; lia].
Defined.

(** ** Terminal cases of the search *)

(** C7. Whenever [hasLost] holds for the active position, [negamax]
    returns [LOSS_VALUE + depth] at once: for every depth and every
    [max_depth] (so also when [depth = max_depth], and at depth 1), with
    the search state and [*best_move] untouched, that is, before the
    horizon test and before any move is generated. *)
Theorem negamax_loss_first {scorer : Scorer} max_depth fuel s ap pp depth
    alpha beta bm :
  hasLost (sboard s) ap = Some true →
  negamax max_depth (S fuel) s ap pp depth alpha beta bm
    = Some (LOSS_VALUE + depth, s, bm).
Proof. intros H. rewrite negamax_S, H. done. Qed.

Lemma negamax_loss_first_witness :
  @negamax DijkstraScorer 1 (S 0) (mkSearch board_isolated 0) 8 9 1
    (- INF) INF (Some 0)
  = Some (LOSS_VALUE + 1, mkSearch board_isolated 0, Some 0).
Proof.
  apply (@negamax_loss_first DijkstraScorer 1 0 (mkSearch board_isolated 0)
           8 9 1 (- INF) INF (Some 0)).
  reflexivity.
Defined.

(** C9, as amended.  [getMove] returns 0, which is not a playable cell,
    on every board on which the acting player's token has no Empty
    neighbour, whether or not the other player is placed, and, when
    [max_depth] is 1, on every board with both players placed: the root
    call returns before [*best_move] is assigned. *)
Theorem getMove_no_move b player max_depth fuel :
  hasLost b (token_pos b player) = Some true ∨
  (max_depth = 1 ∧ both_placed b = true) →
  (∃ s, @getMove DijkstraScorer (S fuel) b player max_depth = Some (0, s)) ∧
  playable 0 = false.
Proof.
  intros Hcase. split; [|done].
  unfold getMove. fold (token_pos b player). rewrite negamax_S.
  cbn [sboard].
  destruct Hcase as [Hlost | [-> Hb]].
  { rewrite Hlost. cbn [mbind option_bind]. by eexists. }
  pose proof (both_placed_inv b Hb) as (Hwf & Hp1 & Hc1 & Hp2 & Hc2).
  assert (Hap : playable (token_pos b player) = true)
    by (unfold token_pos; by destruct (player =? P1)).
  destruct (hasLost_playable b _ (wf_length b Hwf) Hap) as (lost & Hl & _).
  rewrite Hl. cbn [mbind option_bind].
  destruct lost; [by eexists|].
  destruct (wf_rd b (token_pos b player) Hwf) as [c Hc].
  { apply playable_range in Hap. lia. }
  rewrite Hc. cbn [mbind option_bind]. rewrite Z.eqb_refl. cbn zeta.
  cbn [sboard].
  destruct (DijkstraScorer_ok b c Hwf Hp1 Hp2) as (v & Hv & _).
  rewrite Hv. cbn [mbind option_bind]. by eexists.
Qed.

Lemma getMove_no_move_witness :
  (∃ s, @getMove DijkstraScorer (S 0) board_walled_alone P1 25
        = Some (0, s)) ∧
  playable 0 = false.
Proof.
  apply (getMove_no_move board_walled_alone P1 25 0). left. reflexivity.
Defined.

(** C9 as stated fails: on the board the constructor builds, where no
    player is placed, [getMove] with [max_depth] 1 does not return 0.  The
    root call reads the acting position 0, finds it not lost, and scores
    the board; the flood fill started at cell 0 steps to cell -1, outside
    the array. *)
Lemma getMove_unplaced_counterexample :
  both_placed fresh_board = false ∧
  ¬ ∃ fuel s, @getMove DijkstraScorer fuel fresh_board P1 1 = Some (0, s).
Proof.
  split; [reflexivity|]. intros (fuel & s & H).
  destruct fuel as [|fuel]; [discriminate H|].
  unfold getMove in H. rewrite negamax_S in H.
  vm_compute in H. discriminate H.
Qed.

(** ** The flood fill does not always record shortest distances *)

Lemma ray_path_1 a p q : ray_path a 1 p q → q ∈ destinations a p.
Proof.
  intros H. inversion H as [|n p0 x r H0 Hd]; subst.
  inversion H0; subst. done.
Qed.

(** C2 fails on the first board [main] builds.  The flood fill from P1's
    cell 8 records distance 3 for cell 11, although two ray moves reach it
    (8 to 29 down the column, 29 to 11 up the diagonal) and no fewer do;
    accordingly [dijkstra] returns 344 where shortest distances would give
    346 (cell 12 is recorded at 3 instead of 2 as well). *)
Theorem dijkstra_not_shortest :
  ∃ f, flood board_opening P1 = Some f ∧
    rd (fsteps f) 11 = Some 3 ∧
    ray_path (board board_opening) 2 8 11 ∧
    (∀ n, ray_path (board board_opening) n 8 11 → (2 ≤ n)%nat) ∧
    dijkstra board_opening P1 = Some 344.
Proof.
  eexists. split; [vm_compute; reflexivity|].
  split; [reflexivity|]. split; [|split; [|reflexivity]].
  - apply (ray_path_S _ 1 8 29 11).
    + apply (ray_path_S _ 0 8 8 29); [constructor|].
      vm_compute. repeat (first [by left | right]).
    + vm_compute. repeat (first [by left | right]).
  - intros [|[|n]] H; [|exfalso|lia].
    + inversion H.
    + apply ray_path_1 in H. vm_compute in H.
      repeat (apply elem_of_cons in H as [H|H]; [discriminate H|]).
      by apply elem_of_nil in H.
Qed.

(** ** More on the coordinate macros and on Board::play *)

Lemma quot_rem_7 n : 7 * Z.quot n 7 + Z.rem n 7 = n.
Proof. symmetry. apply Z.quot_rem'. Qed.

Lemma quot_rem_7_range n :
  -8 ≤ n ≤ 40 → -1 ≤ Z.quot n 7 ≤ 5 ∧ -6 ≤ Z.rem n 7 ≤ 6.
Proof.
  intros Hn. pose proof (quot_rem_7 n) as Hqr.
  destruct (Z.le_gt_cases 0 n) as [H0|H0].
  - pose proof (Z.rem_bound_pos n 7 H0 eq_refl). lia.
  - pose proof (Z.rem_bound_pos_neg n 7 eq_refl (Z.lt_le_incl _ _ H0)). lia.
Qed.

(** X1. For every index [pos] of the board array, 0 to 48, converting
    [pos] to [(x, y)] with [POS_TO_X] and [POS_TO_Y] and back with
    [XY_TO_POS], as [play_match] does before it calls [play], gives [pos]
    back; this includes the indices below 8, where the truncating division
    and remainder are taken of a negative number. The coordinates lie
    between -1 and 5 and between -6 and 6. *)
Theorem pos_xy_round_trip pos :
  0 ≤ pos ≤ 48 →
  XY_TO_POS (POS_TO_X pos) (POS_TO_Y pos) = pos ∧
  -1 ≤ POS_TO_X pos ≤ 5 ∧ -6 ≤ POS_TO_Y pos ≤ 6.
Proof.
  intros Hpos. unfold XY_TO_POS, POS_TO_X, POS_TO_Y.
  pose proof (quot_rem_7 (pos - 8)).
  pose proof (quot_rem_7_range (pos - 8) ltac:(lia)). lia.
Qed.

Lemma pos_xy_round_trip_witness :
  XY_TO_POS (POS_TO_X 0) (POS_TO_Y 0) = 0 ∧
  -1 ≤ POS_TO_X 0 ≤ 5 ∧ -6 ≤ POS_TO_Y 0 ≤ 6.
Proof. apply (pos_xy_round_trip 0). lia. Defined.

(** X2. For a row [x >= 0] and a column [0 <= y <= 6] whose cell
    [XY_TO_POS x y] is an index of the board array (at most 48),
    [POS_TO_X] and [POS_TO_Y] recover [x] and [y] from [XY_TO_POS x y]. *)
Theorem xy_pos_round_trip x y :
  0 ≤ x → 0 ≤ y ≤ 6 → XY_TO_POS x y ≤ 48 →
  POS_TO_X (XY_TO_POS x y) = x ∧ POS_TO_Y (XY_TO_POS x y) = y.
Proof.
  intros Hx Hy _. unfold XY_TO_POS, POS_TO_X, POS_TO_Y.
  replace (x * 7 + y + 8 - 8) with (y + x * 7) by lia.
  rewrite Z.quot_div_nonneg, Z.rem_mod_nonneg by lia.
  rewrite Z.div_add, Z.mod_add by lia.
  rewrite Z.div_small, Z.mod_small by lia. lia.
Qed.

Lemma xy_pos_round_trip_witness :
  POS_TO_X (XY_TO_POS 3 4) = 3 ∧ POS_TO_Y (XY_TO_POS 3 4) = 4.
Proof. apply (xy_pos_round_trip 3 4); [lia | lia | vm_compute; discriminate]. Defined.

(** ** More on Mirror::getMove *)

Lemma Mirror_getMove_formula b player max_depth :
  0 ≤ token_pos b (OPPONENT player) ≤ 48 →
  Mirror_getMove b player max_depth = 48 - token_pos b (OPPONENT player).
Proof.
  intros _.
  unfold Mirror_getMove, token_pos, OPPONENT, XY_TO_POS, POS_TO_X, POS_TO_Y.
  assert (Heq : (if (if player =? P1 then P2 else P1) =? P1 then p1 b else p2 b)
                = (if player =? P1 then p2 b else p1 b))
    by (destruct (player =? P1); reflexivity).
  rewrite Heq.
  pose proof (quot_rem_7 ((if player =? P1 then p2 b else p1 b) - 8)). lia.
Qed.

(** X3. When the opponent's stored position [pp] is an index of the
    board array, 0 to 48, placed or not, [Mirror::getMove] returns
    [48 - pp], again an index of the array; for an opponent who has not
    placed ([pp = 0]) that is cell 48, a sentinel corner. *)
Theorem Mirror_getMove_is_48_minus b player max_depth :
  0 ≤ token_pos b (OPPONENT player) ≤ 48 →
  Mirror_getMove b player max_depth = 48 - token_pos b (OPPONENT player) ∧
  0 ≤ Mirror_getMove b player max_depth ≤ 48 ∧
  (token_pos b (OPPONENT player) = 0 →
   Mirror_getMove b player max_depth = 48 ∧ playable 48 = false).
Proof.
  intros Hpp. rewrite (Mirror_getMove_formula b player max_depth Hpp).
  split; [done|]. split; [lia|]. intros H0. rewrite H0. done.
Qed.

Lemma Mirror_getMove_is_48_minus_witness :
  Mirror_getMove fresh_board P1 25 = 48 - token_pos fresh_board (OPPONENT P1) ∧
  0 ≤ Mirror_getMove fresh_board P1 25 ≤ 48 ∧
  (token_pos fresh_board (OPPONENT P1) = 0 →
   Mirror_getMove fresh_board P1 25 = 48 ∧ playable 48 = false).
Proof.
  apply (Mirror_getMove_is_48_minus fresh_board P1 25). vm_compute. split; discriminate.
Defined.

Lemma playable_mirror_all :
  forallb (λ p, Bool.eqb (playable (48 - p)) (playable p)) positions = true.
Proof. vm_compute. reflexivity. Qed.

Lemma playable_mirror p :
  0 ≤ p ≤ 48 → playable (48 - p) = playable p.
Proof.
  intros Hin. pose proof playable_mirror_all as H.
  rewrite forallb_forall in H.
  apply Bool.eqb_prop, H, list_elem_of_In, elem_of_positions. lia.
Qed.

(** X4. When the opponent's stored position is an index of the board
    array, 0 to 48: the cell [Mirror::getMove] returns is an inner cell
    exactly when the opponent's stored position is one; it is the
    opponent's own cell exactly when the opponent stands on the centre,
    cell 24; and mirroring the returned cell gives the opponent's position
    back. *)
Theorem Mirror_getMove_playable b player max_depth :
  0 ≤ token_pos b (OPPONENT player) ≤ 48 →
  playable (Mirror_getMove b player max_depth)
    = playable (token_pos b (OPPONENT player)) ∧
  (Mirror_getMove b player max_depth = token_pos b (OPPONENT player)
   ↔ token_pos b (OPPONENT player) = 24) ∧
  48 - Mirror_getMove b player max_depth = token_pos b (OPPONENT player).
Proof.
  intros Hpp. rewrite (Mirror_getMove_formula b player max_depth Hpp).
  split; [by apply playable_mirror|]. lia.
Qed.

Lemma Mirror_getMove_playable_witness :
  playable (Mirror_getMove board_opening P1 25)
    = playable (token_pos board_opening (OPPONENT P1)) ∧
  (Mirror_getMove board_opening P1 25 = token_pos board_opening (OPPONENT P1)
   ↔ token_pos board_opening (OPPONENT P1) = 24) ∧
  48 - Mirror_getMove board_opening P1 25
    = token_pos board_opening (OPPONENT P1).
Proof.
  apply (Mirror_getMove_playable board_opening P1 25). vm_compute. split; discriminate.
Defined.

(** ** More on Board::Board, Board::isLegal and Board::play *)

Lemma inner_xy x y :
  0 ≤ x ≤ 4 → 0 ≤ y ≤ 4 → playable (XY_TO_POS x y) = true.
Proof.
  intros Hx Hy. unfold XY_TO_POS.
  assert (Hxs : x = 0 ∨ x = 1 ∨ x = 2 ∨ x = 3 ∨ x = 4) by lia.
  assert (Hys : y = 0 ∨ y = 1 ∨ y = 2 ∨ y = 3 ∨ y = 4) by lia.
  destruct Hxs as [->|[->|[->|[->| ->]]]];
    destruct Hys as [->|[->|[->|[->| ->]]]]; reflexivity.
Qed.

Lemma fresh_inner_empty :
  forallb (λ i, if playable i then is_empty_cell fresh_cells i else true)
          positions = true.
Proof. vm_compute. reflexivity. Qed.

Lemma fresh_board_empty i :
  playable i = true → rd (board fresh_board) i = Some EMPTY.
Proof.
  intros Hp. pose proof fresh_inner_empty as H. rewrite forallb_forall in H.
  pose proof (playable_range i Hp) as [Hr _].
  assert (Hin : In i positions)
    by (apply list_elem_of_In, elem_of_positions; lia).
  specialize (H i Hin). rewrite Hp in H. unfold is_empty_cell in H.
  simpl. destruct (rd fresh_cells i) as [c|]; [|done].
  apply Z.eqb_eq in H. by subst.
Qed.

(** X5. Whatever the 49 cells of the member array hold before, the
    constructor returns the same well-formed board: both stored positions
    are 0, every inner cell is Empty (25 Empty cells in all), and
    [isLegal] holds for all coordinates in [0,4] x [0,4]. *)
Theorem Board_ctor_fresh mem :
  length mem = CELLS →
  ∃ b, Board_ctor mem = Some b ∧ wf_board b = true ∧
    p1 b = 0 ∧ p2 b = 0 ∧
    (∀ i, playable i = true → rd (board b) i = Some EMPTY) ∧
    empties (board b) = 25%nat ∧
    (∀ x y, 0 ≤ x ≤ 4 → 0 ≤ y ≤ 4 → isLegal b x y = Some true).
Proof.
  intros Hl. exists fresh_board. split; [by apply Board_ctor_any|].
  split; [done|]. split; [done|]. split; [done|].
  split; [apply fresh_board_empty|]. split; [done|].
  intros x y Hx Hy. unfold isLegal.
  change (x * 7 + y + 8) with (XY_TO_POS x y).
  rewrite (fresh_board_empty _ (inner_xy x y Hx Hy)). done.
Qed.

Lemma Board_ctor_fresh_witness :
  ∃ b, Board_ctor (replicate 49 7) = Some b ∧ wf_board b = true ∧
    p1 b = 0 ∧ p2 b = 0 ∧
    (∀ i, playable i = true → rd (board b) i = Some EMPTY) ∧
    empties (board b) = 25%nat ∧
    (∀ x y, 0 ≤ x ≤ 4 → 0 ≤ y ≤ 4 → isLegal b x y = Some true).
Proof. apply (Board_ctor_fresh (replicate 49 7)). reflexivity. Defined.

Lemma play_Some b x y player a :
  wr (board b) (XY_TO_POS x y) player = Some a →
  play b x y player =
    Some (if player =? P1 then mkBoard a (XY_TO_POS x y) (p2 b)
          else mkBoard a (p1 b) (XY_TO_POS x y)).
Proof.
  intros Hwr. unfold play. fold (XY_TO_POS x y). rewrite Hwr. simpl.
  by destruct (player =? P1).
Qed.

(** X6. On a well-formed board [play(x, y, player)] with coordinates in
    [0,4] x [0,4] always succeeds, whatever the cell held (there is no
    legality check): the cell takes the value [player], no other cell
    changes, the board stays well formed, the stored position of P1 (for
    [player = P1]) or of P2 (for any other [player]) becomes the cell and
    the other one is kept, and [isLegal] then reports the cell as taken
    unless [player] is the Empty value itself. *)
Theorem play_effect b x y player :
  wf_board b = true → 0 ≤ x ≤ 4 → 0 ≤ y ≤ 4 →
  ∃ b', play b x y player = Some b' ∧
    rd (board b') (XY_TO_POS x y) = Some player ∧
    (∀ i, i ≠ XY_TO_POS x y → rd (board b') i = rd (board b) i) ∧
    wf_board b' = true ∧
    (player = P1 → p1 b' = XY_TO_POS x y ∧ p2 b' = p2 b) ∧
    (player ≠ P1 → p2 b' = XY_TO_POS x y ∧ p1 b' = p1 b) ∧
    isLegal b' x y = Some (player =? EMPTY).
Proof.
  intros Hwf Hx Hy. pose proof (inner_xy x y Hx Hy) as Hp.
  destruct (playable_wr b _ player Hwf Hp) as [a Hwr].
  pose proof (wf_wr b _ player a Hwf Hp Hwr) as Hwf'.
  eexists. split; [by apply play_Some|].
  assert (Hcells : ∀ u v w z,
    board (if player =? P1 then mkBoard a u v else mkBoard a w z) = a)
    by (intros; by destruct (player =? P1)).
  rewrite Hcells.
  split; [by eapply rd_wr_eq|].
  split; [intros i Hi; by apply (rd_wr_ne _ _ _ _ i Hwr)|].
  split.
  { unfold wf_board in *. rewrite Hcells. exact Hwf'. }
  split; [intros ->; done|]. split.
  { intros Hne. apply Z.eqb_neq in Hne. rewrite Hne. done. }
  unfold isLegal. rewrite Hcells. fold (XY_TO_POS x y).
  rewrite (rd_wr_eq _ _ _ _ Hwr). done.
Qed.

Lemma play_effect_witness :
  ∃ b', play board_opening 0 1 P1 = Some b' ∧
    rd (board b') (XY_TO_POS 0 1) = Some P1 ∧
    (∀ i, i ≠ XY_TO_POS 0 1 → rd (board b') i = rd (board board_opening) i) ∧
    wf_board b' = true ∧
    (P1 = P1 → p1 b' = XY_TO_POS 0 1 ∧ p2 b' = p2 board_opening) ∧
    (P1 ≠ P1 → p2 b' = XY_TO_POS 0 1 ∧ p1 b' = p1 board_opening) ∧
    isLegal b' 0 1 = Some (P1 =? EMPTY).
Proof. apply (play_effect board_opening 0 1 P1); [reflexivity | lia | lia]. Defined.

(** A legal call consumes one Empty cell and changes no occupied cell. *)
Lemma legal_play_step b x y player rest :
  wf_board b = true → legal_plays b ((x, y, player) :: rest) = true →
  ∃ b1, play b x y player = Some b1 ∧ wf_board b1 = true ∧
    legal_plays b1 rest = true ∧
    empties (board b) = S (empties (board b1)) ∧
    (∀ i c, rd (board b) i = Some c → c ≠ EMPTY → rd (board b1) i = Some c).
Proof.
  intros Hwf Hlegal. simpl in Hlegal.
  apply andb_prop in Hlegal as [Hpl Hlegal].
  assert (Hplayer : player ≠ EMPTY).
  { apply orb_prop in Hpl as [->%Z.eqb_eq| ->%Z.eqb_eq]; done. }
  destruct (isLegal b x y) as [[|]|] eqn:Hleg; try done.
  destruct (play b x y player) as [b1|] eqn:Hplay; [|done].
  apply isLegal_true in Hleg.
  pose proof (wf_empty_playable b _ Hwf Hleg) as Hp.
  destruct (playable_wr b _ player Hwf Hp) as [a Hwr].
  change (x * 7 + y + 8) with (XY_TO_POS x y) in *.
  rewrite (play_Some b x y player a Hwr) in Hplay. injection Hplay as <-.
  assert (Hcells : ∀ u v w z,
    board (if player =? P1 then mkBoard a u v else mkBoard a w z) = a)
    by (intros; by destruct (player =? P1)).
  eexists. split; [done|]. rewrite Hcells. split.
  { pose proof (wf_wr b _ player a Hwf Hp Hwr) as Hwf'.
    unfold wf_board in *. rewrite Hcells. exact Hwf'. }
  split; [done|]. split.
  { by apply (empties_wr _ _ _ _ (wf_length b Hwf) Hleg Hplayer Hwr). }
  intros i c Hi Hc. rewrite (rd_wr_ne _ _ _ _ i Hwr); [done|].
  intros <-. congruence.
Qed.

Lemma run_plays_consume calls :
  ∀ b, wf_board b = true → legal_plays b calls = true →
  ∃ b', run_plays b calls = Some b' ∧ wf_board b' = true ∧
    (empties (board b') + length calls = empties (board b))%nat ∧
    (∀ i c, rd (board b) i = Some c → c ≠ EMPTY → rd (board b') i = Some c).
Proof.
  induction calls as [|[[x y] player] rest IH]; intros b Hwf Hlegal.
  - exists b. simpl. repeat split; try done; lia.
  - destruct (legal_play_step b x y player rest Hwf Hlegal)
      as (b1 & Hplay & Hwf1 & Hrest & Hemp & Hkeep).
    destruct (IH b1 Hwf1 Hrest) as (b' & Hrun & Hwf' & Hcount & Hkeep').
    exists b'. split; [simpl; rewrite Hplay; done|]. split; [done|].
    split; [simpl; lia|]. intros i c Hi Hc. apply Hkeep'; [|done].
    by apply Hkeep.
Qed.

(** X7. Along any sequence of [play] calls made for P1 or P2 on cells
    that [isLegal] reports Empty, starting from any well-formed board:
    every call consumes exactly one Empty cell, so the sequence is no
    longer than the number of Empty cells it started with, and a cell that
    is not Empty never changes again. *)
Theorem legal_plays_consume b calls :
  wf_board b = true → legal_plays b calls = true →
  ∃ b', run_plays b calls = Some b' ∧ wf_board b' = true ∧
    (empties (board b') + length calls = empties (board b))%nat ∧
    (length calls ≤ empties (board b))%nat ∧
    (∀ i c, rd (board b) i = Some c → c ≠ EMPTY → rd (board b') i = Some c).
Proof.
  intros Hwf Hlegal.
  destruct (run_plays_consume calls b Hwf Hlegal) as (b' & ? & ? & ? & ?).
  exists b'. repeat split; try done; lia.
Qed.

Lemma legal_plays_consume_witness :
  ∃ b', run_plays fresh_board [(0, 0, P1); (0, 1, P2); (1, 0, P1)] = Some b' ∧
    wf_board b' = true ∧
    (empties (board b') + length [(0, 0, P1); (0, 1, P2); (1, 0, P1)]
     = empties (board fresh_board))%nat ∧
    (length [(0, 0, P1); (0, 1, P2); (1, 0, P1)]
     ≤ empties (board fresh_board))%nat ∧
    (∀ i c, rd (board fresh_board) i = Some c → c ≠ EMPTY →
            rd (board b') i = Some c).
Proof.
  apply (legal_plays_consume fresh_board
           [(0, 0, P1); (0, 1, P2); (1, 0, P1)]); reflexivity.
Defined.

Lemma hasLost_keep b b' pos :
  length (board b) = CELLS → length (board b') = CELLS →
  playable pos = true →
  (∀ i c, rd (board b) i = Some c → c ≠ EMPTY → rd (board b') i = Some c) →
  hasLost b pos = Some true → hasLost b' pos = Some true.
Proof.
  intros Hl Hl' Hp Hkeep Hlost.
  destruct (hasLost_playable b pos Hl Hp) as (r & Hr & Hiff).
  destruct (hasLost_playable b' pos Hl' Hp) as (r' & Hr' & Hiff').
  rewrite Hlost in Hr. injection Hr as <-. rewrite Hr'. f_equal.
  apply Hiff'. intros d Hd.
  destruct (proj1 Hiff eq_refl d Hd) as (c & Hc & Hne).
  exists c. split; [|done]. by apply Hkeep.
Qed.

(** X8. A token that has lost stays lost: if [hasLost] holds for an inner
    position on a well-formed board, it still holds after any further
    sequence of legal [play] calls. *)
Theorem hasLost_stable b calls pos :
  wf_board b = true → legal_plays b calls = true → playable pos = true →
  hasLost b pos = Some true →
  ∃ b', run_plays b calls = Some b' ∧ hasLost b' pos = Some true.
Proof.
  intros Hwf Hlegal Hp Hlost.
  destruct (run_plays_consume calls b Hwf Hlegal)
    as (b' & Hrun & Hwf' & _ & Hkeep).
  exists b'. split; [done|].
  apply (hasLost_keep b b' pos); try done; by apply wf_length.
Qed.

Lemma hasLost_stable_witness :
  ∃ b', run_plays board_isolated [(2, 2, P1); (3, 3, P2)] = Some b' ∧
        hasLost b' 8 = Some true.
Proof.
  apply (hasLost_stable board_isolated [(2, 2, P1); (3, 3, P2)] 8);
    reflexivity.
Defined.

(** ** Move generation *)

Lemma ray_cells_S n a move p :
  ray_cells (S n) a move p =
  match rd a (p + move) with
  | Some c => if c =? EMPTY then (p + move) :: ray_cells n a move (p + move)
              else []
  | None => []
  end.
Proof. reflexivity. Qed.

Lemma on_ray_snoc a move o p :
  on_ray a move o p → rd a (p + move) = Some EMPTY →
  on_ray a move o (p + move).
Proof.
  induction 1 as [o H|o p H Hray IH]; intros Hp.
  - apply on_ray_next; [done|]. by apply on_ray_here.
  - apply on_ray_next; [done|]. by apply IH.
Qed.

Lemma on_ray_first a move o p : on_ray a move o p → rd a (o + move) = Some EMPTY.
Proof. by destruct 1. Qed.

Lemma on_ray_empty a move o p : on_ray a move o p → rd a p = Some EMPTY.
Proof. induction 1; done. Qed.

Lemma ray_cells_on_ray a move n :
  ∀ p x, x ∈ ray_cells n a move p → on_ray a move p x.
Proof.
  induction n as [|n IH]; intros p x Hx; [by apply elem_of_nil in Hx|].
  rewrite ray_cells_S in Hx.
  destruct (rd a (p + move)) as [c|] eqn:Hc; [|by apply elem_of_nil in Hx].
  destruct (c =? EMPTY) eqn:Ec; [|by apply elem_of_nil in Hx].
  apply Z.eqb_eq in Ec. subst c.
  apply elem_of_cons in Hx as [->|Hx].
  - by apply on_ray_here.
  - apply on_ray_next; [done|]. by apply IH.
Qed.

Lemma on_ray_ray_cells b move p x :
  wf_board b = true → move ∈ MOVES →
  on_ray (board b) move p x → playable p = true →
  ∀ n, (ring_dist 7 move p ≤ n)%nat → x ∈ ray_cells n (board b) move p.
Proof.
  intros Hwf Hm. induction 1 as [o H|o p H Hray IH]; intros Hp n Hn.
  - pose proof (ring_dist_pos move o Hp Hm).
    destruct n as [|n]; [lia|]. rewrite ray_cells_S, H. simpl. by left.
  - pose proof (wf_empty_playable b _ Hwf H) as Hp'.
    destruct (ray_step o move Hp Hm) as [_ [Hring|[_ Hlt]]].
    { apply playable_range in Hp' as [_ ?]. congruence. }
    destruct n as [|n]; [lia|]. rewrite ray_cells_S, H. simpl. right.
    apply IH; [done | lia].
Qed.

(** The destinations of one ray move are the cells some ray reaches
    through Empty cells. *)
Lemma elem_of_destinations b p x :
  wf_board b = true → playable p = true →
  x ∈ destinations (board b) p ↔ ∃ move, move ∈ MOVES ∧ on_ray (board b) move p x.
Proof.
  intros Hwf Hp. unfold destinations.
  rewrite list_elem_of_In, in_flat_map. split.
  - intros (m & Hm & Hx). exists m. split; [by apply list_elem_of_In|].
    eapply ray_cells_on_ray. apply list_elem_of_In. exact Hx.
  - intros (m & Hm & Hray). exists m. split; [by apply list_elem_of_In|].
    apply list_elem_of_In. apply on_ray_ray_cells; try done.
    pose proof (ring_dist_le 7 m p). rewrite RAY_FUEL_eq. lia.
Qed.

Lemma destination_empty b p x :
  wf_board b = true → playable p = true →
  x ∈ destinations (board b) p →
  rd (board b) x = Some EMPTY ∧ playable x = true.
Proof.
  intros Hwf Hp (m & _ & Hray)%elem_of_destinations; [|done..].
  pose proof (on_ray_empty _ _ _ _ Hray) as Hx.
  split; [done|]. by eapply wf_empty_playable.
Qed.

(** X9. On a well-formed board, [hasLost] holds for an inner position
    exactly when move generation finds no destination from it: testing
    the eight neighbours is the same as having no ray move at all. *)
Theorem hasLost_iff_no_destination b pos :
  wf_board b = true → playable pos = true →
  (hasLost b pos = Some true ↔ destinations (board b) pos = []) ∧
  (hasLost b pos = Some false ↔ destinations (board b) pos ≠ []).
Proof.
  intros Hwf Hp.
  destruct (hasLost_playable b pos (wf_length b Hwf) Hp) as (r & Hr & Hiff).
  assert (Hcase : r = true ↔ destinations (board b) pos = []).
  { rewrite Hiff. split.
    - intros Hall. apply elem_of_nil_inv. intros x Hx.
      apply elem_of_destinations in Hx as (m & Hm & Hray); [|done..].
      apply on_ray_first in Hray.
      destruct (Hall m Hm) as (c & Hc & Hne). congruence.
    - intros Hnil d Hd.
      destruct (neighbours_readable b pos (wf_length b Hwf) Hp d Hd)
        as [c Hc].
      exists c. split; [done|]. intros ->.
      assert (Hin : (pos + d) ∈ destinations (board b) pos).
      { apply elem_of_destinations; [done..|]. exists d. split; [done|].
        by apply on_ray_here. }
      rewrite Hnil in Hin. by apply elem_of_nil in Hin. }
  rewrite Hr. split.
  - rewrite <- Hcase. split; [by intros [= ->] | by intros ->].
  - split.
    + intros [= ->] Hnil. apply Hcase in Hnil. done.
    + intros Hne. destruct r; [|done]. exfalso. apply Hne. by apply Hcase.
Qed.

Lemma hasLost_iff_no_destination_witness :
  (hasLost board_isolated 8 = Some true
   ↔ destinations (board board_isolated) 8 = []) ∧
  (hasLost board_isolated 8 = Some false
   ↔ destinations (board board_isolated) 8 ≠ []).
Proof. apply (hasLost_iff_no_destination board_isolated 8); reflexivity. Defined.

(** ** What the flood fill discovers *)

Lemma sum_over_ext f g l :
  (∀ x, x ∈ l → g x = f x) → sum_over g l = sum_over f l.
Proof.
  induction l as [|x l IH]; intros H; simpl; [done|].
  rewrite (H x) by (by left). rewrite IH; [done|].
  intros y Hy. apply H. by right.
Qed.

Lemma sum_over_flip f g l p :
  NoDup l → p ∈ l → (∀ x, x ≠ p → g x = f x) →
  sum_over g l = sum_over f l + (g p - f p).
Proof.
  intros Hnd Hin Hoth.
  induction l as [|x l IH]; [by apply elem_of_nil in Hin|].
  apply NoDup_cons in Hnd as [Hx Hnd]. simpl.
  destruct (decide (x = p)) as [->|Hne].
  - rewrite (sum_over_ext f g l); [lia|].
    intros y Hy. apply Hoth. intros ->. done.
  - apply elem_of_cons in Hin as [->|Hin]; [done|].
    rewrite (Hoth x) by done. rewrite (IH Hnd Hin). lia.
Qed.

Lemma sum_over_app f l1 l2 :
  sum_over f (l1 ++ l2) = sum_over f l1 + sum_over f l2.
Proof. induction l1 as [|x l1 IH]; simpl; [done|]. rewrite IH. lia. Qed.

Lemma sum_over_const f c l :
  (∀ x, x ∈ l → f x = c) → sum_over f l = c * Z.of_nat (length l).
Proof.
  induction l as [|x l IH]; intros H; simpl length; simpl sum_over; [lia|].
  rewrite (H x) by (by left). rewrite IH; [lia|].
  intros y Hy. apply H. by right.
Qed.

Lemma seenb_true steps p :
  seenb steps p = true ↔ ∃ s, rd steps p = Some s ∧ s ≠ -1.
Proof.
  unfold seenb. destruct (rd steps p) as [s|]; split.
  - intros H%negb_true_iff%Z.eqb_neq. eauto.
  - intros (s' & [= <-] & Hne). by apply negb_true_iff, Z.eqb_neq.
  - done.
  - by intros (s' & ? & _).
Qed.

Lemma seen_wr steps p step steps' :
  length steps = CELLS → rd steps p = Some (-1) → step ≠ -1 →
  wr steps p step = Some steps' →
  seen_count steps' = seen_count steps + 1 ∧
  steps_total steps' = steps_total steps + step.
Proof.
  intros Hl Hs Hstep Hwr.
  assert (Hpos : p ∈ positions).
  { apply elem_of_positions. apply rd_Some_range in Hs.
    rewrite Hl in Hs. unfold CELLS in Hs. lia. }
  split.
  - unfold seen_count.
    rewrite (count_if_flip (seenb steps') (seenb steps) positions p);
      [lia | apply positions_NoDup | done | | |].
    + unfold seenb. rewrite (rd_wr_eq _ _ _ _ Hwr).
      by apply negb_true_iff, Z.eqb_neq.
    + unfold seenb. rewrite Hs. done.
    + intros x Hx. unfold seenb.
      rewrite (rd_wr_ne _ _ _ _ x Hwr) by congruence. done.
  - unfold steps_total.
    rewrite (sum_over_flip (stepval steps) (stepval steps') positions p);
      [| apply positions_NoDup | done |].
    + unfold stepval. rewrite (rd_wr_eq _ _ _ _ Hwr), Hs.
      apply Z.eqb_neq in Hstep. rewrite Hstep. simpl. lia.
    + intros x Hx. unfold stepval.
      rewrite (rd_wr_ne _ _ _ _ x Hwr) by congruence. done.
Qed.

Lemma flood_adds_nil R step q steps :
  length steps = CELLS → flood_adds R step q steps q steps [].
Proof.
  intros Hl. unfold flood_adds. rewrite app_nil_r. simpl.
  split; [done|]. split; [done|]. split; [constructor|].
  split; [by intros x Hx%elem_of_nil|]. split; [done|]. lia.
Qed.

Lemma flood_adds_seen R step q steps q' steps' new x :
  step ≠ -1 → flood_adds R step q steps q' steps' new →
  seenb steps x = true → seenb steps' x = true.
Proof.
  intros Hstep (_ & _ & _ & Hnew & Hold & _) Hx.
  destruct (decide (x ∈ new)) as [Hin|Hout].
  - destruct (Hnew x Hin) as (_ & _ & H'). apply seenb_true. eauto.
  - unfold seenb in *. rewrite (Hold x Hout). done.
Qed.

(** Two additions in a row are one addition. *)
Lemma flood_adds_app R step q steps q1 steps1 new1 q2 steps2 new2 :
  step ≠ -1 →
  flood_adds R step q steps q1 steps1 new1 →
  flood_adds R step q1 steps1 q2 steps2 new2 →
  flood_adds R step q steps q2 steps2 (new1 ++ new2).
Proof.
  intros Hstep (Hq1 & Hl1 & Hnd1 & Hnew1 & Hold1 & Hc1 & Ht1)
    (Hq2 & Hl2 & Hnd2 & Hnew2 & Hold2 & Hc2 & Ht2).
  assert (Hdisj : ∀ x, x ∈ new1 → x ∉ new2).
  { intros x H1 H2. destruct (Hnew1 x H1) as (_ & _ & Ha).
    destruct (Hnew2 x H2) as (_ & Hb & _). congruence. }
  unfold flood_adds. split; [rewrite Hq2, Hq1; by rewrite app_assoc|].
  split; [done|]. split.
  { apply NoDup_app. split; [done|]. split; [done|done]. }
  split.
  { intros x [H1|H2]%elem_of_app.
    - destruct (Hnew1 x H1) as (? & ? & ?). repeat split; try done.
      rewrite (Hold2 x (Hdisj x H1)). done.
    - destruct (Hnew2 x H2) as (? & Hb & ?). repeat split; try done.
      rewrite <- Hb. symmetry. apply Hold1. intros H1.
      by apply (Hdisj x H1). }
  split.
  { intros x Hx. rewrite elem_of_app in Hx.
    rewrite Hold2, Hold1; [done | tauto | tauto]. }
  rewrite length_app. lia.
Qed.

Lemma flood_adds_weaken (R R' : Z → Prop) step q steps q' steps' new :
  (∀ x, R x → R' x) → flood_adds R step q steps q' steps' new →
  flood_adds R' step q steps q' steps' new.
Proof.
  intros HR (? & ? & ? & Hnew & ?). split; [done|]. split; [done|].
  split; [done|]. split; [|done].
  intros x Hx. destruct (Hnew x Hx) as (? & ? & ?). auto.
Qed.

Section FloodTrace.
Variable b : Board.
Hypothesis Hwf : wf_board b = true.

Lemma flood_ray_trace (o move step : Z) :
  move ∈ MOVES → step ≠ -1 →
  ∀ (n : nat) (p : Z) (q steps q' steps' : list Z),
    length steps = CELLS → playable p = true →
    (p = o ∨ on_ray (board b) move o p) →
    flood_ray n b move step p q steps = Some (q', steps') →
    ∃ new,
      flood_adds (on_ray (board b) move o) step q steps q' steps' new ∧
      ∃ c, rd (board b) (p + move) = Some c ∧
           (c = EMPTY → seenb steps' (p + move) = true).
Proof.
  intros Hm Hstep n.
  induction n as [|n IH]; intros p q steps q' steps' Hl Hp Hray Hrun;
    [done|].
  simpl in Hrun.
  destruct (rd (board b) (p + move)) as [cell|] eqn:Hcell; [|done].
  simpl in Hrun.
  destruct (cell =? EMPTY) eqn:Ecell; simpl in Hrun.
  2: { injection Hrun as <- <-. exists []. split; [by apply flood_adds_nil|].
       exists cell. split; [done|]. intros ->. done. }
  apply Z.eqb_eq in Ecell. subst cell.
  destruct (rd steps (p + move)) as [s|] eqn:Hs; [|done].
  simpl in Hrun.
  destruct (s =? -1) eqn:Es; simpl in Hrun.
  2: { injection Hrun as <- <-. exists []. split; [by apply flood_adds_nil|].
       exists EMPTY. split; [done|]. intros _. unfold seenb.
       rewrite Hs, Es. done. }
  apply Z.eqb_eq in Es. subst s.
  destruct (wr steps (p + move) step) as [steps1|] eqn:Hwr; [|done].
  simpl in Hrun.
  assert (Hray' : on_ray (board b) move o (p + move)).
  { destruct Hray as [->|Hray]; [by apply on_ray_here|by apply on_ray_snoc]. }
  pose proof (wf_empty_playable b _ Hwf Hcell) as Hp'.
  pose proof (wr_length _ _ _ _ Hwr) as Hl1.
  destruct (IH (p + move) (q ++ [p + move]) steps1 q' steps')
    as (new & Hadds & _); [congruence | done | by right | done |].
  destruct (seen_wr steps (p + move) step steps1 Hl Hs Hstep Hwr)
    as [Hcount Htotal].
  assert (Hfirst : flood_adds (on_ray (board b) move o) step q steps
                     (q ++ [p + move]) steps1 [p + move]).
  { split; [done|]. split; [congruence|].
    split; [apply NoDup_singleton|]. split.
    { intros x ->%list_elem_of_singleton. split; [done|].
      split; [done|]. by eapply rd_wr_eq. }
    split.
    { intros x Hx. apply (rd_wr_ne _ _ _ _ x Hwr). intros <-.
      apply Hx. by left. }
    simpl. lia. }
  exists ([p + move] ++ new). split.
  { by eapply flood_adds_app. }
  exists EMPTY. split; [done|]. intros _.
  eapply flood_adds_seen; [exact Hstep | exact Hadds |].
  apply seenb_true. exists step. split; [by eapply rd_wr_eq|done].
Qed.

Lemma flood_dirs_trace (pos step : Z) :
  step ≠ -1 → playable pos = true →
  ∀ (moves : list Z) (q steps q' steps' : list Z),
    moves ⊆ MOVES → length steps = CELLS →
    flood_dirs b step pos moves q steps = Some (q', steps') →
    ∃ new,
      flood_adds (λ x, x ∈ destinations (board b) pos) step
                 q steps q' steps' new ∧
      ∀ move, move ∈ moves →
        ∃ c, rd (board b) (pos + move) = Some c ∧
             (c = EMPTY → seenb steps' (pos + move) = true).
Proof.
  intros Hstep Hp moves.
  induction moves as [|m moves IH]; intros q steps q' steps' Hsub Hl Hrun;
    simpl in Hrun.
  { injection Hrun as <- <-. exists []. split; [by apply flood_adds_nil|].
    by intros m Hm%elem_of_nil. }
  destruct (flood_ray RAY_FUEL b m step pos q steps) as [[q1 steps1]|] eqn:Hray;
    [|done].
  simpl in Hrun.
  assert (Hm : m ∈ MOVES) by (apply Hsub; by left).
  destruct (flood_ray_trace pos m step Hm Hstep RAY_FUEL pos q steps q1 steps1)
    as (new1 & Hadds1 & Hclosed1); [done | done | by left | done |].
  destruct (IH q1 steps1 q' steps') as (new2 & Hadds2 & Hclosed2).
  { intros x Hx. apply Hsub. by right. }
  { apply Hadds1. }
  { done. }
  exists (new1 ++ new2). split.
  - eapply flood_adds_app; [done | | exact Hadds2].
    eapply flood_adds_weaken; [|exact Hadds1].
    intros x Hx. apply elem_of_destinations; [done..|]. eauto.
  - intros d [->|Hd]%elem_of_cons; [|by apply Hclosed2].
    destruct Hclosed1 as (c & Hc & Hseen). exists c. split; [done|].
    intros Hc0. eapply flood_adds_seen; [exact Hstep | exact Hadds2 | auto].
Qed.

End FloodTrace.

Lemma stepval_seen steps p s :
  rd steps p = Some s → s ≠ -1 → stepval steps p = s.
Proof.
  intros H Hne. unfold stepval. rewrite H.
  apply Z.eqb_neq in Hne. by rewrite Hne.
Qed.

(** One iteration of the outer loop keeps the invariant. *)
Lemma flood_inv_step b start pos q steps tc ts s q' steps' :
  wf_board b = true →
  flood_inv (board b) start (mkFlood (pos :: q) steps tc ts) →
  rd steps pos = Some s →
  flood_dirs b (s + 1) pos MOVES q steps = Some (q', steps') →
  flood_inv (board b) start (mkFlood q' steps' (tc + 1) (ts + s)).
Proof.
  intros Hwf (Hl & Hsound & Hclosed & Hnd & Hq & Hstart & Hcount & Hsum)
    Hs Hrun.
  simpl in *.
  assert (Hpos : seenb steps pos = true) by (apply Hq; by left).
  apply seenb_true in Hpos as (s' & Hs' & Hne).
  assert (s' = s) by congruence. subst s'.
  destruct (Hsound pos s Hs Hne) as (Hs0 & Hp & Hpath).
  assert (Hstep : s + 1 ≠ -1) by lia.
  destruct (flood_dirs_trace b Hwf pos (s + 1) Hstep Hp MOVES q steps q' steps')
    as (new & Hadds & Hfirst); [done..|].
  pose proof Hadds as (Hq' & Hl' & Hndn & Hnew & Hold & Hc' & Ht').
  apply NoDup_cons in Hnd as [Hposq Hndq].
  assert (Hdisj : ∀ x, x ∈ new → seenb steps x = false).
  { intros x Hx. destruct (Hnew x Hx) as (_ & Hx1 & _).
    unfold seenb. rewrite Hx1. done. }
  assert (Hmono : ∀ x, seenb steps x = true → seenb steps' x = true)
    by (intros x; by eapply flood_adds_seen).
  split; [done|]. split; [|split; [|split; [|split; [|split; [|split]]]]];
    simpl.
  - intros p sp Hp' Hnep. destruct (decide (p ∈ new)) as [Hin|Hout].
    + destruct (Hnew p Hin) as (Hdest & _ & Hval).
      assert (sp = s + 1) by congruence. subst sp.
      split; [lia|].
      split; [by eapply destination_empty|].
      replace (Z.to_nat (s + 1)) with (S (Z.to_nat s)) by lia.
      by eapply ray_path_S.
    + rewrite (Hold p Hout) in Hp'. by apply Hsound.
  - intros p Hseen Hnotin m Hm. subst q'.
    rewrite elem_of_app in Hnotin.
    assert (Hpn : p ∉ new) by tauto.
    assert (Hseen0 : seenb steps p = true).
    { unfold seenb in *. by rewrite <- (Hold p Hpn). }
    destruct (decide (p = pos)) as [->|Hnp]; [by apply Hfirst|].
    destruct (Hclosed p Hseen0) with (move := m) as (c & Hc & Hcs); [|done|].
    { intros [->|Hin]%elem_of_cons; tauto. }
    exists c. split; [done|]. auto.
  - subst q'. apply NoDup_app. split; [done|]. split; [|done].
    intros x Hx Hx'. pose proof (Hdisj x Hx').
    assert (seenb steps x = true) by (apply Hq; by right). congruence.
  - subst q'. intros p [Hp'|Hp']%elem_of_app.
    + apply Hmono, Hq. by right.
    + destruct (Hnew p Hp') as (_ & _ & Hval). apply seenb_true. eauto.
  - by apply Hmono.
  - subst q'. rewrite length_app. lia.
  - subst q'. rewrite sum_over_app.
    rewrite (sum_over_ext (stepval steps) (stepval steps') q).
    2: { intros x Hx. unfold stepval. rewrite Hold; [done|].
         intros Hx'. pose proof (Hdisj x Hx').
         assert (seenb steps x = true) by (apply Hq; by right). congruence. }
    rewrite (sum_over_const (stepval steps') (s + 1) new).
    2: { intros x Hx. destruct (Hnew x Hx) as (_ & _ & Hval).
         by apply stepval_seen. }
    rewrite (stepval_seen steps pos s Hs Hne) in Hsum. lia.
Qed.

Lemma flood_loop_inv b start :
  wf_board b = true →
  ∀ (n : nat) (f f' : Flood),
    flood_inv (board b) start f → flood_loop n b f = Some f' →
    flood_inv (board b) start f' ∧ fq f' = [].
Proof.
  intros Hwf n. induction n as [|n IH]; intros [q steps tc ts] f' Hinv Hrun;
    destruct q as [|pos q]; simpl in Hrun; try done;
    try (injection Hrun as <-; split; [exact Hinv | reflexivity]).
  destruct (rd steps pos) as [s|] eqn:Hs; [|done]. simpl in Hrun.
  destruct (flood_dirs b (s + 1) pos MOVES q steps) as [[q' steps']|] eqn:Hd;
    [|done].
  simpl in Hrun. apply (IH _ _ (flood_inv_step _ _ _ _ _ _ _ _ _ _ Hwf Hinv Hs Hd)).
  exact Hrun.
Qed.

Lemma rd_replicate n v i x : rd (replicate n v) i = Some x → x = v.
Proof.
  unfold rd. destruct ((0 <=? i) && _); [|done].
  intros [? _]%lookup_replicate. done.
Qed.

Lemma flood_inv_init b start steps :
  playable start = true →
  wr (replicate CELLS (-1)) start 0 = Some steps →
  flood_inv (board b) start (mkFlood [start] steps 0 0).
Proof.
  intros Hp Hwr.
  assert (Hl0 : length (replicate CELLS (-1)) = CELLS)
    by apply length_replicate.
  assert (Hs0 : rd (replicate CELLS (-1)) start = Some (-1)).
  { destruct (rd_in_range (replicate CELLS (-1)) start) as [v Hv].
    { apply wr_Some in Hwr. tauto. }
    by rewrite Hv, (rd_replicate _ _ _ _ Hv). }
  destruct (seen_wr _ start 0 steps Hl0 Hs0 ltac:(done) Hwr) as [Hc Ht].
  assert (Hseen : seenb steps start = true).
  { apply seenb_true. exists 0. split; [by eapply rd_wr_eq | done]. }
  split; [simpl; by rewrite (wr_length _ _ _ _ Hwr)|].
  split; [|split; [|split; [|split; [|split; [|split]]]]]; simpl.
  - intros p s Hs Hne. destruct (decide (p = start)) as [->|Hnp].
    + rewrite (rd_wr_eq _ _ _ _ Hwr) in Hs. injection Hs as <-.
      split; [done|]. split; [done|]. constructor.
    + rewrite (rd_wr_ne _ _ _ _ p Hwr) in Hs by done.
      apply rd_replicate in Hs. done.
  - intros p Hs Hnotin. destruct (decide (p = start)) as [->|Hnp].
    + exfalso. apply Hnotin. by left.
    + apply seenb_true in Hs as (s & Hs & Hne).
      rewrite (rd_wr_ne _ _ _ _ p Hwr) in Hs by done.
      apply rd_replicate in Hs. done.
  - apply NoDup_singleton.
  - by intros p ->%list_elem_of_singleton.
  - done.
  - rewrite Hc. reflexivity.
  - rewrite Ht, (stepval_seen steps start 0) by (by eapply rd_wr_eq || done).
    reflexivity.
Qed.

(** The flood fill returns in a state that satisfies the invariant with
    an empty queue. *)
Lemma flood_final b player :
  wf_board b = true → playable (token_pos b player) = true →
  ∃ f, flood b player = Some f ∧ fq f = [] ∧
    flood_inv (board b) (token_pos b player) f.
Proof.
  intros Hwf Hp.
  destruct (flood_total b player Hwf Hp) as (f & Hf & _).
  exists f. split; [done|].
  unfold flood in Hf. fold (token_pos b player) in Hf.
  destruct (wr (replicate CELLS (-1)) (token_pos b player) 0)
    as [steps|] eqn:Hwr; [|done].
  simpl in Hf.
  destruct (flood_loop_inv b (token_pos b player) Hwf _ _ f
              (flood_inv_init b _ steps Hp Hwr) Hf) as [Hinv Hq].
  done.
Qed.

(** With an empty queue every cell with a distance is closed under single
    steps, hence under ray moves. *)
Lemma flood_inv_reach b start f :
  wf_board b = true → flood_inv (board b) start f → fq f = [] →
  ∀ n p, ray_path (board b) n start p → seenb (fsteps f) p = true.
Proof.
  intros Hwf (Hl & Hsound & Hclosed & _ & _ & Hstart & _) Hq.
  assert (Hstep : ∀ x r, seenb (fsteps f) x = true →
                         r ∈ destinations (board b) x →
                         seenb (fsteps f) r = true).
  { intros x r Hx Hdest.
    apply seenb_true in Hx as Hx'. destruct Hx' as (sx & Hsx & Hnex).
    destruct (Hsound x sx Hsx Hnex) as (_ & Hpx & _).
    apply elem_of_destinations in Hdest as (m & Hm & Hray); [|done..].
    clear Hsx Hnex Hpx sx. induction Hray as [o Ho|o p' Ho Hray IHray].
    - destruct (Hclosed o Hx) with (move := m) as (c & Hc & Hs); [|done|].
      { rewrite Hq. apply not_elem_of_nil. }
      apply Hs. congruence.
    - apply IHray.
      destruct (Hclosed o Hx) with (move := m) as (c & Hc & Hs); [|done|].
      { rewrite Hq. apply not_elem_of_nil. }
      apply Hs. congruence. }
  assert (Hall : ∀ n s p, ray_path (board b) n s p →
                          seenb (fsteps f) s = true →
                          seenb (fsteps f) p = true).
  { intros n s p Hpath. induction Hpath as [|n s x r Hpath IH Hdest];
      [done|]. intros Hs. by apply (Hstep x r (IH Hs)). }
  intros n p Hpath. by apply (Hall n start p).
Qed.

(** X10. On a well-formed board with the token on an inner cell, the
    flood fill gives a distance to exactly the cells that ray moves reach
    from the token: its own cell and every Empty cell connected to it. *)
Theorem flood_reaches_exactly b player :
  wf_board b = true → playable (token_pos b player) = true →
  ∃ f, flood b player = Some f ∧
    ∀ p, (∃ s, rd (fsteps f) p = Some s ∧ s ≠ -1) ↔
         (∃ n, ray_path (board b) n (token_pos b player) p).
Proof.
  intros Hwf Hp. destruct (flood_final b player Hwf Hp) as (f & Hf & Hq & Hinv).
  exists f. split; [done|]. intros p. split.
  - intros (s & Hs & Hne). destruct Hinv as (_ & Hsound & _).
    destruct (Hsound p s Hs Hne) as (_ & _ & Hpath). eauto.
  - intros (n & Hpath). apply seenb_true.
    by eapply flood_inv_reach.
Qed.

Lemma flood_reaches_exactly_witness :
  ∃ f, flood board_opening P1 = Some f ∧
    ∀ p, (∃ s, rd (fsteps f) p = Some s ∧ s ≠ -1) ↔
         (∃ n, ray_path (board board_opening) n (token_pos board_opening P1) p).
Proof. apply (flood_reaches_exactly board_opening P1); reflexivity. Defined.

(** X11. Every distance the flood fill records is the length of an actual
    sequence of ray moves from the token to the cell, so it is never less
    than the shortest one; distance 0 is recorded for the token's cell
    only. *)
Theorem flood_distance_is_path b player :
  wf_board b = true → playable (token_pos b player) = true →
  ∃ f, flood b player = Some f ∧
    ∀ p s, rd (fsteps f) p = Some s → s ≠ -1 →
      0 ≤ s ∧ ray_path (board b) (Z.to_nat s) (token_pos b player) p ∧
      (s = 0 ↔ p = token_pos b player).
Proof.
  intros Hwf Hp. destruct (flood_final b player Hwf Hp) as (f & Hf & Hq & Hinv).
  destruct (flood_total b player Hwf Hp) as (f' & Hf' & _ & _ & _ & _ & H0).
  assert (f' = f) by congruence. subst f'.
  exists f. split; [done|]. intros p s Hs Hne.
  destruct Hinv as (_ & Hsound & _).
  destruct (Hsound p s Hs Hne) as (Hs0 & _ & Hpath).
  split; [done|]. split; [done|]. split.
  - intros ->. inversion Hpath. done.
  - intros ->. congruence.
Qed.

Lemma flood_distance_is_path_witness :
  ∃ f, flood board_opening P1 = Some f ∧
    ∀ p s, rd (fsteps f) p = Some s → s ≠ -1 →
      0 ≤ s ∧
      ray_path (board board_opening) (Z.to_nat s)
               (token_pos board_opening P1) p ∧
      (s = 0 ↔ p = token_pos board_opening P1).
Proof. apply (flood_distance_is_path board_opening P1); reflexivity. Defined.

Lemma cell_score_sum steps l :
  sum_over (cell_score steps) l =
  SCORE_PER_CELL * Z.of_nat (count_if (seenb steps) l)
  - sum_over (stepval steps) l.
Proof.
  induction l as [|x l IH]; simpl; [lia|]. rewrite IH.
  unfold cell_score, stepval, seenb.
  destruct (rd steps x) as [s|]; [|lia].
  destruct (s =? -1); simpl; lia.
Qed.

Lemma cell_score_total steps :
  sum_over (cell_score steps) positions =
  SCORE_PER_CELL * seen_count steps - steps_total steps.
Proof. unfold seen_count, steps_total. apply cell_score_sum. Qed.

(** X12. The two totals of the flood fill are the number of cells that
    got a distance and the sum of these distances, so [dijkstra] returns
    the sum, over the cells with a distance, of [SCORE_PER_CELL] minus the
    distance. *)
Theorem dijkstra_is_sum b player :
  wf_board b = true → playable (token_pos b player) = true →
  ∃ f, flood b player = Some f ∧
    total_cells f = seen_count (fsteps f) ∧
    total_steps f = steps_total (fsteps f) ∧
    dijkstra b player = Some (sum_over (cell_score (fsteps f)) positions).
Proof.
  intros Hwf Hp. destruct (flood_final b player Hwf Hp) as (f & Hf & Hq & Hinv).
  exists f. split; [done|].
  destruct Hinv as (_ & _ & _ & _ & _ & _ & Hc & Ht).
  rewrite Hq in Hc, Ht.
  change (Z.of_nat (length (@nil Z))) with 0 in Hc.
  change (sum_over (stepval (fsteps f)) []) with 0 in Ht.
  split; [lia|]. split; [lia|].
  unfold dijkstra. rewrite Hf. cbn [mbind option_bind]. f_equal.
  rewrite cell_score_total. lia.
Qed.

Lemma dijkstra_is_sum_witness :
  ∃ f, flood board_opening P1 = Some f ∧
    total_cells f = seen_count (fsteps f) ∧
    total_steps f = steps_total (fsteps f) ∧
    dijkstra board_opening P1
      = Some (sum_over (cell_score (fsteps f)) positions).
Proof. apply (dijkstra_is_sum board_opening P1); reflexivity. Defined.

(** ** The move chosen at the root *)

(** The arithmetic of one iteration of the root loops: the window is
    [(-INF, INF)] and [alpha] equals the best score so far. *)
Lemma root_step best vc r :
  best = - INF ∨ ok_val best → ok_val vc →
  failsoft (- INF) (- best) vc r →
  ((-1 * r >? best) = true → -1 * r = - vc) ∧
  ((-1 * r >? best) = false → - vc ≤ best ∧ ok_val best) ∧
  ((if best >=? -1 * r then best else -1 * r) >=? INF) = false ∧
  (if best >=? -1 * r then best else -1 * r)
    = (if -1 * r >? best then -1 * r else best).
Proof.
  intros Hbest Hvc (Hf1 & Hf2 & Hf3).
  rewrite Z.gtb_ltb, !Z.geb_leb. unfold ok_val, INF in *.
  destruct (Z.ltb_spec best (-1 * r)); destruct (Z.leb_spec (-1 * r) best);
    lia.
Qed.

(** The unpruned loops end with a best score that is at least the negated
    value of every move they try. *)
Lemma exhaustive_ray_ge {scorer : Scorer} erec b player pp depth move :
  ∀ n pos m m',
    exhaustive_ray erec n b player pp depth move pos m = Some m' →
    ∀ x a vc, on_ray (board b) move pos x →
      wr (board b) x player = Some a →
      erec (mkBoard a (p1 b) (p2 b)) pp x (depth + 1) = Some vc →
      - vc ≤ m'.
Proof.
  induction n as [|n IH]; intros pos m m' Hex x a vc Hray Hwr Hvc; [done|].
  rewrite exhaustive_ray_S in Hex.
  pose proof (on_ray_first _ _ _ _ Hray) as Hfirst.
  rewrite Hfirst in Hex. cbn [mbind option_bind] in Hex.
  change (negb (EMPTY =? EMPTY)) with false in Hex. cbn iota in Hex.
  destruct (wr (board b) (pos + move) player) as [a1|] eqn:Hwr1; [|done].
  cbn [mbind option_bind] in Hex.
  destruct (erec _ pp (pos + move) (depth + 1)) as [v1|] eqn:Hv1; [|done].
  cbn [mbind option_bind] in Hex.
  inversion Hray as [o Ho|o p Ho Hrest]; subst.
  - rewrite Hwr in Hwr1. injection Hwr1 as <-.
    rewrite Hvc in Hv1. injection Hv1 as <-.
    apply exhaustive_ray_mono in Hex. lia.
  - by apply (IH _ _ _ Hex x a vc).
Qed.

Lemma exhaustive_dirs_ge {scorer : Scorer} erec b player pp depth ap :
  ∀ moves m m',
    exhaustive_dirs erec b player pp depth ap moves m = Some m' →
    ∀ move x a vc, move ∈ moves → on_ray (board b) move ap x →
      wr (board b) x player = Some a →
      erec (mkBoard a (p1 b) (p2 b)) pp x (depth + 1) = Some vc →
      - vc ≤ m'.
Proof.
  induction moves as [|d moves IH]; intros m m' Hex move x a vc Hin Hray Hwr Hvc;
    [by apply elem_of_nil in Hin|].
  cbn [exhaustive_dirs] in Hex.
  destruct (exhaustive_ray erec RAY_FUEL b player pp depth d ap m)
    as [m1|] eqn:Hray1; [|done].
  cbn [mbind option_bind] in Hex.
  apply elem_of_cons in Hin as [->|Hin].
  - pose proof (exhaustive_ray_ge _ _ _ _ _ _ _ _ _ _ Hray1 x a vc Hray Hwr Hvc).
    apply exhaustive_dirs_mono in Hex. lia.
  - by apply (IH _ _ Hex move x a vc).
Qed.

Section RootMove.
Context {scorer : Scorer}.
Variable erec : Board → Z → Z → Z → option Z.
Variable nrec : NegamaxFn.
Hypothesis Hrec : rec_sound erec nrec.
Variable b : Board.
Variables player ap pp depth : Z.
Variable bm0 : Z.
Hypothesis Hwf : wf_board b = true.
Hypothesis Hp1 : playable (p1 b) = true.
Hypothesis Hp2 : playable (p2 b) = true.
Hypothesis Hplayer : player ≠ EMPTY.
Hypothesis Hap : playable ap = true.
Hypothesis Hpp : token_at (board b) pp.
Hypothesis Hdepth : 1 ≤ depth.
Hypothesis Hbudget : depth + Z.of_nat (empties (board b)) ≤ 1000.
Hypothesis Hchild : ∀ e, empties (board b) = S e → node_ok erec e.

Lemma root_ray_sound move :
  move ∈ MOVES →
  ∀ (n : nat) (s : Search) (pos best m : Z) (bm : option Z) m',
    sboard s = b → playable pos = true →
    (pos = ap ∨ on_ray (board b) move ap pos) →
    root_inv erec b player ap pp depth (Some bm0) best m bm →
    exhaustive_ray erec n b player pp depth move pos m = Some m' →
    ∃ s' best' bm',
      negamax_ray nrec n s player pp depth move pos best INF best bm
        = Some (Continue s' best' best' bm') ∧
      sboard s' = b ∧
      root_inv erec b player ap pp depth (Some bm0) best' m' bm'.
Proof.
  intros Hm n.
  induction n as [|n IH]; intros s pos best m bm m' Hs Hpos Hray Hinv Hex;
    [done|].
  rewrite exhaustive_ray_S in Hex. rewrite negamax_ray_S, Hs.
  destruct (rd (board b) (pos + move)) as [cell|] eqn:Hcell; [|done].
  cbn [mbind option_bind] in Hex |- *.
  destruct (cell =? EMPTY) eqn:Ecell; cbn [negb] in Hex |- *.
  2: { injection Hex as <-. by exists s, best, bm. }
  apply Z.eqb_eq in Ecell. subst cell.
  destruct (wr (board b) (pos + move) player) as [a|] eqn:Hwr; [|done].
  cbn [mbind option_bind] in Hex |- *.
  destruct (erec _ pp (pos + move) (depth + 1)) as [vc|] eqn:Hvc; [|done].
  cbn [mbind option_bind] in Hex.
  pose proof (wf_empty_playable b _ Hwf Hcell) as Hpos'.
  assert (Hray' : on_ray (board b) move ap (pos + move)).
  { destruct Hray as [->|Hray]; [by apply on_ray_here|by apply on_ray_snoc]. }
  (* the value of the child is in range *)
  pose proof (empties_wr _ _ _ _ (wf_length b Hwf) Hcell Hplayer Hwr) as Hemp.
  assert (Hokc : ok_val vc).
  { destruct (Hchild _ Hemp (mkBoard a (p1 b) (p2 b)) pp (pos + move)
                (depth + 1)) as (v & Hv & Hok); cbn [board p1 p2];
      try done; try lia.
    - by eapply wf_wr.
    - by eapply token_at_wr_other.
    - by eapply token_at_wr_same.
    - congruence. }
  assert (Hbest : best = - INF ∨ ok_val best).
  { destruct Hinv as [(? & _)|(? & _)]; auto. }
  (* the pruned child *)
  assert (Hsc : sboard (set_cells s a) = mkBoard a (p1 b) (p2 b)).
  { unfold set_cells. rewrite Hs. done. }
  destruct (Hrec (set_cells s a) pp (pos + move) (depth + 1)
              (- INF) (- best) None vc)
    as (r & s2 & bm2 & Hn & Hb2 & Hfs & _).
  { lia. }
  { unfold ok_val, INF in *. lia. }
  { unfold ok_val, INF in *. lia. }
  { rewrite Hsc. exact Hvc. }
  rewrite Hn. cbn [mbind option_bind].
  rewrite Hb2, Hsc. cbn [board].
  destruct (wr a (pos + move) 0) as [a2|] eqn:Hwr2.
  2: { pose proof (wr_Some _ _ _ _ Hwr) as [Hr _].
       pose proof (wr_length _ _ _ _ Hwr) as Hl.
       rewrite (wr_in_range a (pos + move) 0) in Hwr2; [done|].
       rewrite Hl. exact Hr. }
  cbn [mbind option_bind].
  pose proof (wr_undo _ _ _ _ _ _ Hcell Hwr Hwr2) as Ha2. subst a2.
  assert (Hs3 : sboard (set_cells s2 (board b)) = b).
  { unfold set_cells. rewrite Hb2, Hsc. simpl. by destruct b. }
  destruct (root_step best vc r Hbest Hokc Hfs) as (Hup & Hkeep & Hcut & Halpha).
  cbn zeta. rewrite Hcut, Halpha.
  apply (IH (set_cells s2 (board b)) (pos + move) _ (Z.max m (- vc)) _ m');
    try done; [by right|].
  destruct (-1 * r >? best) eqn:E.
  - right. rewrite (Hup eq_refl). split; [unfold ok_val in *; lia|].
    split.
    { specialize (Hup eq_refl). apply Z.gtb_lt in E.
      destruct Hinv as [(-> & -> & _)|(_ & -> & _)]; lia. }
    exists (pos + move), a, vc.
    split.
    { destruct Hinv as [(_ & _ & ->)|(_ & _ & ? & ? & ? & -> & _)]; done. }
    split; [|done].
    apply elem_of_destinations; [done..|]. eauto.
  - destruct (Hkeep eq_refl) as [Hle Hok].
    destruct Hinv as [(-> & _)|(_ & -> & Hbm)].
    { unfold ok_val, INF in Hok. lia. }
    right. split; [done|]. split; [lia|]. done.
Qed.

Lemma root_dirs_sound :
  ∀ (moves : list Z) (s : Search) (best m : Z) (bm : option Z) m',
    moves ⊆ MOVES → sboard s = b →
    root_inv erec b player ap pp depth (Some bm0) best m bm →
    exhaustive_dirs erec b player pp depth ap moves m = Some m' →
    ∃ s' best' bm',
      negamax_dirs nrec s player pp depth ap moves best INF best bm
        = Some (Continue s' best' best' bm') ∧
      sboard s' = b ∧
      root_inv erec b player ap pp depth (Some bm0) best' m' bm'.
Proof.
  induction moves as [|d moves IH]; intros s best m bm m' Hsub Hs Hinv Hex;
    cbn [exhaustive_dirs negamax_dirs] in Hex |- *.
  { injection Hex as <-. by exists s, best, bm. }
  destruct (exhaustive_ray erec RAY_FUEL b player pp depth d ap m)
    as [m1|] eqn:Hray; [|done].
  cbn [mbind option_bind] in Hex.
  destruct (root_ray_sound d) with (n := RAY_FUEL) (s := s) (pos := ap)
    (best := best) (m := m) (bm := bm) (m' := m1)
    as (s1 & best1 & bm1 & Hrun & Hs1 & Hinv1); try done.
  { apply Hsub. by left. }
  { by left. }
  rewrite Hrun. cbn [mbind option_bind].
  apply (IH s1 best1 m1 bm1 m'); try done.
  intros x Hx. apply Hsub. by right.
Qed.

End RootMove.

Lemma node_ok_below {scorer : Scorer} max_depth
    (scorer_ok : ∀ b player,
       wf_board b = true → playable (p1 b) = true → playable (p2 b) = true →
       ∃ v, Scorer_getScore b player = Some v ∧ ok_val v)
    (fuel e : nat) :
  (S e ≤ fuel)%nat → node_ok (exhaustive max_depth fuel) e.
Proof.
  intros Hle. destruct fuel as [|fuel]; [lia|].
  apply (node_ok_le _ fuel); [lia|]. by apply exhaustive_total.
Qed.

Lemma token_pos_opponent b player :
  token_pos b (OPPONENT player) = if player =? P1 then p2 b else p1 b.
Proof. unfold token_pos, OPPONENT. by destruct (player =? P1). Qed.

Lemma both_placed_mover b player :
  both_placed b = true →
  playable (token_pos b player) = true ∧
  rd (board b) (token_pos b player) = Some (mover player) ∧
  token_at (board b) (token_pos b (OPPONENT player)).
Proof.
  intros (Hwf & Hp1 & Hc1 & Hp2 & Hc2)%both_placed_inv.
  rewrite token_pos_opponent. unfold token_pos, mover.
  destruct (player =? P1); (split; [done|]; split; [done|]; split; [done|]).
  - by exists P2.
  - by exists P1.
Qed.

(** With both players placed, the mover not walled in and a search depth
    other than 1, the root call assigns [*best_move]: to a destination
    whose unpruned value is the unpruned value of the root, which no
    other destination exceeds. *)
Lemma getMove_choice b player max_depth fuel :
  both_placed b = true →
  hasLost b (token_pos b player) = Some false → max_depth ≠ 1 →
  (empties (board b) < fuel)%nat →
  ∃ move s a vc,
    @getMove DijkstraScorer fuel b player max_depth = Some (move, s) ∧
    sboard s = b ∧
    move ∈ destinations (board b) (token_pos b player) ∧
    wr (board b) move (mover player) = Some a ∧
    @exhaustive DijkstraScorer max_depth (pred fuel)
      (mkBoard a (p1 b) (p2 b)) (token_pos b (OPPONENT player)) move 2
      = Some vc ∧
    @exhaustive_value DijkstraScorer fuel b player max_depth = Some (- vc) ∧
    (∀ move' a' vc',
       move' ∈ destinations (board b) (token_pos b player) →
       wr (board b) move' (mover player) = Some a' →
       @exhaustive DijkstraScorer max_depth (pred fuel)
         (mkBoard a' (p1 b) (p2 b)) (token_pos b (OPPONENT player)) move' 2
         = Some vc' →
       - vc' ≤ - vc).
Proof.
  intros Hb Hlost Hmd Hfuel.
  pose proof (both_placed_inv b Hb) as (Hwf & Hp1 & Hc1 & Hp2 & Hc2).
  destruct (both_placed_mover b player Hb) as (Hap & Hmark & Hpp).
  destruct fuel as [|fuel]; [lia|]. cbn [pred].
  pose proof (empties_le_49 (board b)) as H49.
  assert (Hmover : mover player ≠ EMPTY)
    by (unfold mover; by destruct (player =? P1)).
  (* the unpruned root *)
  destruct (@exhaustive_total DijkstraScorer max_depth DijkstraScorer_ok fuel
              b (token_pos b player) (token_pos b (OPPONENT player)) 1)
    as (v & Hv & Hok); try done; try lia.
  { split; [done|]. by exists (mover player). }
  pose proof Hv as Hroot.
  rewrite exhaustive_S, Hlost in Hv. cbn [mbind option_bind] in Hv.
  rewrite Hmark in Hv. cbn [mbind option_bind] in Hv.
  assert (Hne : (1 =? max_depth) = false) by (apply Z.eqb_neq; lia).
  rewrite Hne in Hv.
  (* the pruned root *)
  destruct (@root_dirs_sound DijkstraScorer
              (@exhaustive DijkstraScorer max_depth fuel)
              (@negamax DijkstraScorer max_depth fuel)
              (@negamax_sound DijkstraScorer max_depth fuel) b (mover player)
              (token_pos b player) (token_pos b (OPPONENT player)) 1 0
              Hwf Hp1 Hp2 Hmover Hap Hpp ltac:(lia) ltac:(lia))
    with (moves := MOVES) (s := mkSearch b 0) (best := - INF) (m := - INF)
         (bm := Some 0) (m' := v)
    as (s' & best' & bm' & Hrun & Hs' & Hinv); try done.
  { intros e He. apply (@node_ok_below DijkstraScorer _ DijkstraScorer_ok). lia. }
  { by left. }
  destruct Hinv as [(_ & -> & _)|(_ & <- & pos & a & vc & -> & Hdest & Hwr & Hvc & ->)].
  { unfold ok_val, INF in Hok. lia. }
  exists pos, s', a, vc.
  split.
  { unfold getMove. fold (token_pos b player).
    rewrite <- token_pos_opponent.
    rewrite (@negamax_S DijkstraScorer). cbn [sboard]. rewrite Hlost.
    cbn [mbind option_bind]. rewrite Hmark. cbn [mbind option_bind].
    rewrite Hne, Hrun. done. }
  split; [done|]. split; [done|]. split; [done|]. split; [exact Hvc|].
  split.
  { unfold exhaustive_value. fold (token_pos b player).
    rewrite <- token_pos_opponent. exact Hroot. }
  intros move' a' vc' Hdest' Hwr' Hvc'.
  apply elem_of_destinations in Hdest' as (d & Hd & Hray); [|done..].
  by apply (@exhaustive_dirs_ge DijkstraScorer _ _ _ _ _ _ _ _ _ Hv
              d move' a' vc').
Qed.

(** X13. With both players placed, the mover not walled in, a search
    depth other than 1 and more fuel than Empty cells, [getMove] returns a
    legal move that is best for the unpruned search: a destination of a
    ray move from the mover's position whose unpruned value is the root's,
    and no destination has a greater one. *)
Theorem getMove_best_move b player max_depth fuel :
  both_placed b = true →
  hasLost b (token_pos b player) = Some false → max_depth ≠ 1 →
  (empties (board b) < fuel)%nat →
  ∃ move s a vc,
    @getMove DijkstraScorer fuel b player max_depth = Some (move, s) ∧
    move ∈ destinations (board b) (token_pos b player) ∧
    wr (board b) move (mover player) = Some a ∧
    @exhaustive DijkstraScorer max_depth (pred fuel)
      (mkBoard a (p1 b) (p2 b)) (token_pos b (OPPONENT player)) move 2
      = Some vc ∧
    @exhaustive_value DijkstraScorer fuel b player max_depth = Some (- vc) ∧
    (∀ move' a' vc',
       move' ∈ destinations (board b) (token_pos b player) →
       wr (board b) move' (mover player) = Some a' →
       @exhaustive DijkstraScorer max_depth (pred fuel)
         (mkBoard a' (p1 b) (p2 b)) (token_pos b (OPPONENT player)) move' 2
         = Some vc' →
       - vc' ≤ - vc).
Proof.
  intros Hb Hlost Hmd Hfuel.
  destruct (getMove_choice b player max_depth fuel Hb Hlost Hmd Hfuel)
    as (move & s & a & vc & H1 & _ & H2 & H3 & H4 & H5 & H6).
  by exists move, s, a, vc.
Qed.

Lemma getMove_best_move_witness :
  ∃ move s a vc,
    @getMove DijkstraScorer 50 board_endgame P1 3 = Some (move, s) ∧
    move ∈ destinations (board board_endgame) (token_pos board_endgame P1) ∧
    wr (board board_endgame) move (mover P1) = Some a ∧
    @exhaustive DijkstraScorer 3 (pred 50)
      (mkBoard a (p1 board_endgame) (p2 board_endgame))
      (token_pos board_endgame (OPPONENT P1)) move 2 = Some vc ∧
    @exhaustive_value DijkstraScorer 50 board_endgame P1 3 = Some (- vc) ∧
    (∀ move' a' vc',
       move' ∈ destinations (board board_endgame)
                 (token_pos board_endgame P1) →
       wr (board board_endgame) move' (mover P1) = Some a' →
       @exhaustive DijkstraScorer 3 (pred 50)
         (mkBoard a' (p1 board_endgame) (p2 board_endgame))
         (token_pos board_endgame (OPPONENT P1)) move' 2 = Some vc' →
       - vc' ≤ - vc).
Proof.
  apply (getMove_best_move board_endgame P1 3 50);
    [reflexivity | reflexivity | lia | vm_compute; lia].
Defined.

(** ** Matches end *)

Lemma XY_POS_inv pos : XY_TO_POS (POS_TO_X pos) (POS_TO_Y pos) = pos.
Proof.
  unfold XY_TO_POS, POS_TO_X, POS_TO_Y.
  pose proof (Z.quot_rem' (pos - 8) 7). lia.
Qed.

Lemma both_placed_intro b :
  wf_board b = true →
  playable (p1 b) = true → rd (board b) (p1 b) = Some P1 →
  playable (p2 b) = true → rd (board b) (p2 b) = Some P2 →
  both_placed b = true.
Proof.
  intros Hwf H1 Hc1 H2 Hc2. unfold both_placed, placed, token_pos. simpl.
  rewrite Hwf, H1, H2, Hc1, Hc2. done.
Qed.

(** Playing a destination of the mover keeps both players placed and
    consumes one Empty cell. *)
Lemma play_destination b player move :
  both_placed b = true → player = P1 ∨ player = P2 →
  move ∈ destinations (board b) (token_pos b player) →
  ∃ b', play b (POS_TO_X move) (POS_TO_Y move) player = Some b' ∧
    both_placed b' = true ∧ empties (board b) = S (empties (board b')).
Proof.
  intros Hb Hplayer Hdest.
  pose proof (both_placed_inv b Hb) as (Hwf & Hp1 & Hc1 & Hp2 & Hc2).
  assert (Hap : playable (token_pos b player) = true)
    by (destruct Hplayer as [-> | ->]; done).
  destruct (destination_empty b _ move Hwf Hap Hdest) as [Hempty Hpm].
  destruct (playable_wr b move player Hwf Hpm) as [a Hwr].
  assert (Hne : player ≠ EMPTY) by (destruct Hplayer as [-> | ->]; done).
  pose proof (wf_wr b move player a Hwf Hpm Hwr) as Hwf'.
  unfold play. change (POS_TO_X move * 7 + POS_TO_Y move + 8)
    with (XY_TO_POS (POS_TO_X move) (POS_TO_Y move)).
  rewrite XY_POS_inv, Hwr. cbn [mbind option_bind].
  assert (Hother : ∀ x c, rd (board b) x = Some c → c ≠ EMPTY →
                          rd a x = Some c).
  { intros x c Hx Hc. rewrite (rd_wr_ne _ _ _ _ x Hwr); [done|].
    intros <-. congruence. }
  destruct Hplayer as [-> | ->]; cbn [Z.eqb P1 P2 Pos.eqb];
    (eexists; split; [reflexivity|]; split;
     [|by apply (empties_wr _ _ _ _ (wf_length b Hwf) Hempty Hne Hwr)]).
  - apply both_placed_intro; cbn [board p1 p2]; try done.
    + by eapply rd_wr_eq.
    + by apply Hother.
  - apply both_placed_intro; cbn [board p1 p2]; try done.
    + by apply Hother.
    + by eapply rd_wr_eq.
Qed.

Lemma OPPONENT_player player :
  player = P1 ∨ player = P2 → OPPONENT player = P1 ∨ OPPONENT player = P2.
Proof. intros [-> | ->]; [by right | by left]. Qed.

Lemma play_match_loop_ends search_fuel :
  ∀ (fuel : nat) (player : Z) (b : Board) (count : Z),
    both_placed b = true → player = P1 ∨ player = P2 →
    (empties (board b) < fuel)%nat → (empties (board b) < search_fuel)%nat →
    ∃ loser b' n,
      play_match_loop fuel search_fuel player b count
        = Some (loser, b', count + n) ∧
      (loser = P1 ∨ loser = P2) ∧
      hasLost b' (token_pos b' loser) = Some true ∧
      both_placed b' = true ∧
      0 ≤ n ∧ Z.of_nat (empties (board b')) + n = Z.of_nat (empties (board b)).
Proof.
  induction fuel as [|fuel IH]; intros player b count Hb Hplayer Hfuel Hsf;
    [lia|].
  cbn [play_match_loop]. fold (token_pos b player).
  pose proof (both_placed_inv b Hb) as (Hwf & Hp1 & Hc1 & Hp2 & Hc2).
  destruct (both_placed_mover b player Hb) as (Hap & _ & _).
  destruct (hasLost_playable b _ (wf_length b Hwf) Hap) as (lost & Hl & _).
  rewrite Hl. cbn [mbind option_bind].
  destruct lost.
  { exists player, b, 0. rewrite Z.add_0_r. repeat split; try done; lia. }
  destruct (getMove_choice b player 25 search_fuel Hb Hl ltac:(lia) Hsf)
    as (move & s & _ & _ & Hget & Hs & Hdest & _).
  assert (Hboth : (if Z.rem count 2 =? 0
                   then @getMove DijkstraScorer search_fuel b player 25
                   else @getMove DijkstraScorer search_fuel b player 25)
                  = Some (move, s)) by (by destruct (Z.rem count 2 =? 0)).
  rewrite Hboth. cbn [mbind option_bind]. cbn zeta. rewrite Hs.
  destruct (play_destination b player move Hb Hplayer Hdest)
    as (b1 & Hplay & Hb1 & Hemp).
  rewrite Hplay. cbn [mbind option_bind].
  destruct (IH (OPPONENT player) b1 (count + 1) Hb1
              (OPPONENT_player _ Hplayer)) as (loser & b' & n & Hrun & Hrest);
    [lia | lia |].
  exists loser, b', (1 + n). rewrite Hrun.
  split; [f_equal; f_equal; lia|].
  destruct Hrest as (? & ? & ? & ? & ?). repeat split; try done; lia.
Qed.

Lemma play_match_total b player fuel search_fuel :
  both_placed b = true → player = P1 ∨ player = P2 →
  (empties (board b) < fuel)%nat → (empties (board b) < search_fuel)%nat →
  ∃ r, play_match fuel search_fuel player b = Some r ∧
    match_over (Z.of_nat (empties (board b))) r ∧
    both_placed r.1.2 = true.
Proof.
  intros Hb Hplayer Hfuel Hsf.
  destruct (play_match_loop_ends search_fuel fuel player b 0 Hb Hplayer
              Hfuel Hsf) as (loser & b' & n & Hrun & H1 & H2 & H3 & H4 & H5).
  exists (loser, b', 0 + n). split; [done|].
  unfold match_over. simpl. repeat split; try done; lia.
Qed.

(** X14. Started on a board with both players placed, with more turn fuel
    and more search fuel than the board has Empty cells, [play_match]
    ends: it names a loser, who is walled in on the final board; each
    move played has consumed one Empty cell, so there are at most as many
    moves as Empty cells at the start. *)
Theorem play_match_ends b player fuel search_fuel :
  both_placed b = true → player = P1 ∨ player = P2 →
  (empties (board b) < fuel)%nat → (empties (board b) < search_fuel)%nat →
  ∃ r, play_match fuel search_fuel player b = Some r ∧
    match_over (Z.of_nat (empties (board b))) r ∧
    both_placed r.1.2 = true.
Proof. apply play_match_total. Qed.

Lemma play_match_ends_witness :
  ∃ r, play_match 50 50 P1 board_opening = Some r ∧
    match_over (Z.of_nat (empties (board board_opening))) r ∧
    both_placed r.1.2 = true.
Proof.
  apply (play_match_ends board_opening P1 50 50);
    [reflexivity | by left | vm_compute; lia | vm_compute; lia].
Defined.

(** The boards [main] starts its matches on. *)
Lemma main_board_placed i j :
  0 ≤ i ≤ 4 → 0 ≤ j ≤ 4 → (i =? 0) && (j =? 0) = false →
  ∃ b, (b ← play fresh_board 0 0 P1; play b i j P2) = Some b ∧
    both_placed b = true ∧ empties (board b) = 23%nat.
Proof.
  intros Hi Hj Hij.
  assert (His : i = 0 ∨ i = 1 ∨ i = 2 ∨ i = 3 ∨ i = 4) by lia.
  assert (Hjs : j = 0 ∨ j = 1 ∨ j = 2 ∨ j = 3 ∨ j = 4) by lia.
  destruct His as [->|[->|[->|[->| ->]]]];
    destruct Hjs as [->|[->|[->|[->| ->]]]];
    try discriminate Hij;
    (eexists; split; [vm_compute; reflexivity|];
     split; vm_compute; reflexivity).
Qed.

Lemma main_match_over fuel search_fuel mem i j :
  length mem = CELLS → (23 < fuel)%nat → (23 < search_fuel)%nat →
  0 ≤ i ≤ 4 → 0 ≤ j ≤ 4 → (i =? 0) && (j =? 0) = false →
  ∃ r, main_match fuel search_fuel mem i j = Some r ∧ match_over 23 r.
Proof.
  intros Hl Hfuel Hsf Hi Hj Hij. unfold main_match.
  rewrite (Board_ctor_any mem Hl). cbn [mbind option_bind].
  destruct (main_board_placed i j Hi Hj Hij) as (b & Hb & Hplaced & Hemp).
  destruct (play fresh_board 0 0 P1) as [b1|]; [|done].
  cbn [mbind option_bind] in Hb |- *. rewrite Hb. cbn [mbind option_bind].
  destruct (play_match_total b P1 fuel search_fuel Hplaced)
    as (r & Hr & Hover & _); [by left | lia | lia |].
  exists r. split; [done|]. by rewrite Hemp in Hover.
Qed.

Lemma main_cols_over fuel search_fuel mem i :
  length mem = CELLS → (23 < fuel)%nat → (23 < search_fuel)%nat →
  0 ≤ i ≤ 4 →
  ∀ js, (∀ j, j ∈ js → 0 ≤ j ≤ 4) →
  ∃ rs, main_cols fuel search_fuel mem i js = Some rs ∧
    length rs = length (filter (λ j, (i =? 0) && (j =? 0) = false) js) ∧
    Forall (match_over 23) rs.
Proof.
  intros Hl Hfuel Hsf Hi js.
  induction js as [|j js IH]; intros Hjs; cbn [main_cols].
  { exists []. done. }
  destruct IH as (rs & Hrs & Hlen & Hall).
  { intros x Hx. apply Hjs. by right. }
  rewrite filter_cons.
  destruct ((i =? 0) && (j =? 0)) eqn:Hij.
  - rewrite decide_False by done. by exists rs.
  - rewrite decide_True by done.
    destruct (main_match_over fuel search_fuel mem i j Hl Hfuel Hsf Hi)
      as (r & Hr & Hover); [apply Hjs; by left | done |].
    rewrite Hr, Hrs. cbn [mbind option_bind].
    exists (r :: rs). split; [done|]. split; [simpl; lia|].
    by constructor.
Qed.

Lemma main_rows_over fuel search_fuel mem :
  length mem = CELLS → (23 < fuel)%nat → (23 < search_fuel)%nat →
  ∀ rows, (∀ i, i ∈ rows → 0 ≤ i ≤ 4) →
  ∃ rs, main_rows fuel search_fuel mem rows = Some rs ∧
    length rs =
      length (flat_map (λ i, filter (λ j, (i =? 0) && (j =? 0) = false)
                                    [0; 1; 2; 3; 4]) rows) ∧
    Forall (match_over 23) rs.
Proof.
  intros Hl Hfuel Hsf rows.
  induction rows as [|i rows IH]; intros Hrows; cbn [main_rows].
  { exists []. done. }
  destruct IH as (rest & Hrest & Hlen & Hall).
  { intros x Hx. apply Hrows. by right. }
  destruct (main_cols_over fuel search_fuel mem i Hl Hfuel Hsf)
    with (js := [0; 1; 2; 3; 4]) as (rs & Hrs & Hlen' & Hall').
  { apply Hrows. by left. }
  { intros j Hj. repeat (apply elem_of_cons in Hj as [->|Hj]; [lia|]).
    by apply elem_of_nil in Hj. }
  rewrite Hrs, Hrest. cbn [mbind option_bind].
  exists (rs ++ rest). split; [done|]. split.
  - cbn [flat_map]. rewrite !length_app. lia.
  - by apply Forall_app.
Qed.

(** X15. [main] ends and returns 0: whatever the board arrays hold before
    construction, and with more than 23 units of either fuel, each of its
    24 matches (P1 opens on the corner, P2 on any other cell) ends with a
    walled-in loser after at most 23 moves. *)
Theorem main_ends fuel search_fuel mem :
  length mem = CELLS → (23 < fuel)%nat → (23 < search_fuel)%nat →
  ∃ rs, main fuel search_fuel mem = Some (rs, 0) ∧
    length rs = 24%nat ∧ Forall (match_over 23) rs.
Proof.
  intros Hl Hfuel Hsf. unfold main.
  destruct (main_rows_over fuel search_fuel mem Hl Hfuel Hsf [0; 1; 2; 3; 4])
    as (rs & Hrs & Hlen & Hall).
  { intros i Hi. repeat (apply elem_of_cons in Hi as [->|Hi]; [lia|]).
    by apply elem_of_nil in Hi. }
  rewrite Hrs. cbn [mbind option_bind]. exists rs.
  split; [done|]. split; [|done]. rewrite Hlen. reflexivity.
Qed.

Lemma main_ends_witness :
  ∃ rs, main 24 24 (replicate 49 0) = Some (rs, 0) ∧
    length rs = 24%nat ∧ Forall (match_over 23) rs.
Proof. apply (main_ends 24 24 (replicate 49 0)); [reflexivity | lia | lia]. Defined.

(** ** The range of the scores *)

Lemma unseen_le_empties a steps : (unseen a steps ≤ empties a)%nat.
Proof.
  unfold unseen, empties. apply count_if_le. intros x _ Hx.
  unfold is_unseen in Hx. by apply andb_prop in Hx as [Hx _].
Qed.

(** The flood fill counts at most one cell more than the board has Empty
    cells. *)
Lemma flood_cells_le b player :
  wf_board b = true → playable (token_pos b player) = true →
  ∃ f, flood b player = Some f ∧
    1 ≤ total_cells f ≤ 1 + Z.of_nat (empties (board b)) ∧
    0 ≤ total_steps f.
Proof.
  intros Hwf Hp. unfold flood. fold (token_pos b player).
  pose proof (playable_range _ Hp) as [Hr _].
  set (pos := token_pos b player) in *.
  assert (Hwr : wr (replicate CELLS (-1)) pos 0 =
                Some (<[Z.to_nat pos:=0]> (replicate CELLS (-1)))).
  { apply wr_in_range. rewrite length_replicate. unfold CELLS. lia. }
  rewrite Hwr. cbn [mbind option_bind].
  set (steps := <[Z.to_nat pos:=0]> (replicate CELLS (-1))).
  pose proof (unseen_le_empties (board b) steps) as Hu.
  pose proof (unseen_le_25 b steps Hwf) as Hu25.
  destruct (flood_loop_ok b Hwf FLOOD_FUEL (mkFlood [pos] steps 0 0))
    as (f & Hf & Hq & Hge & Heq & Hts & Hsum & Hfin); cbn [fq fsteps total_cells total_steps length]; try lia.
  - split.
    + unfold steps. rewrite length_insert, length_replicate. done.
    + intros j x Hj. apply list_lookup_singleton_Some in Hj as [-> <-].
      split; [done|]. exists 0. split; [|lia].
      by eapply rd_wr_eq.
  - rewrite FLOOD_FUEL_eq. lia.
  - exists f. cbn [fq fsteps total_cells total_steps length] in Hge, Heq.
    split; [done|]. lia.
Qed.

(** X16. On a well-formed board with both stored positions on inner
    cells, [dijkstra] returns between [SCORE_PER_CELL] and
    [SCORE_PER_CELL] times one more than the number of Empty cells, so
    the magnitude of [getScore] is at most 16 per Empty cell (at most
    400). *)
Theorem getScore_range b player :
  wf_board b = true → playable (p1 b) = true → playable (p2 b) = true →
  ∃ x y, dijkstra b player = Some x ∧ dijkstra b (OPPONENT player) = Some y ∧
    getScore b player = Some (x - y) ∧
    16 ≤ x ≤ 16 * (1 + Z.of_nat (empties (board b))) ∧
    16 ≤ y ≤ 16 * (1 + Z.of_nat (empties (board b))) ∧
    - (16 * Z.of_nat (empties (board b))) ≤ x - y
      ≤ 16 * Z.of_nat (empties (board b)) ∧
    -400 ≤ x - y ≤ 400.
Proof.
  intros Hwf H1 H2.
  assert (Ht : ∀ who, playable (token_pos b who) = true).
  { intros who. unfold token_pos. by destruct (who =? P1). }
  destruct (flood_cells_le b player Hwf (Ht _)) as (f & Hf & Hc & Hs).
  destruct (flood_cells_le b (OPPONENT player) Hwf (Ht _))
    as (g & Hg & Hc' & Hs').
  destruct (dijkstra_bounds b player Hwf (Ht _)) as (x & Hx & Hbx).
  destruct (dijkstra_bounds b (OPPONENT player) Hwf (Ht _)) as (y & Hy & Hby).
  exists x, y. split; [done|]. split; [done|].
  split; [unfold getScore; by rewrite Hx, Hy|].
  unfold dijkstra in Hx, Hy. rewrite Hf in Hx. rewrite Hg in Hy.
  cbn [mbind option_bind] in Hx, Hy.
  injection Hx as <-. injection Hy as <-. unfold SCORE_PER_CELL in *. lia.
Qed.

Lemma getScore_range_witness :
  ∃ x y, dijkstra board_opening P1 = Some x ∧
    dijkstra board_opening (OPPONENT P1) = Some y ∧
    getScore board_opening P1 = Some (x - y) ∧
    16 ≤ x ≤ 16 * (1 + Z.of_nat (empties (board board_opening))) ∧
    16 ≤ y ≤ 16 * (1 + Z.of_nat (empties (board board_opening))) ∧
    - (16 * Z.of_nat (empties (board board_opening))) ≤ x - y
      ≤ 16 * Z.of_nat (empties (board board_opening)) ∧
    -400 ≤ x - y ≤ 400.
Proof. apply (getScore_range board_opening P1); reflexivity. Defined.

(** ** Printing *)

Lemma copy_cells_id a : length a = CELLS → copy_cells a positions = Some a.
Proof.
  intros Hl. unfold CELLS in Hl.
  do 49 (destruct a as [|? a]; [discriminate Hl|]).
  destruct a; [reflexivity | discriminate Hl].
Qed.

Lemma spans_disjoint_all :
  forallb (λ p, if playable p
                then forallb (λ m, forallb (spans_disjoint p m)
                                     [1; -1; 7; -7; 6; -6; 8; -8])
                       [1; -1; 7; -7; 6; -6; 8; -8]
                else true) positions = true.
Proof. vm_compute. reflexivity. Qed.

(** Rays of different directions from one inner cell share no cell. *)
Lemma ray_span_disjoint p m d x :
  playable p = true → m ∈ MOVES → d ∈ MOVES → m ≠ d →
  x ∈ ray_span 7 m p → x ∈ ray_span 7 d p → False.
Proof.
  intros Hp Hm Hd Hne Hxm Hxd. rewrite MOVES_eq in Hm, Hd.
  pose proof spans_disjoint_all as H. rewrite forallb_forall in H.
  assert (Hin : In p positions).
  { apply list_elem_of_In, elem_of_positions.
    apply playable_range in Hp. lia. }
  specialize (H p Hin). rewrite Hp in H.
  rewrite forallb_forall in H. apply list_elem_of_In in Hm, Hd, Hxm, Hxd.
  specialize (H m Hm). rewrite forallb_forall in H. specialize (H d Hd).
  unfold spans_disjoint in H. apply orb_prop in H as [H|H].
  { apply Z.eqb_eq in H. done. }
  rewrite forallb_forall in H. specialize (H x Hxm).
  apply negb_true_iff in H.
  assert (existsb (Z.eqb x) (ray_span 7 d p) = true); [|congruence].
  apply existsb_exists. exists x. split; [done|]. apply Z.eqb_refl.
Qed.

Lemma ray_span_S n move p :
  ray_span (S n) move p =
  (p + move) :: (if on_ring (p + move) then [] else ray_span n move (p + move)).
Proof. reflexivity. Qed.

(** The span ends on the ring, so more fuel adds nothing. *)
Lemma ray_span_stable move :
  move ∈ MOVES →
  ∀ n' n p x,
    playable p = true → (ring_dist 7 move p ≤ n)%nat →
    x ∈ ray_span n' move p → x ∈ ray_span n move p.
Proof.
  intros Hm. induction n' as [|n' IH]; intros n p x Hp Hn Hx;
    [by apply elem_of_nil in Hx|].
  pose proof (ring_dist_pos move p Hp Hm).
  destruct n as [|n]; [lia|]. rewrite ray_span_S in Hx |- *.
  apply elem_of_cons in Hx as [->|Hx]; [by left|]. right.
  destruct (on_ring (p + move)) eqn:Hring; [done|].
  destruct (ray_step p move Hp Hm) as [_ [?|[Hp' Hlt]]]; [congruence|].
  apply (IH n); [done | lia | done].
Qed.

(** A cell of the span lies strictly ahead. *)
Lemma ray_span_ahead move : ∀ n p x,
  x ∈ ray_span n move p → ∃ k, 1 ≤ k ∧ x = p + k * move.
Proof.
  induction n as [|n IH]; intros p x Hx; [by apply elem_of_nil in Hx|].
  rewrite ray_span_S in Hx. apply elem_of_cons in Hx as [->|Hx].
  - exists 1. lia.
  - destruct (on_ring (p + move)); [by apply elem_of_nil in Hx|].
    destruct (IH _ _ Hx) as (k & Hk & ->). exists (k + 1). lia.
Qed.

Lemma moves_nonzero move : move ∈ MOVES → move ≠ 0.
Proof.
  rewrite MOVES_eq. intros H ->.
  repeat (apply elem_of_cons in H as [H|H]; [discriminate H|]).
  by apply elem_of_nil in H.
Qed.

(** The cells a ray reaches through Empty cells are in its span. *)
Lemma on_ray_span b move p x :
  wf_board b = true → move ∈ MOVES →
  on_ray (board b) move p x → playable p = true →
  ∀ n, (ring_dist 7 move p ≤ n)%nat → x ∈ ray_span n move p.
Proof.
  intros Hwf Hm. induction 1 as [o H|o p H Hray IH]; intros Hp n Hn.
  - pose proof (ring_dist_pos move o Hp Hm).
    destruct n as [|n]; [lia|]. rewrite ray_span_S. by left.
  - pose proof (wf_empty_playable b _ Hwf H) as Hp'.
    destruct (ray_step o move Hp Hm) as [_ [Hring|[_ Hlt]]].
    { apply playable_range in Hp' as [_ ?]. congruence. }
    destruct n as [|n]; [lia|]. rewrite ray_span_S. right.
    apply playable_range in Hp' as Hr. destruct Hr as [_ Hr]. rewrite Hr.
    apply IH; [done | lia].
Qed.

Section Marking.
Variable b : Board.
Hypothesis Hwf : wf_board b = true.

(** One marking walk: it turns the cells of the ray into 3, provided the
    copy still agrees with the board along the rest of the span. *)
Lemma mark_ray_spec move :
  move ∈ MOVES →
  ∀ (n : nat) (p : Z) (brd : list Z),
    playable p = true → (ring_dist 7 move p ≤ n)%nat →
    length brd = CELLS →
    (∀ x, x ∈ ray_span n move p → rd brd x = rd (board b) x) →
    ∃ brd', mark_ray n brd move p = Some brd' ∧ length brd' = CELLS ∧
      ∀ x, rd brd' x =
           if decide (x ∈ ray_cells n (board b) move p) then Some 3
           else rd brd x.
Proof.
  intros Hm n. induction n as [|n IH]; intros p brd Hp Hd Hl Hagree.
  { pose proof (ring_dist_pos move p Hp Hm). lia. }
  cbn [mark_ray]. rewrite ray_cells_S.
  destruct (ray_step p move Hp Hm) as [Hr Hnext].
  rewrite (Hagree (p + move)) by (rewrite ray_span_S; by left).
  destruct (wf_rd b (p + move) Hwf Hr) as [cell Hcell].
  rewrite Hcell. cbn [mbind option_bind].
  destruct (cell =? EMPTY) eqn:Ecell; cbn [negb].
  2: { exists brd. split; [done|]. split; [done|]. intros x.
       rewrite decide_False; [done|]. apply not_elem_of_nil. }
  apply Z.eqb_eq in Ecell. subst cell.
  pose proof (wf_empty_playable b _ Hwf Hcell) as Hp'.
  destruct Hnext as [Hring|[_ Hlt]].
  { apply playable_range in Hp' as [_ ?]. congruence. }
  assert (Hwr : wr brd (p + move) 3 = Some (<[Z.to_nat (p + move):=3]> brd))
    by (apply wr_in_range; rewrite Hl; unfold CELLS; lia).
  rewrite Hwr. cbn [mbind option_bind].
  destruct (IH (p + move) (<[Z.to_nat (p + move):=3]> brd))
    as (brd' & Hrun & Hl' & Hspec); [done | lia | | |].
  { rewrite length_insert. done. }
  { intros x Hx. rewrite (rd_wr_ne _ _ _ _ x Hwr).
    - apply Hagree. rewrite ray_span_S. right.
      apply playable_range in Hp' as [_ Hr']. by rewrite Hr'.
    - intros <-. destruct (ray_span_ahead _ _ _ _ Hx) as (k & Hk & Heq).
      pose proof (moves_nonzero move Hm).
      assert (Hz : k * move = 0) by lia.
      apply Z.mul_eq_0 in Hz. lia. }
  exists brd'. split; [done|]. split; [done|]. intros x.
  rewrite Hspec.
  destruct (decide (x ∈ ray_cells n (board b) move (p + move))) as [Hin|Hout].
  - rewrite decide_True; [done|]. by right.
  - destruct (decide (x = p + move)) as [->|Hne].
    + rewrite decide_True by (by left). by eapply rd_wr_eq.
    + rewrite decide_False.
      * by apply (rd_wr_ne _ _ _ _ x Hwr).
      * intros [?|?]%elem_of_cons; done.
Qed.

Lemma mark_dirs_spec ap :
  playable ap = true →
  ∀ (todo done : list Z) (brd : list Z),
    NoDup (done ++ todo) → done ++ todo ⊆ MOVES →
    length brd = CELLS →
    (∀ x, rd brd x = if decide (x ∈ dests_of (board b) ap done) then Some 3
                     else rd (board b) x) →
    ∃ brd', mark_dirs brd ap todo = Some brd' ∧ length brd' = CELLS ∧
      ∀ x, rd brd' x =
           if decide (x ∈ dests_of (board b) ap (done ++ todo)) then Some 3
           else rd (board b) x.
Proof.
  intros Hap todo.
  induction todo as [|m todo IH]; intros done brd Hnd Hsub Hl Hbrd;
    cbn [mark_dirs].
  { exists brd. rewrite app_nil_r. done. }
  assert (Hm : m ∈ MOVES) by (apply Hsub, elem_of_app; right; by left).
  assert (Hfuel : (ring_dist 7 m ap ≤ RAY_FUEL)%nat).
  { pose proof (ring_dist_le 7 m ap). rewrite RAY_FUEL_eq. lia. }
  destruct (mark_ray_spec m Hm RAY_FUEL ap brd Hap Hfuel Hl)
    as (brd1 & Hrun & Hl1 & Hspec).
  { intros x Hx. rewrite Hbrd. rewrite decide_False; [done|].
    unfold dests_of. rewrite list_elem_of_In, in_flat_map.
    intros (d & Hd%list_elem_of_In & Hxd%list_elem_of_In).
    assert (Hdm : d ∈ MOVES) by (apply Hsub, elem_of_app; by left).
    assert (Hne : m ≠ d).
    { intros ->. apply NoDup_app in Hnd as (_ & Hdisj & _).
      apply (Hdisj d Hd). by left. }
    apply ray_cells_on_ray in Hxd.
    apply (ray_span_disjoint ap m d x Hap Hm Hdm Hne).
    - apply (ray_span_stable m Hm RAY_FUEL); [done | apply ring_dist_le | done].
    - apply (on_ray_span b); try done. apply ring_dist_le. }
  rewrite Hrun. cbn [mbind option_bind].
  destruct (IH (done ++ [m]) brd1) as (brd' & Hrun' & Hl' & Hspec').
  { by rewrite <- app_assoc. }
  { by rewrite <- app_assoc. }
  { done. }
  { intros x. rewrite Hspec, Hbrd. unfold dests_of.
    rewrite flat_map_app. cbn [flat_map]. rewrite app_nil_r.
    destruct (decide (x ∈ ray_cells RAY_FUEL (board b) m ap)) as [H1|H1];
      destruct (decide (x ∈ flat_map
                  (λ move, ray_cells RAY_FUEL (board b) move ap) done))
        as [H2|H2].
    - rewrite decide_True; [done|]. apply elem_of_app. by left.
    - rewrite decide_True; [done|]. apply elem_of_app. by right.
    - rewrite decide_True; [done|]. apply elem_of_app. by left.
    - rewrite decide_False; [done|]. intros [?|?]%elem_of_app; done. }
  exists brd'. split; [done|]. split; [done|].
  intros x. rewrite Hspec'. by rewrite <- app_assoc.
Qed.

End Marking.

Lemma MOVES_NoDup : NoDup MOVES.
Proof.
  rewrite MOVES_eq. apply NoDup_ListNoDup.
  repeat (constructor; [cbn; intuition discriminate|]). constructor.
Qed.

Lemma marked_cells_spec b player :
  wf_board b = true → playable (token_pos b player) = true →
  ∃ brd, marked_cells b player = Some brd ∧ length brd = CELLS ∧
    ∀ x, rd brd x =
         if decide (x ∈ destinations (board b) (token_pos b player))
         then Some 3 else rd (board b) x.
Proof.
  intros Hwf Hap. unfold marked_cells. fold (token_pos b player).
  rewrite (copy_cells_id _ (wf_length b Hwf)). cbn [mbind option_bind].
  apply (mark_dirs_spec b Hwf (token_pos b player) Hap MOVES [] (board b)).
  - apply MOVES_NoDup.
  - done.
  - by apply wf_length.
  - intros x. rewrite decide_False; [done|]. apply not_elem_of_nil.
Qed.

(** X17. On a well-formed board with the player's token on an inner
    cell, the marking loops of [printPossibleMoves] turn exactly the
    destinations of the player's ray moves into 3 in the copy, and leave
    every other cell of the copy as it is on the board. *)
Theorem printPossibleMoves_marks b player :
  wf_board b = true → playable (token_pos b player) = true →
  ∃ brd, marked_cells b player = Some brd ∧ length brd = CELLS ∧
    ∀ x, rd brd x =
         if decide (x ∈ destinations (board b) (token_pos b player))
         then Some 3 else rd (board b) x.
Proof. apply marked_cells_spec. Qed.

Lemma printPossibleMoves_marks_witness :
  ∃ brd, marked_cells board_opening P1 = Some brd ∧ length brd = CELLS ∧
    ∀ x, rd brd x =
         if decide (x ∈ destinations (board board_opening)
                          (token_pos board_opening P1))
         then Some 3 else rd (board board_opening) x.
Proof. apply (printPossibleMoves_marks board_opening P1); reflexivity. Defined.

Lemma inner_ij i j :
  i ∈ [1; 2; 3; 4; 5] → j ∈ [1; 2; 3; 4; 5] → playable (i * 7 + j) = true.
Proof.
  intros Hi Hj.
  repeat (apply elem_of_cons in Hi as [->|Hi];
          [repeat (apply elem_of_cons in Hj as [->|Hj]; [reflexivity|]);
           by apply elem_of_nil in Hj|]).
  by apply elem_of_nil in Hi.
Qed.

Lemma cell_of_rd a pos c : rd a pos = Some c → cell_of a pos = c.
Proof. intros H. unfold cell_of. by rewrite H. Qed.

Lemma print_row_render text a i :
  length a = CELLS → i ∈ [1; 2; 3; 4; 5] →
  ∀ js, js ⊆ [1; 2; 3; 4; 5] →
    print_row text a i js
    = Some (render_row (λ pos, text pos (cell_of a pos)) i js).
Proof.
  intros Hl Hi js. induction js as [|j js IH]; intros Hsub; [done|].
  cbn [print_row render_row foldr].
  assert (Hj : j ∈ [1; 2; 3; 4; 5]) by (apply Hsub; by left).
  pose proof (playable_range _ (inner_ij i j Hi Hj)) as [Hr _].
  destruct (rd_in_range a (i * 7 + j)) as [c Hc];
    [rewrite Hl; unfold CELLS; lia|].
  rewrite Hc, (cell_of_rd _ _ _ Hc). cbn [mbind option_bind].
  rewrite IH by (intros x Hx; apply Hsub; by right). done.
Qed.

Lemma print_rows_render text a :
  length a = CELLS →
  ∀ rows, rows ⊆ [1; 2; 3; 4; 5] →
    print_rows text a rows
    = Some (render_rows (λ pos, text pos (cell_of a pos)) rows).
Proof.
  intros Hl rows. induction rows as [|i rows IH]; intros Hsub; [done|].
  cbn [print_rows render_rows foldr].
  rewrite (print_row_render text a i Hl) by (done || apply Hsub; by left).
  cbn [mbind option_bind].
  rewrite IH by (intros x Hx; apply Hsub; by right). done.
Qed.

Lemma render_row_ext t1 t2 i :
  i ∈ [1; 2; 3; 4; 5] →
  (∀ pos, playable pos = true → t1 pos = t2 pos) →
  ∀ js, js ⊆ [1; 2; 3; 4; 5] → render_row t1 i js = render_row t2 i js.
Proof.
  intros Hi Ht js. induction js as [|j js IH]; intros Hsub; [done|].
  cbn [render_row foldr]. fold (render_row t1 i js). fold (render_row t2 i js).
  rewrite IH by (intros x Hx; apply Hsub; by right).
  rewrite Ht; [done|]. apply inner_ij; [done|]. apply Hsub. by left.
Qed.

Lemma render_rows_ext t1 t2 :
  (∀ pos, playable pos = true → t1 pos = t2 pos) →
  ∀ rows, rows ⊆ [1; 2; 3; 4; 5] → render_rows t1 rows = render_rows t2 rows.
Proof.
  intros Ht rows. induction rows as [|i rows IH]; intros Hsub; [done|].
  cbn [render_rows foldr]. fold (render_rows t1 rows).
  fold (render_rows t2 rows).
  rewrite IH by (intros x Hx; apply Hsub; by right).
  rewrite (render_row_ext t1 t2 i); [done | apply Hsub; by left | done | done].
Qed.

Lemma no_three a x :
  forallb (λ c, negb (c =? 3)) a = true → rd a x ≠ Some 3.
Proof.
  intros H Hx. rewrite forallb_forall in H.
  unfold rd in Hx. destruct ((0 <=? x) && _); [|done].
  apply list_elem_of_lookup_2, list_elem_of_In, H in Hx. done.
Qed.

(** X18. With both players placed and no cell holding the value 3,
    [printBoard] writes the grid with each inner cell blank when Empty,
    as the owner's digit on a stored position and as X otherwise, and
    [printPossibleMoves] writes the same grid except that the
    destinations of the player's ray moves appear as a star. *)
Theorem printPossibleMoves_stars b player :
  both_placed b = true → forallb (λ c, negb (c =? 3)) (board b) = true →
  printBoard b
    = Some (render (λ pos, board_cell_text b pos (cell_of (board b) pos))) ∧
  printPossibleMoves b player
    = Some (render (λ pos,
              if decide (pos ∈ destinations (board b) (token_pos b player))
              then "* | "%string
              else board_cell_text b pos (cell_of (board b) pos))).
Proof.
  intros Hb H3.
  pose proof (both_placed_inv b Hb) as (Hwf & Hp1 & Hc1 & Hp2 & Hc2).
  destruct (both_placed_mover b player Hb) as (Hap & _ & _).
  split.
  { unfold printBoard, render.
    by rewrite (print_rows_render _ _ (wf_length b Hwf)). }
  unfold printPossibleMoves.
  destruct (marked_cells_spec b player Hwf Hap) as (brd & Hbrd & Hl & Hspec).
  rewrite Hbrd. cbn [mbind option_bind].
  rewrite (print_rows_render _ _ Hl) by done. f_equal.
  unfold render. apply render_rows_ext; [|done].
  intros pos Hpos. unfold cell_of. rewrite Hspec.
  destruct (decide (pos ∈ destinations (board b) (token_pos b player)))
    as [Hd|Hd].
  - destruct (destination_empty b _ pos Hwf Hap Hd) as [Hempty _].
    change (default 0 (Some 3)) with 3.
    unfold moves_cell_text. change (3 =? 0) with false. change (3 =? 3) with true.
    assert (H1 : (p1 b =? pos) = false).
    { apply Z.eqb_neq. intros <-. rewrite Hc1 in Hempty. discriminate. }
    assert (H2 : (p2 b =? pos) = false).
    { apply Z.eqb_neq. intros <-. rewrite Hc2 in Hempty. discriminate. }
    rewrite H1, H2. done.
  - destruct (rd (board b) pos) as [c|] eqn:Hc; [|done].
    change (default 0 (Some c)) with c.
    unfold moves_cell_text, board_cell_text.
    assert (Hc3 : (c =? 3) = false).
    { apply Z.eqb_neq. intros ->. by apply (no_three _ _ H3) in Hc. }
    rewrite Hc3. done.
Qed.

Lemma printPossibleMoves_stars_witness :
  printBoard board_opening
    = Some (render (λ pos, board_cell_text board_opening pos
                             (cell_of (board board_opening) pos))) ∧
  printPossibleMoves board_opening P1
    = Some (render (λ pos,
              if decide (pos ∈ destinations (board board_opening)
                                 (token_pos board_opening P1))
              then "* | "%string
              else board_cell_text board_opening pos
                     (cell_of (board board_opening) pos))).
Proof. apply (printPossibleMoves_stars board_opening P1); reflexivity. Defined.

(** ** The pruning contract at every node *)



(** X20. With both players placed and more fuel than Empty cells, the
    value of the root call of [getMove] lies between -1000 and 1000, so
    the sentinels [-INF] and [INF] are never returned; it is
    [LOSS_VALUE + 1] when the mover is walled in. *)
Theorem root_value_range b player max_depth fuel :
  both_placed b = true → (empties (board b) < fuel)%nat →
  ∃ v, @root_value DijkstraScorer fuel b player max_depth = Some v ∧
    -1000 ≤ v ≤ 1000 ∧
    (hasLost b (token_pos b player) = Some true → v = LOSS_VALUE + 1).
Proof.
  intros Hb Hfuel.
  destruct (root_search b player max_depth fuel Hb Hfuel)
    as (v & s & move & Hex & Hn & _).
  exists v. split; [unfold root_value; by rewrite Hn|].
  pose proof (both_placed_inv b Hb) as (Hwf & Hp1 & Hc1 & Hp2 & Hc2).
  destruct (both_placed_mover b player Hb) as (Hap & Hmark & Hpp).
  destruct fuel as [|fuel]; [lia|].
  pose proof (empties_le_49 (board b)) as H49.
  destruct (@exhaustive_total DijkstraScorer max_depth DijkstraScorer_ok fuel
              b (token_pos b player) (token_pos b (OPPONENT player)) 1)
    as (v' & Hv' & Hok); try done; try lia.
  { split; [done|]. exists (mover player). split; [done|].
    unfold mover. by destruct (player =? P1). }
  rewrite token_pos_opponent in Hv'. unfold token_pos in Hv'.
  assert (v' = v) by congruence. subst v'.
  split; [exact Hok|].
  intros Hlost. rewrite (@exhaustive_S DijkstraScorer) in Hex.
  fold (token_pos b player) in Hex. rewrite Hlost in Hex.
  cbn [mbind option_bind] in Hex. congruence.
Qed.

Lemma root_value_range_witness :
  ∃ v, @root_value DijkstraScorer 50 board_endgame P1 3 = Some v ∧
    -1000 ≤ v ≤ 1000 ∧
    (hasLost board_endgame (token_pos board_endgame P1) = Some true →
     v = LOSS_VALUE + 1).
Proof.
  apply (root_value_range board_endgame P1 3 50);
    [reflexivity | vm_compute; lia].
Defined.
